(** * audio_synthesis: the WGAN-GP training engine and the signal transforms

    A shallow embedding of [models/WGAN.py] and [utils/spectral.py].

    Tensors are nested lists, outermost axis first.  Their entries are real
    numbers: TensorFlow's float32 kernels are read as the real functions they
    approximate, rounding is not part of this model.  Python integers are [Z].
    Library routines of TensorFlow, NumPy and librosa whose numerical
    definition plays no role (the networks, automatic differentiation, the
    optimizers, the FFT, the mel filterbank, the random generators) are the
    fields of two interfaces, [Spectral.SignalLib] and [WGAN.Framework]. *)

From Stdlib Require Import Ascii String.
From Stdlib Require Import List ZArith Reals Lra Lia Bool Arith Permutation.
From Stdlib Require DecimalString DecimalZ DecimalPos QArith Qround Qfield.
Import ListNotations.

(* ================================================================== *)
(** ** Tensors *)

Module Tensor.

#[local] Unset Elimination Schemes.
Inductive tensor (A : Type) : Type :=
| Sc (x : A)
| Dim (l : list (tensor A)).
#[local] Set Elimination Schemes.

Arguments Sc {A} x.
Arguments Dim {A} l.

Section Induction.
Variable A : Type.
Variable P : tensor A -> Prop.
Hypothesis HSc : forall x, P (Sc x).
Hypothesis HDim : forall l, Forall P l -> P (Dim l).

Fixpoint tensor_ind' (t : tensor A) : P t :=
  match t with
  | Sc x => HSc x
  | Dim l =>
      HDim l ((fix go (l : list (tensor A)) : Forall P l :=
               match l with
               | [] => Forall_nil P
               | t :: l' => Forall_cons t (tensor_ind' t) (go l')
               end) l)
  end.
End Induction.

Section Basics.
Context {A : Type}.

(** [t.shape]; an empty axis ends the shape, since a nested list does not
    record the extents below it. *)
Fixpoint shape (t : tensor A) : list nat :=
  match t with
  | Sc _ => []
  | Dim l => length l :: match l with [] => [] | t0 :: _ => shape t0 end
  end.

Definition rank (t : tensor A) : nat := length (shape t).

(** The tensor is rectangular with extents [s]. *)
Fixpoint has_shape (s : list nat) (t : tensor A) : Prop :=
  match s, t with
  | [], Sc _ => True
  | n :: s', Dim l => length l = n /\ Forall (has_shape s') l
  | _, _ => False
  end.

(** Entries in row-major order. *)
Fixpoint tflatten (t : tensor A) : list A :=
  match t with
  | Sc x => [x]
  | Dim l => flat_map tflatten l
  end.

(** [n] leading axes of extent one around [t]. *)
Fixpoint nest (n : nat) (t : tensor A) : tensor A :=
  match n with
  | O => t
  | S n' => Dim [nest n' t]
  end.

(** Rows of a tensor: the examples of a batch. *)
Definition rows (t : tensor A) : list (tensor A) :=
  match t with
  | Sc _ => []
  | Dim l => l
  end.

(** [t.shape[-1]], an IndexError on a scalar. *)
Definition last_dim (t : tensor A) : option nat :=
  match shape t with
  | [] => None
  | s => Some (last s 0%nat)
  end.

Definition prod_dims (s : list nat) : nat := fold_right Nat.mul 1%nat s.

(** [count] consecutive pieces of [size] entries. *)
Fixpoint pieces (count size : nat) (data : list A) : list (list A) :=
  match count with
  | O => []
  | S c => firstn size data :: pieces c size (skipn size data)
  end.

(** The tensor of extents [s] over row-major [data]. *)
Fixpoint build (dflt : A) (s : list nat) (data : list A) : tensor A :=
  match s with
  | [] => Sc (hd dflt data)
  | n :: s' => Dim (map (build dflt s') (pieces n (prod_dims s') data))
  end.
End Basics.

Section Maps.
Context {A B : Type}.

Fixpoint tmap (f : A -> B) (t : tensor A) : tensor B :=
  match t with
  | Sc x => Sc (f x)
  | Dim l => Dim (map (tmap f) l)
  end.
End Maps.

Section ListHelpers.
Context {X Y W : Type}.

Definition mapM (g : X -> option Y) : list X -> option (list Y) :=
  fix go (l : list X) : option (list Y) :=
    match l with
    | [] => Some []
    | x :: l' =>
        match g x, go l' with
        | Some y, Some ys => Some (y :: ys)
        | _, _ => None
        end
    end.

Definition zipWith (g : X -> Y -> W) : list X -> list Y -> list W :=
  fix go (lx : list X) (ly : list Y) : list W :=
    match lx, ly with
    | x :: lx', y :: ly' => g x y :: go lx' ly'
    | _, _ => []
    end.

Definition zipM (g : X -> Y -> option W)
  : list X -> list Y -> option (list W) :=
  fix go (lx : list X) (ly : list Y) : option (list W) :=
    match lx, ly with
    | [], [] => Some []
    | x :: lx', y :: ly' =>
        match g x y, go lx' ly' with
        | Some w, Some ws => Some (w :: ws)
        | _, _ => None
        end
    | _, _ => None
    end.
End ListHelpers.

Section Zip.
Context {A B C : Type}.
Variable f : A -> B -> C.

(** Entrywise combination of two tensors of one shape. *)
Fixpoint tzip (a : tensor A) (b : tensor B) {struct a} : tensor C :=
  match a, b with
  | Sc x, Sc y => Sc (f x y)
  | Dim la, Dim lb => Dim (zipWith tzip la lb)
  | Sc x, Dim _ => Dim []
  | Dim _, Sc _ => Dim []
  end.

(** A binary operator on tensors of equal rank with NumPy broadcasting:
    along each axis the extents agree or one of them is one; anything else
    is an error. *)
Fixpoint broadcast_same (a : tensor A) (b : tensor B) {struct a}
  : option (tensor C) :=
  match a, b with
  | Sc x, Sc y => Some (Sc (f x y))
  | Dim la, Dim lb =>
      if (length la =? length lb)%nat then
        option_map Dim (zipM broadcast_same la lb)
      else
        match la, lb with
        | [a0], _ => option_map Dim (mapM (broadcast_same a0) lb)
        | _, [b0] => option_map Dim (mapM (fun a' => broadcast_same a' b0) la)
        | _, _ => None
        end
  | _, _ => None
  end.

(** The operator on tensors of any ranks: the shorter shape is first
    extended by leading axes of extent one. *)
Definition broadcast (a : tensor A) (b : tensor B) : option (tensor C) :=
  broadcast_same (nest (rank b - rank a) a) (nest (rank a - rank b) b).
End Zip.

End Tensor.
Import Tensor.

Section TensorOps.
Context {A : Type}.

(** [g] applied to every sub-tensor [d] axes down; an error when the
    tensor is not that deep. *)
Fixpoint at_depth {B : Type} (d : nat) (g : tensor A -> option (tensor B))
    (t : tensor A) : option (tensor B) :=
  match d with
  | O => g t
  | S d' =>
      match t with
      | Sc _ => None
      | Dim l => option_map Dim (mapM (at_depth d' g) l)
      end
  end.

(** [tf.concat([a, b], axis=d)]. *)
Fixpoint concat_axis (d : nat) (a b : tensor A) : option (tensor A) :=
  match d, a, b with
  | O, Dim la, Dim lb => Some (Dim (la ++ lb))
  | S d', Dim la, Dim lb => option_map Dim (zipM (concat_axis d') la lb)
  | _, _, _ => None
  end.

(** [t[..., i]] with [d] leading full slices. *)
Definition index_axis (d i : nat) (t : tensor A) : option (tensor A) :=
  at_depth d (fun u => nth_error (rows u) i) t.

(** [t[..., 0:-1]] with [d] leading full slices. *)
Definition drop_last_axis (d : nat) (t : tensor A) : option (tensor A) :=
  at_depth d (fun u => match u with
                       | Dim l => Some (Dim (removelast l))
                       | Sc _ => None
                       end) t.

(** [tf.expand_dims(t, d)]. *)
Definition expand_dims (d : nat) (t : tensor A) : option (tensor A) :=
  at_depth d (fun u => Some (Dim [u])) t.

(** [tf.pad(t, [[0,0],...,[0,1]], constant_values=z)] on axis [d]. *)
Definition pad_end_axis (d : nat) (z : tensor A) (t : tensor A)
  : option (tensor A) :=
  at_depth d (fun u => match u with
                       | Dim l => Some (Dim (l ++ [z]))
                       | Sc _ => None
                       end) t.

(** The entry at a full index. *)
Fixpoint tget (t : tensor A) (ix : list nat) : option A :=
  match ix, t with
  | [], Sc x => Some x
  | i :: ix', Dim l =>
      match nth_error l i with
      | Some u => tget u ix'
      | None => None
      end
  | _, _ => None
  end.

(** [h] applied to every sub-tensor [d] axes down: what [at_depth] computes
    on a tensor at least [d] axes deep, for a function that does not fail. *)
Fixpoint map_depth {B : Type} (d : nat) (h : tensor A -> tensor B)
    (t : tensor A) : tensor B :=
  match d with
  | O => h t
  | S d' => Dim (map (map_depth d' h) (rows t))
  end.

(** A vector without its last entry, and with one more entry at its end. *)
Definition drop_last (u : tensor A) : tensor A :=
  match u with
  | Dim l => Dim (removelast l)
  | Sc _ => u
  end.

Definition pad_end (z : tensor A) (u : tensor A) : tensor A :=
  match u with
  | Dim l => Dim (l ++ [z])
  | Sc _ => u
  end.
End TensorOps.

(* ================================================================== *)
(** ** Real-valued tensor arithmetic *)

Module RTensor.
Local Open Scope R_scope.

Definition Rsum (l : list R) : R := fold_right Rplus 0 l.

(** [tf.reduce_mean(t)]: the mean of all entries. *)
Definition reduce_mean (t : tensor R) : R :=
  Rsum (tflatten t) / INR (length (tflatten t)).

(** Entrywise sum of a list of tensors of one shape. *)
Definition tsum (l : list (tensor R)) : tensor R :=
  match l with
  | [] => Sc 0
  | t :: l' => fold_left (tzip Rplus) l' t
  end.

Fixpoint reduce_from (axes : list nat) (d : nat) (t : tensor R) : tensor R :=
  match t with
  | Sc x => Sc x
  | Dim l =>
      let rs := map (reduce_from axes (S d)) l in
      if existsb (Nat.eqb d) axes then tsum rs else Dim rs
  end.

(** [tf.reduce_sum(t, axis=axes)]; an axis outside the rank is an error. *)
Definition reduce_sum (t : tensor R) (axes : list nat) : option (tensor R) :=
  if forallb (fun a => a <? rank t)%nat axes
  then Some (reduce_from axes 0 t)
  else None.

Definition tadd : tensor R -> tensor R -> option (tensor R) := broadcast Rplus.
Definition tsub : tensor R -> tensor R -> option (tensor R) := broadcast Rminus.
Definition tmul : tensor R -> tensor R -> option (tensor R) := broadcast Rmult.

(** [tf.cumsum(t, axis=d)]. *)
Fixpoint running (acc : option (tensor R)) (l : list (tensor R))
  : list (tensor R) :=
  match l with
  | [] => []
  | x :: l' =>
      let s := match acc with
               | None => x
               | Some a => tzip Rplus a x
               end in
      s :: running (Some s) l'
  end.

Definition cumsum (d : nat) (t : tensor R) : option (tensor R) :=
  at_depth d (fun u => match u with
                       | Dim l => Some (Dim (running None l))
                       | Sc _ => None
                       end) t.

(** Python's and TensorFlow's [%] on floats: the remainder of the floored
    quotient. *)
Definition floor_mod (x y : R) : R := x - IZR (Int_part (x / y)) * y.

End RTensor.
Import RTensor.

(* ================================================================== *)
(** ** Python values shared by both modules *)

Notation "'let?' x := e 'in' k" :=
  (match e with Some x => k | None => None end)
    (at level 10, x pattern, e at level 100, k at level 200).

(** Truth value of an optional integer argument: [None] and [0] are false. *)
Definition truthy_int (n : option Z) : bool :=
  match n with
  | Some k => negb (k =? 0)%Z
  | None => false
  end.

(** Truth value of an optional string: [None] and the empty string are false. *)
Definition truthy_str (s : option string) : bool :=
  match s with
  | Some EmptyString => false
  | Some _ => true
  | None => false
  end.

(* ================================================================== *)
(** ** utils/spectral.py *)

Module Spectral.
Local Open Scope R_scope.

Definition C : Type := (R * R)%type.

(** What the module takes from TensorFlow, NumPy and librosa. *)
Class SignalLib := {
  (** [tf.signal.stft(w, frame_length, frame_step, pad_end=True,
      window_fn=hamming_window)] on a batch of waveforms. *)
  signal_stft : tensor R -> Z -> Z -> option (tensor C);
  (** [tf.signal.inverse_stft] with the window
      [inverse_stft_window_fn(frame_step, hamming_window)]. *)
  signal_inverse_stft : tensor C -> Z -> Z -> option (tensor R);
  (** [tf.signal.linear_to_mel_weight_matrix(n_mel, n_bins, rate, lo, hi)]. *)
  linear_to_mel_weight_matrix : Z -> nat -> R -> R -> R -> tensor R;
  (** [tf.linalg.pinv]. *)
  pinv : tensor R -> tensor R;
  (** [tf.math.angle] of one complex number. *)
  angle : C -> R;
  (** [np.unwrap] with its default axis. *)
  np_unwrap : tensor R -> tensor R;
  (** The state of NumPy's global random generator, [np.random]. *)
  np_random_state : Type;
  (** [librosa.core.griffinlim(S, n_iter, hop_length, win_length,
      pad_mode='constant', center=False)].  The call passes neither [init]
      nor [random_state]: librosa then starts from random phases drawn from
      [np.random], so the routine reads and advances that generator. *)
  griffinlim : tensor R -> Z -> Z -> Z -> np_random_state ->
               option (tensor R) * np_random_state
}.

Definition _EPSILON : R := 1 / 1000000.
Definition _SAMPLE_RATE : R := 16000.

Section WithLib.
Context {L : SignalLib}.

Definition cabs (z : C) : R := sqrt (fst z * fst z + snd z * snd z).

Definition dot (u v : list R) : R := Rsum (map (fun p => fst p * snd p) (combine u v)).

Definition entries (t : tensor R) : list R := tflatten t.

(** Column [j] of a matrix. *)
Definition column (m : tensor R) (j : nat) : list R :=
  map (fun row => nth j (entries row) 0) (rows m).

(** [tf.tensordot(t, m, 1)]: the last axis of [t] against the first axis
    of the matrix [m]. *)
Definition tensordot1 (t : tensor R) (m : tensor R) : option (tensor R) :=
  let width := match shape m with [_; w] => w | _ => O end in
  at_depth (rank t - 1)
    (fun row =>
       if (length (rows row) =? length (rows m))%nat
       then Some (Dim (map (fun j => Sc (dot (entries row) (column m j)))
                           (seq 0 width)))
       else None) t.

Definition _linear_to_mel_scale (linear_scale_in : tensor R) (n_mel_bins : Z)
    (mel_lower_hertz_edge mel_upper_hertz_edge : R) : option (tensor R) :=
  let linear_to_mel := linear_to_mel_weight_matrix n_mel_bins
      (last (shape linear_scale_in) O) _SAMPLE_RATE
      mel_lower_hertz_edge mel_upper_hertz_edge in
  tensordot1 linear_scale_in linear_to_mel.

Definition _mel_to_linear_scale (mel_scale_in : tensor R) (n_stft_bins : Z)
    (mel_lower_hertz_edge mel_upper_hertz_edge : R) : option (tensor R) :=
  let linear_to_mel := linear_to_mel_weight_matrix
      (Z.of_nat (last (shape mel_scale_in) O)) (Z.to_nat n_stft_bins)
      _SAMPLE_RATE mel_lower_hertz_edge mel_upper_hertz_edge in
  tensordot1 mel_scale_in (pinv linear_to_mel).

(** [if len(t.shape) == r: t = tf.expand_dims(t, 0)]. *)
Definition add_batch_axis {A : Type} (r : nat) (t : tensor A) : tensor A :=
  if (rank t =? r)%nat then Dim [t] else t.

(** The two channels stacked on a new last axis:
    [tf.concat([expand_dims(a, 3), expand_dims(b, 3)], axis=-1)]. *)
Definition stack_channels (a b : tensor R) : option (tensor R) :=
  let? a4 := expand_dims 3 a in
  let? b4 := expand_dims 3 b in
  concat_axis 3 a4 b4.

Definition mel_or_id (n_mel_bins : option Z) (lo hi : R) (t : tensor R)
  : option (tensor R) :=
  match n_mel_bins with
  | Some n => if truthy_int n_mel_bins
              then _linear_to_mel_scale t n lo hi
              else Some t
  | None => Some t
  end.

Definition waveform_2_stft (waveform : tensor R) (frame_length frame_step : Z)
    (n_mel_bins : option Z) (mel_lower_hertz_edge mel_upper_hertz_edge : R)
  : option (tensor R) :=
  let waveform := add_batch_axis 1 waveform in
  let? stft := signal_stft waveform frame_length frame_step in
  let? real := drop_last_axis 2 (tmap fst stft) in
  let? img := drop_last_axis 2 (tmap snd stft) in
  let? real := mel_or_id n_mel_bins mel_lower_hertz_edge mel_upper_hertz_edge real in
  let? img := mel_or_id n_mel_bins mel_lower_hertz_edge mel_upper_hertz_edge img in
  stack_channels real img.

Definition linear_or_id (n_mel_bins : option Z) (frame_length : Z) (lo hi : R)
    (t : tensor R) : option (tensor R) :=
  if truthy_int n_mel_bins
  then _mel_to_linear_scale t (frame_length / 2)%Z lo hi
  else Some t.

Definition stft_2_waveform (stft : tensor R) (frame_length frame_step : Z)
    (n_mel_bins : option Z) (mel_lower_hertz_edge mel_upper_hertz_edge : R)
  : option (tensor R) :=
  let stft := add_batch_axis 3 stft in
  let? real := index_axis 3 0 stft in
  let? img := index_axis 3 1 stft in
  let? real := linear_or_id n_mel_bins frame_length
                 mel_lower_hertz_edge mel_upper_hertz_edge real in
  let? img := linear_or_id n_mel_bins frame_length
                mel_lower_hertz_edge mel_upper_hertz_edge img in
  let? real := pad_end_axis 2 (Sc 0) real in
  let? img := pad_end_axis 2 (Sc 0) img in
  let stft := tzip (fun re im => (re, im)) real img in
  signal_inverse_stft stft frame_length frame_step.

(** [np.concatenate([expand_dims(p[:, 0, :], -2), np.diff(p, axis=-2)], -2)]
    on the frames of one example. *)
Fixpoint frame_diffs (prev : tensor R) (frames : list (tensor R))
  : list (tensor R) :=
  match frames with
  | [] => []
  | f :: frames' => tzip Rminus f prev :: frame_diffs f frames'
  end.

Definition first_and_diffs (p : tensor R) : option (tensor R) :=
  at_depth 1 (fun u => match rows u with
                       | [] => None
                       | f0 :: rest => Some (Dim (f0 :: frame_diffs f0 rest))
                       end) p.

(** The magnitude channel of [waveform_2_spectogram]. *)
Definition spectogram_magnitude (stft : tensor C) (log_magnitude : bool)
    (n_mel_bins : option Z) (lo hi : R) : option (tensor R) :=
  let? magnitude := drop_last_axis 2 (tmap cabs stft) in
  let? magnitude := mel_or_id n_mel_bins lo hi magnitude in
  Some (if log_magnitude
        then tmap (fun m => ln (m + _EPSILON)) magnitude
        else magnitude).

(** The phase channel of [waveform_2_spectogram]. *)
Definition spectogram_phase (stft : tensor C) (instantaneous_frequency : bool)
    (n_mel_bins : option Z) (lo hi : R) : option (tensor R) :=
  let? phase := drop_last_axis 2 (tmap angle stft) in
  let? phase := mel_or_id n_mel_bins lo hi phase in
  if instantaneous_frequency
  then first_and_diffs (np_unwrap phase)
  else Some phase.

Definition waveform_2_spectogram (waveform : tensor R)
    (frame_length frame_step : Z) (log_magnitude instantaneous_frequency : bool)
    (n_mel_bins : option Z) (mel_lower_hertz_edge mel_upper_hertz_edge : R)
  : option (tensor R) :=
  let waveform := add_batch_axis 1 waveform in
  let? stft := signal_stft waveform frame_length frame_step in
  let? magnitude := spectogram_magnitude stft log_magnitude n_mel_bins
                      mel_lower_hertz_edge mel_upper_hertz_edge in
  let? phase := spectogram_phase stft instantaneous_frequency n_mel_bins
                  mel_lower_hertz_edge mel_upper_hertz_edge in
  stack_channels magnitude phase.

(** The keyword [instantaneous_frequency] is not passed on: the callee's
    default, [True], applies. *)
Definition waveform_2_magnitude (waveform : tensor R)
    (frame_length frame_step : Z) (log_magnitude : bool)
    (n_mel_bins : option Z) (mel_lower_hertz_edge mel_upper_hertz_edge : R)
  : option (tensor R) :=
  let? spectogram := waveform_2_spectogram waveform frame_length frame_step
                       log_magnitude true n_mel_bins
                       mel_lower_hertz_edge mel_upper_hertz_edge in
  index_axis 3 0 spectogram.

(** [(phase + np.pi) % (2 * np.pi) - np.pi]. *)
Definition wrap_phase (p : R) : R := floor_mod (p + PI) (2 * PI) - PI.


(** Lines 371-373: the phase channel handed to the inverse transform. *)
Definition recover_phase (instantaneous_frequency : bool) (phase : tensor R)
  : option (tensor R) :=
  if instantaneous_frequency
  then if (2 <=? rank phase)%nat
       then let? summed := cumsum (rank phase - 2) phase in
            Some (tmap wrap_phase summed)
       else None
  else Some phase.

Definition spectogram_2_waveform (spectogram : tensor R)
    (frame_length frame_step : Z) (log_magnitude instantaneous_frequency : bool)
    (n_mel_bins : option Z) (mel_lower_hertz_edge mel_upper_hertz_edge : R)
  : option (tensor R) :=
  let spectogram := add_batch_axis 3 spectogram in
  let? magnitude := index_axis 3 0 spectogram in
  let? phase := index_axis 3 1 spectogram in
  let? magnitude := linear_or_id n_mel_bins frame_length
                      mel_lower_hertz_edge mel_upper_hertz_edge magnitude in
  let? phase := linear_or_id n_mel_bins frame_length
                  mel_lower_hertz_edge mel_upper_hertz_edge phase in
  let magnitude := if log_magnitude
                   then tmap (fun m => exp m - _EPSILON) magnitude
                   else magnitude in
  let? phase := recover_phase instantaneous_frequency phase in
  let? magnitude := pad_end_axis 2 (Sc 0) magnitude in
  let? phase := pad_end_axis 2 (Sc 0) phase in
  let? real := tmul magnitude (tmap cos phase) in
  let? img := tmul magnitude (tmap sin phase) in
  let stft := tzip (fun re im => (re, im)) real img in
  signal_inverse_stft stft frame_length frame_step.

(** A computation that may read and advance [np.random]. *)
Definition Py (X : Type) : Type := np_random_state -> X * np_random_state.


(** [np.array(list(map(to_waveform, magnitude)))]: the examples one after
    the other, each call of [griffinlim] continuing from the generator
    state the previous one left. *)
Fixpoint griffinlim_each (n_iter frame_length frame_step : Z)
    (examples : list (tensor R)) : Py (option (list (tensor R))) :=
  fun g =>
    match examples with
    | [] => (Some [], g)
    | m :: rest =>
        let (w, g1) := griffinlim m n_iter frame_step frame_length g in
        let (ws, g2) := griffinlim_each n_iter frame_length frame_step rest g1 in
        (match w, ws with
         | Some w', Some ws' => Some (w' :: ws')
         | _, _ => None
         end, g2)
    end.

(** [np.transpose] of a matrix. *)
Definition transpose (m : tensor R) : tensor R :=
  let width := match shape m with [_; w] => w | _ => O end in
  Dim (map (fun j => Dim (map Sc (column m j))) (seq 0 width)).

Definition magnitude_2_waveform (magnitude : tensor R) (n_iter : Z)
    (frame_length frame_step : Z) (log_magnitude : bool)
    (n_mel_bins : option Z) (mel_lower_hertz_edge mel_upper_hertz_edge : R)
  : Py (option (tensor R)) :=
  fun g =>
    let magnitude := add_batch_axis 2 magnitude in
    let magnitude := if log_magnitude
                     then tmap (fun m => exp m - _EPSILON) magnitude
                     else magnitude in
    match linear_or_id n_mel_bins frame_length
            mel_lower_hertz_edge mel_upper_hertz_edge magnitude with
    | None => (None, g)
    | Some magnitude =>
        match pad_end_axis 2 (Sc 0) magnitude with
        | None => (None, g)
        | Some magnitude =>
            let (ws, g') := griffinlim_each n_iter frame_length frame_step
                              (map transpose (rows magnitude)) g in
            (option_map Dim ws, g')
        end
    end.


(** *** Reading a spectrum *)

(** A spectrum of shape [(batch, frames, bins)] with the last bin of every
    frame, the Nyquist frequency, set to zero. *)
Definition zero_nyquist (stft : tensor C) : tensor C :=
  map_depth 2 (fun frame => pad_end (Sc (0, 0)) (drop_last frame)) stft.

(** The phase is an argument of the number: with the modulus it gives the
    real and the imaginary part back. *)
Definition polar (z : C) : Prop :=
  cabs z * cos (angle z) = fst z /\ cabs z * sin (angle z) = snd z.

(** A phase moved by [k] whole turns. *)
Definition turned (p : R) (k : Z) : R := p + 2 * PI * IZR k.

(** The phases of the bins kept, before unwrapping. *)
Definition kept_phase (stft : tensor C) : tensor R :=
  map_depth 2 drop_last (tmap angle stft).

(** The moduli of the bins kept. *)
Definition kept_magnitude (stft : tensor C) : tensor R :=
  map_depth 2 drop_last (tmap cabs stft).

(** The frames of one example as [first_and_diffs] leaves them: the first
    frame, then the difference of every frame with the one before. *)
Definition diffs_of (e : tensor R) : tensor R :=
  match rows e with
  | [] => e
  | f0 :: rest => Dim (f0 :: frame_diffs f0 rest)
  end.

End WithLib.
End Spectral.

(* ================================================================== *)
(** ** models/WGAN.py *)

Module WGAN.
Local Open Scope R_scope.

Inductive exn : Type :=
| AssertionError
| AttributeError (name : string)
| IndexError
| InvalidArgumentError
| ZeroDivisionError
| UnboundLocalError (name : string).

(** How a call ends: with a value, with an exception, or never. *)
Inductive result (X : Type) : Type :=
| Ok (x : X)
| Raise (e : exn)
| Diverge.

Arguments Ok {X} x.
Arguments Raise {X} e.
Arguments Diverge {X}.

(** What the engine takes from TensorFlow: the two networks as functions of
    their variables, the gradient tapes, the optimizers and the random
    generators. *)
Class Framework := {
  gen_vars : Type;
  disc_vars : Type;
  gen_opt : Type;
  disc_opt : Type;
  gen_grads : Type;
  disc_grads : Type;
  seed : Type;
  (** [generator(Z, training=flag)] under the given variables. *)
  generator : gen_vars -> tensor R -> bool -> tensor R;
  (** [discriminator(X, training=True)] under the given variables. *)
  discriminator : disc_vars -> tensor R -> tensor R;
  (** [t.gradient(f(x), [x])[0]] for a watched input [x]. *)
  input_gradient : (tensor R -> tensor R) -> tensor R -> tensor R;
  (** [tape.gradient(loss, variables)]: the loss as recorded on the tape is
      a function of the variables. *)
  gen_tape_gradient : (gen_vars -> result R) -> gen_vars -> gen_grads;
  disc_tape_gradient : (disc_vars -> result R) -> disc_vars -> disc_grads;
  (** [optimizer.apply_gradients(zip(grads, variables))]. *)
  gen_apply_gradients : gen_opt -> gen_grads -> gen_vars -> gen_opt * gen_vars;
  disc_apply_gradients : disc_opt -> disc_grads -> disc_vars -> disc_opt * disc_vars;
  (** [tf.random.uniform(shape, minval, maxval)]. *)
  random_uniform : seed -> list nat -> R -> R -> tensor R * seed;
  (** The index the shuffle buffer draws among [n] buffered elements. *)
  shuffle_pick : seed -> nat -> nat * seed
}.

(** The base class [models/AbstractModel.py] is not among the sources; what
    it can contribute to a run is a parameter.  [WGAN.__init__] never assigns
    [self.checkpoint_dir], so the lookup in [train] is answered by the base
    class: [None] when it defines no such attribute (an AttributeError),
    [Some v] when it defines it with value [v]. *)
Class AbstractModel := {
  class_checkpoint_dir : option (option string)
}.

Section Engine.
Context {F : Framework} {B : AbstractModel}.

(** Calls on the collaborators, in the order they happen. *)
Inductive event : Type :=
| GeneratorUpdate
| DiscriminatorUpdate
| SaveExamples (epoch : Z) (X_real generations : tensor R)
| CheckpointSave (file_prefix : string)
    (generator_optimizer : gen_opt) (discriminator_optimizer : disc_opt)
    (generator_variables : gen_vars) (discriminator_variables : disc_vars).

(** Everything a training run mutates. *)
Record world : Type := {
  gen_variables : gen_vars;
  disc_variables : disc_vars;
  generator_optimizer : gen_opt;
  discriminator_optimizer : disc_opt;
  tf_seed : seed;
  data_seed : seed;
  history : list event   (* newest first *)
}.

Definition M (X : Type) : Type := world -> result X * world.

Definition ret {X : Type} (x : X) : M X := fun w => (Ok x, w).

Definition raise {X : Type} (e : exn) : M X := fun w => (Raise e, w).

Definition bind {X Y : Type} (c : M X) (k : X -> M Y) : M Y :=
  fun w =>
    match c w with
    | (Ok x, w') => k x w'
    | (Raise e, w') => (Raise e, w')
    | (Diverge, w') => (Diverge, w')
    end.

Definition lift {X : Type} (r : result X) : M X := fun w => (r, w).

Definition emit (e : event) : M unit :=
  fun w => (Ok tt, {| gen_variables := gen_variables w;
                      disc_variables := disc_variables w;
                      generator_optimizer := generator_optimizer w;
                      discriminator_optimizer := discriminator_optimizer w;
                      tf_seed := tf_seed w;
                      data_seed := data_seed w;
                      history := e :: history w |}).

Definition get_world : M world := fun w => (Ok w, w).

(** The strategy [f(model, d_real, d_fake, interpolated)]; of the model it
    is handed the discriminator input shape and the discriminator. *)
Definition loss_fn : Type :=
  list Z -> (tensor R -> tensor R) -> tensor R -> tensor R -> tensor R ->
  result (R * R).

(** The attributes [__init__] sets.  [checkpoint_prefix] and [checkpoint]
    exist only when a checkpoint directory was given. *)
Record WGAN : Type := {
  raw_dataset : list (tensor R);
  data_shape : list Z;
  d_in_data_shape : list Z;
  z_dim : Z;
  generator_training_ratio : Z;
  batch_size : Z;
  buffer_size : Z;
  epochs : Z;
  epochs_per_save : Z;
  fn_compute_loss : loss_fn;
  fn_save_examples : option string;
  checkpoint_prefix : option string;
  checkpoint : bool
}.
End Engine.

Declare Scope py_scope.
Delimit Scope py_scope with py.
Notation "x <- c ;; k" := (bind c (fun x => k))
  (at level 61, c at next level, right associativity) : py_scope.
Notation "c ;;; k" := (bind c (fun _ => k))
  (at level 61, right associativity) : py_scope.

Section Engine.
Context {F : Framework} {B : AbstractModel}.
Local Open Scope py_scope.

Definition of_option {X : Type} (e : exn) (o : option X) : result X :=
  match o with
  | Some x => Ok x
  | None => Raise e
  end.

(** Python's [a % b] on integers. *)
Definition py_mod (a b : Z) : result Z :=
  if (b =? 0)%Z then Raise ZeroDivisionError else Ok (a mod b)%Z.

(** [t.shape[0]]. *)
Definition first_dim (t : tensor R) : result nat :=
  match t with
  | Dim l => Ok (length l)
  | Sc _ => Raise IndexError
  end.

(** [tf.reshape(t, shape)], where one extent may be [-1]. *)
Definition reshape (t : tensor R) (s : list Z) : result (tensor R) :=
  let data := tflatten t in
  let n := Z.of_nat (length data) in
  let known := fold_right Z.mul 1%Z (filter (fun d => negb (d =? -1)%Z) s) in
  if existsb (fun d => d <? -1)%Z s then Raise InvalidArgumentError
  else
    match count_occ Z.eq_dec s (-1)%Z with
    | O => if (known =? n)%Z
           then Ok (build 0 (map Z.to_nat s) data)
           else Raise InvalidArgumentError
    | S O => if ((0 <? known) && (n mod known =? 0))%Z
             then Ok (build 0 (map (fun d => if (d =? -1)%Z
                                             then Z.to_nat (n / known)
                                             else Z.to_nat d) s) data)
             else Raise InvalidArgumentError
    | _ => Raise InvalidArgumentError
    end.

(** The default strategy. *)
Definition _compute_losses : loss_fn :=
  fun d_in_data_shape discriminator d_real d_fake interpolated =>
    let wasserstein_distance := reduce_mean d_real - reduce_mean d_fake in
    let grad := input_gradient discriminator interpolated in
    let sum_axes := seq 1 (length d_in_data_shape - 1) in
    match reduce_sum (tmap (fun g => g * g) grad) sum_axes with
    | None => Raise InvalidArgumentError
    | Some sums =>
        let slopes := tmap sqrt sums in
        let gp := reduce_mean (tmap (fun s => (s - 1) ^ 2) slopes) in
        let G_loss := reduce_mean d_fake in
        let D_loss := wasserstein_distance + 10 * gp in
        Ok (G_loss, D_loss)
    end.

(** [os.path.join(checkpoint_dir, "ckpt")]. *)
Definition ends_with_slash (s : string) : bool :=
  match get (String.length s - 1) s with
  | Some c => Ascii.eqb c "/"%char
  | None => false
  end.

Definition path_join_ckpt (checkpoint_dir : string) : string :=
  if ends_with_slash checkpoint_dir
  then (checkpoint_dir ++ "ckpt")%string
  else (checkpoint_dir ++ "/ckpt")%string.

(** The constructor; [tf.data]'s [batch] rejects a batch size below one. *)
Definition __init__ (raw_dataset : list (tensor R))
    (data_shape d_in_data_shape : list Z) (z_dim : Z)
    (generator_training_ratio batch_size epochs : Z)
    (checkpoint_dir : option string) (epochs_per_save : Z)
    (fn_compute_loss : loss_fn) (fn_save_examples : option string)
  : result WGAN :=
  if (batch_size <? 1)%Z then Raise InvalidArgumentError
  else Ok {| raw_dataset := raw_dataset;
             data_shape := data_shape;
             d_in_data_shape := d_in_data_shape;
             z_dim := z_dim;
             generator_training_ratio := generator_training_ratio;
             batch_size := batch_size;
             buffer_size := 1000;
             epochs := epochs;
             epochs_per_save := epochs_per_save;
             fn_compute_loss := fn_compute_loss;
             fn_save_examples := fn_save_examples;
             checkpoint_prefix :=
               if truthy_str checkpoint_dir
               then option_map path_join_ckpt checkpoint_dir
               else None;
             checkpoint := truthy_str checkpoint_dir |}.

(** *** The derived dataset view *)

Definition remove_nth {X : Type} (i : nat) (l : list X) : list X :=
  firstn i l ++ skipn (S i) l.

(** [Dataset.shuffle(buffer_size)]: a buffer is filled from the input; each
    step hands out one buffered element chosen at random and refills the
    buffer from the input. *)
Fixpoint shuffle_drain {X : Type} (n : nat) (buffer rest : list X) (g : seed)
  : list X * seed :=
  match n with
  | O => ([], g)
  | S n' =>
      match buffer with
      | [] => ([], g)
      | b0 :: _ =>
          let (i, g1) := shuffle_pick g (length buffer) in
          let j := (i mod length buffer)%nat in
          let x := nth j buffer b0 in
          let buffer' := remove_nth j buffer in
          let (out, g2) :=
            match rest with
            | [] => shuffle_drain n' buffer' [] g1
            | y :: rest' => shuffle_drain n' (buffer' ++ [y]) rest' g1
            end in
          (x :: out, g2)
      end
  end.

Definition shuffle {X : Type} (buffer_size : nat) (l : list X) (g : seed)
  : list X * seed :=
  shuffle_drain (length l) (firstn buffer_size l) (skipn buffer_size l) g.

(** [.repeat(count)] after a shuffle: every pass is shuffled anew. *)
Fixpoint repeat_shuffled {X : Type} (count buffer_size : nat) (l : list X)
    (g : seed) : list X * seed :=
  match count with
  | O => ([], g)
  | S c =>
      let (pass, g1) := shuffle buffer_size l g in
      let (more, g2) := repeat_shuffled c buffer_size l g1 in
      (pass ++ more, g2)
  end.

(** [.batch(batch_size)]: consecutive groups, the last one possibly
    smaller. *)
Fixpoint batch_go {X : Type} (fuel size : nat) (l : list X) : list (list X) :=
  match fuel with
  | O => []
  | S fuel' =>
      match l with
      | [] => []
      | _ :: _ => firstn size l :: batch_go fuel' size (skipn size l)
      end
  end.

Definition batch {X : Type} (size : nat) (l : list X) : list (list X) :=
  batch_go (length l) size l.

(** One iteration over [self.dataset].  A negative repeat count repeats
    without end. *)
Definition iterate_dataset (self : WGAN) : M (list (tensor R)) :=
  fun w =>
    if (generator_training_ratio self <? 0)%Z then
      match raw_dataset self with
      | [] => (Ok [], w)
      | _ :: _ => (Diverge, w)
      end
    else
      let (elements, g) :=
        repeat_shuffled (Z.to_nat (generator_training_ratio self))
          (Z.to_nat (buffer_size self)) (raw_dataset self) (data_seed w) in
      (Ok (map Dim (batch (Z.to_nat (batch_size self)) elements)),
       {| gen_variables := gen_variables w;
          disc_variables := disc_variables w;
          generator_optimizer := generator_optimizer w;
          discriminator_optimizer := discriminator_optimizer w;
          tf_seed := tf_seed w;
          data_seed := g;
          history := history w |}).

(** *** One training step *)

Definition uniform (shape : list nat) (minval maxval : R) : M (tensor R) :=
  fun w =>
    let (t, g) := random_uniform (tf_seed w) shape minval maxval in
    (Ok t, {| gen_variables := gen_variables w;
              disc_variables := disc_variables w;
              generator_optimizer := generator_optimizer w;
              discriminator_optimizer := discriminator_optimizer w;
              tf_seed := g;
              data_seed := data_seed w;
              history := history w |}).

(** [assert t.shape[-1] == 1]. *)
Definition assert_last_dim_1 (t : tensor R) : result unit :=
  match last_dim t with
  | None => Raise IndexError
  | Some 1%nat => Ok tt
  | Some _ => Raise AssertionError
  end.

(** [np.ones(len(d_in_data_shape))] with [alpha_shape[0] = X.shape[0]]. *)
Definition alpha_shape (self : WGAN) (rows_of_X : nat) : list nat :=
  match d_in_data_shape self with
  | [] => []
  | _ :: s => rows_of_X :: map (fun _ => 1%nat) s
  end.

(** [X + (alpha * (X_gen - X))]. *)
Definition interpolate (X X_gen alpha : tensor R) : result (tensor R) :=
  match tsub X_gen X with
  | None => Raise InvalidArgumentError
  | Some diff =>
      match tmul alpha diff with
      | None => Raise InvalidArgumentError
      | Some scaled => of_option InvalidArgumentError (tadd X scaled)
      end
  end.

Definition rbind {X Y : Type} (r : result X) (k : X -> result Y) : result Y :=
  match r with
  | Ok x => k x
  | Raise e => Raise e
  | Diverge => Diverge
  end.

(** The computation recorded by the two tapes, as a function of the
    variables of both networks: [X], [Z] and [alpha] are fixed by the
    step. *)
Definition taped_losses (self : WGAN) (X Z alpha : tensor R)
    (gv : gen_vars) (dv : disc_vars) : result (R * R) :=
  rbind (reshape (generator gv Z true) (d_in_data_shape self)) (fun X_gen =>
  let d_real := discriminator dv X in
  let d_fake := discriminator dv X_gen in
  rbind (assert_last_dim_1 d_real) (fun _ =>
  rbind (assert_last_dim_1 d_fake) (fun _ =>
  rbind (interpolate X X_gen alpha) (fun interp =>
  fn_compute_loss self (d_in_data_shape self) (discriminator dv)
    d_real d_fake interp)))).

Definition result_map {X Y : Type} (f : X -> Y) (r : result X) : result Y :=
  rbind r (fun x => Ok (f x)).

Definition apply_generator (g : gen_grads) : M unit :=
  fun w =>
    let (o, v) := gen_apply_gradients (generator_optimizer w) g (gen_variables w) in
    (Ok tt, {| gen_variables := v;
               disc_variables := disc_variables w;
               generator_optimizer := o;
               discriminator_optimizer := discriminator_optimizer w;
               tf_seed := tf_seed w;
               data_seed := data_seed w;
               history := GeneratorUpdate :: history w |}).

Definition apply_discriminator (g : disc_grads) : M unit :=
  fun w =>
    let (o, v) := disc_apply_gradients (discriminator_optimizer w) g (disc_variables w) in
    (Ok tt, {| gen_variables := gen_variables w;
               disc_variables := v;
               generator_optimizer := generator_optimizer w;
               discriminator_optimizer := o;
               tf_seed := tf_seed w;
               data_seed := data_seed w;
               history := DiscriminatorUpdate :: history w |}).

Definition _train_step (self : WGAN) (X : tensor R)
    (train_generator train_discriminator : bool) : M (R * R) :=
  X <- lift (reshape X (d_in_data_shape self)) ;;
  n <- lift (first_dim X) ;;
  Z <- uniform [n; Z.to_nat (z_dim self)] (-1) 1 ;;
  w <- get_world ;;
  let gv := gen_variables w in
  let dv := disc_variables w in
  X_gen <- lift (reshape (generator gv Z true) (d_in_data_shape self)) ;;
  let d_real := discriminator dv X in
  let d_fake := discriminator dv X_gen in
  lift (assert_last_dim_1 d_real) ;;;
  lift (assert_last_dim_1 d_fake) ;;;
  alpha <- uniform (alpha_shape self n) 0 1 ;;
  interp <- lift (interpolate X X_gen alpha) ;;
  losses <- lift (fn_compute_loss self (d_in_data_shape self) (discriminator dv)
                    d_real d_fake interp) ;;
  let gradients_of_generator :=
    gen_tape_gradient
      (fun gv' => result_map fst (taped_losses self X Z alpha gv' dv)) gv in
  let gradients_of_discriminator :=
    disc_tape_gradient
      (fun dv' => result_map snd (taped_losses self X Z alpha gv dv')) dv in
  (if train_generator then apply_generator gradients_of_generator else ret tt) ;;;
  (if train_discriminator then apply_discriminator gradients_of_discriminator
   else ret tt) ;;;
  ret losses.

(** *** The outer loop *)

Definition _generate_and_save_examples (self : WGAN) (epoch : Z)
    (X_real : tensor R) : M unit :=
  match fn_save_examples self with
  | None => ret tt
  | Some _ =>
      n <- lift (first_dim X_real) ;;
      z <- uniform [n; Z.to_nat (z_dim self)] (-1) 1 ;;
      w <- get_world ;;
      let generations := generator (gen_variables w) z false in
      emit (SaveExamples epoch X_real generations)
  end.

(** The body of [for X in self.dataset], from step number [i] on. *)
Fixpoint train_batches (self : WGAN) (i : Z) (batches : list (tensor R))
  : M unit :=
  match batches with
  | [] => ret tt
  | X :: rest =>
      _train_step self X false true ;;;
      r <- lift (py_mod i (generator_training_ratio self)) ;;
      (if (r =? 0)%Z then _train_step self X true false ;;; ret tt else ret tt) ;;;
      train_batches self (i + 1) rest
  end.

(** [self.checkpoint_dir]. *)
Definition getattr_checkpoint_dir : M (option string) :=
  lift (of_option (AttributeError "checkpoint_dir") class_checkpoint_dir).

(** [self.checkpoint.save(file_prefix=self.checkpoint_prefix)]. *)
Definition checkpoint_save (self : WGAN) : M unit :=
  if checkpoint self then
    prefix <- lift (of_option (AttributeError "checkpoint_prefix")
                      (checkpoint_prefix self)) ;;
    w <- get_world ;;
    emit (CheckpointSave prefix (generator_optimizer w) (discriminator_optimizer w)
            (gen_variables w) (disc_variables w))
  else raise (AttributeError "checkpoint").

(** Lines 175-176: [if self.checkpoint_dir and (epoch + 1) %
    self.epochs_per_save == 0: self.checkpoint.save(...)]. *)
Definition maybe_checkpoint (self : WGAN) (epoch : Z) : M unit :=
  checkpoint_dir <- getattr_checkpoint_dir ;;
  if truthy_str checkpoint_dir then
    r <- lift (py_mod (epoch + 1) (epochs_per_save self)) ;;
    if (r =? 0)%Z then checkpoint_save self else ret tt
  else ret tt.

(** Line 179: the export with the last batch the loop bound to [X]. *)
Definition export_last (self : WGAN) (epoch : Z) (batches : list (tensor R))
  : M unit :=
  match batches with
  | [] => raise (UnboundLocalError "X")
  | X0 :: rest => _generate_and_save_examples self (epoch + 1) (last rest X0)
  end.

(** One pass of the body of [for epoch in range(self.epochs)]. *)
Definition train_epoch (self : WGAN) (epoch : Z) : M unit :=
  batches <- iterate_dataset self ;;
  train_batches self 1 batches ;;;
  maybe_checkpoint self epoch ;;;
  export_last self epoch batches.

Fixpoint for_epochs (self : WGAN) (first : Z) (count : nat) : M unit :=
  match count with
  | O => ret tt
  | S c => train_epoch self first ;;; for_epochs self (first + 1) c
  end.

Definition train (self : WGAN) : M unit :=
  _generate_and_save_examples self 0
    (Dim (firstn (Z.to_nat (batch_size self)) (raw_dataset self))) ;;;
  for_epochs self 0 (Z.to_nat (epochs self)).

(** *** The gradient penalty, as the specification words it *)

(** The L2 norm of one example: the square root of the sum of the squares of
    all its entries, whatever its axes. *)
Definition l2_norm (g : tensor R) : R :=
  sqrt (Rsum (map (fun v => v * v) (tflatten g))).

(** The mean over the examples of [(norm - 1)^2]. *)
Definition gradient_penalty (grad : tensor R) : R :=
  Rsum (map (fun g => (l2_norm g - 1) ^ 2) (rows grad))
  / INR (length (rows grad)).

(** *** The interpolation, as the specification words it *)

(** Example [i] of the batch is [x + a_i * (g - x)] entry by entry, with the
    one coefficient [a_i] drawn for that example. *)
Definition interpolate_per_example (coefficients : list R)
    (X X_gen : tensor R) : tensor R :=
  Dim (zipWith (fun a xg => tzip (fun x g => x + a * (g - x)) (fst xg) (snd xg))
         coefficients (combine (rows X) (rows X_gen))).

(** *** Reading a run *)

Definition is_generator_update (e : event) : bool :=
  match e with GeneratorUpdate => true | _ => false end.

Definition is_discriminator_update (e : event) : bool :=
  match e with DiscriminatorUpdate => true | _ => false end.

Definition is_update (e : event) : bool :=
  is_generator_update e || is_discriminator_update e.

Definition is_checkpoint_save (e : event) : bool :=
  match e with CheckpointSave _ _ _ _ _ => true | _ => false end.

Definition export_epoch (e : event) : option Z :=
  match e with SaveExamples epoch _ _ => Some epoch | _ => None end.

Definition count (p : event -> bool) (l : list event) : nat :=
  length (filter p l).

Definition generator_updates (l : list event) : nat := count is_generator_update l.
Definition discriminator_updates (l : list event) : nat := count is_discriminator_update l.
Definition checkpoint_saves (l : list event) : nat := count is_checkpoint_save l.

Fixpoint export_epochs (l : list event) : list Z :=
  match l with
  | [] => []
  | e :: l' =>
      match export_epoch e with
      | Some k => k :: export_epochs l'
      | None => export_epochs l'
      end
  end.

(** The events a computation adds to the history of [w], oldest first. *)
Definition new_events {X : Type} (c : M X) (w : world) : list event :=
  rev (firstn (length (history (snd (c w))) - length (history w))
         (history (snd (c w)))).


(** A batch the dataset view can hand to [_train_step]: a non-empty group
    of examples of the raw dataset. *)
Definition batch_of (self : WGAN) (X : tensor R) : Prop :=
  exists l, X = Dim l /\ l <> [] /\ incl l (raw_dataset self).

(** No training step on a batch of the dataset aborts. *)
Definition steps_succeed (self : WGAN) : Prop :=
  forall (X : tensor R) (tg td : bool) (w : world),
    batch_of self X -> exists v, fst (_train_step self X tg td w) = Ok v.

(** The updates of [n] consecutive steps from step number [i] on, oldest
    first: the discriminator at every step, the generator after it at every
    step whose number the ratio divides. *)
Fixpoint schedule (ratio i : Z) (n : nat) : list event :=
  match n with
  | O => []
  | S n' =>
      DiscriminatorUpdate ::
      (if (i mod ratio =? 0)%Z then [GeneratorUpdate] else []) ++
      schedule ratio (i + 1) n'
  end.

(** The counts a run needs to be a run at all: a positive ratio, batch
    size and shuffle buffer. *)
Definition well_configured (self : WGAN) : Prop :=
  (0 < generator_training_ratio self)%Z /\
  (0 < batch_size self)%Z /\
  (0 < buffer_size self)%Z.

(** The epoch tag an export call passes to the callback, if there is one. *)
Definition callback_epochs (self : WGAN) (epoch : Z) : list Z :=
  match fn_save_examples self with
  | Some _ => [epoch]
  | None => []
  end.


(** Nothing but the random generator of TensorFlow has moved: the
    variables of both networks, both optimizer states and the history are
    what they were. *)
Definition only_tf_seed_moved (w w' : world) : Prop :=
  gen_variables w' = gen_variables w /\
  disc_variables w' = disc_variables w /\
  generator_optimizer w' = generator_optimizer w /\
  discriminator_optimizer w' = discriminator_optimizer w /\
  data_seed w' = data_seed w /\
  history w' = history w.

(** The updates one step applies, newest first. *)
Definition step_events (train_generator train_discriminator : bool)
  : list event :=
  (if train_discriminator then [DiscriminatorUpdate] else []) ++
  (if train_generator then [GeneratorUpdate] else []).

(** The number of batches of one pass over the dataset view. *)
Definition batches_per_epoch (self : WGAN) : nat :=
  let elements := (Z.to_nat (generator_training_ratio self)
                   * length (raw_dataset self))%nat in
  let size := Z.to_nat (batch_size self) in
  ((elements + size - 1) / size)%nat.

End Engine.

(** *** Reading a whole run *)

(** A call on a collaborator, without the tensors and states it carries. *)
Inductive call : Type :=
| UpdateGenerator
| UpdateDiscriminator
| Export (epoch : Z)
| Save (file_prefix : string).

Section Runs.
Context {F : Framework} {B : AbstractModel}.

Definition call_of (e : event) : call :=
  match e with
  | GeneratorUpdate => UpdateGenerator
  | DiscriminatorUpdate => UpdateDiscriminator
  | SaveExamples epoch _ _ => Export epoch
  | CheckpointSave prefix _ _ _ _ => Save prefix
  end.

(** The export call tagged [epoch], when a callback is set. *)
Definition export_calls (self : WGAN) (epoch : Z) : list call :=
  match fn_save_examples self with
  | Some _ => [Export epoch]
  | None => []
  end.

(** The save after epoch number [epoch], when the attribute [v] found for
    [self.checkpoint_dir] is true and the epoch count is due. *)
Definition save_calls (self : WGAN) (v : option string) (epoch : Z)
  : list call :=
  if truthy_str v && ((epoch + 1) mod epochs_per_save self =? 0)%Z
  then match checkpoint_prefix self with
       | Some prefix => [Save prefix]
       | None => []
       end
  else [].

(** The calls of one epoch: the updates of the loop over the batches, the
    save, the export. *)
Definition epoch_calls (self : WGAN) (v : option string) (epoch : Z)
  : list call :=
  map call_of (schedule (generator_training_ratio self) 1
                 (batches_per_epoch self))
  ++ save_calls self v epoch ++ export_calls self (epoch + 1).

(** The calls of a whole run, oldest first. *)
Definition run_calls (self : WGAN) (v : option string) : list call :=
  export_calls self 0
  ++ flat_map (fun i => epoch_calls self v (Z.of_nat i))
       (seq 0 (Z.to_nat (epochs self))).

(** What a model needs for a save that falls due to go through. *)
Definition can_save (self : WGAN) (v : option string) : Prop :=
  truthy_str v = true ->
  checkpoint self = true /\ checkpoint_prefix self <> None /\
  epochs_per_save self <> 0%Z.

Definition is_save (c : call) : bool :=
  match c with Save _ => true | _ => false end.

Definition is_update_generator (c : call) : bool :=
  match c with UpdateGenerator => true | _ => false end.

Definition is_update_discriminator (c : call) : bool :=
  match c with UpdateDiscriminator => true | _ => false end.

(** The epoch tags of the export calls, oldest first. *)
Definition exported (l : list call) : list Z :=
  flat_map (fun c => match c with Export epoch => [epoch] | _ => [] end) l.


(** The networks a step is not asked to train are as they were. *)
Definition generator_untouched (w w' : world) : Prop :=
  gen_variables w' = gen_variables w /\
  generator_optimizer w' = generator_optimizer w.

Definition discriminator_untouched (w w' : world) : Prop :=
  disc_variables w' = disc_variables w /\
  discriminator_optimizer w' = discriminator_optimizer w.

End Runs.
End WGAN.

(* ================================================================== *)
(** ** third_party/NSynthDataset.py *)

Module NSynthDataset.
Local Open Scope Z_scope.

(** *** BaseDataset *)

(** [collections.Counter(l)]: the elements of [l] in the order of their
    first occurrence, each with the number of its occurrences. *)
Fixpoint counter_add (k : Z) (c : list (Z * nat)) : list (Z * nat) :=
  match c with
  | [] => [(k, 1%nat)]
  | (k', n) :: c' =>
      if k' =? k then (k', S n) :: c' else (k', n) :: counter_add k c'
  end.

Definition Counter (l : list Z) : list (Z * nat) :=
  fold_left (fun c k => counter_add k c) l [].

(** [sum(c.values())]. *)
Definition total (c : list (Z * nat)) : nat :=
  fold_right (fun kc s => (snd kc + s)%nat) 0%nat c.

Section Random.
(** The generator of [np.random]: its state, and the index it draws among
    [n] candidates. *)
Context {random_state : Type}.
Variable randint : random_state -> nat -> nat * random_state.

Fixpoint draws (n : nat) (a : list Z) (a0 : Z) (g : random_state)
  : list Z * random_state :=
  match n with
  | O => ([], g)
  | S n' =>
      let (i, g1) := randint g (List.length a) in
      let (rest, g2) := draws n' a a0 g1 in
      (nth (i mod List.length a) a a0 :: rest, g2)
  end.

(** [np.random.choice(a, size)]: [size] elements of [a], drawn with
    replacement.  A negative size is an error, and so is an empty [a] unless
    no sample is taken. *)
Definition np_random_choice (a : list Z) (size : Z) (g : random_state)
  : option (list Z * random_state) :=
  if size <? 0 then None
  else
    match a with
    | [] => if size =? 0 then Some ([], g) else None
    | a0 :: _ => Some (draws (Z.to_nat size) a a0 g)
    end.

(** [get_pitches], over the table [self.get_pitch_counts()] of the
    subclass. *)
Definition get_pitches (pitch_counts : list (Z * Z)) (num_samples : Z)
    (g : random_state) : option (list (Z * nat) * random_state) :=
  let all_pitches :=
    flat_map (fun kv => repeat (fst kv) (Z.to_nat (snd kv))) pitch_counts in
  match np_random_choice all_pitches num_samples g with
  | None => None
  | Some (sample_pitches, g') => Some (Counter sample_pitches, g')
  end.
End Random.

(** *** NSynthTFRecordDataset *)

(** One feature of a serialized [tf.train.Example]. *)
Inductive feature : Type :=
| Int64List (value : list Z)
| FloatList (value : list R)
| BytesList (value : list string).

(** A record of the file: the features of one example by name. *)
Definition record : Type := list (string * feature).

Fixpoint get_feature (name : string) (r : record) : option feature :=
  match r with
  | [] => None
  | (k, f) :: r' => if String.eqb k name then Some f else get_feature name r'
  end.

(** [tf.io.FixedLenFeature([n], dtype=tf.int64)], without a default: the
    feature has to be there, with this type and [n] values. *)
Definition fixed_len_int64 (n : Z) (name : string) (r : record)
  : option (list Z) :=
  match get_feature name r with
  | Some (Int64List v) => if Z.of_nat (List.length v) =? n then Some v else None
  | _ => None
  end.

Definition fixed_len_float32 (n : Z) (name : string) (r : record)
  : option (list R) :=
  match get_feature name r with
  | Some (FloatList v) => if Z.of_nat (List.length v) =? n then Some v else None
  | _ => None
  end.

Definition get_pitch_counts : list (Z * Z) :=
  [(24, 711); (25, 720); (26, 715); (27, 725); (28, 726); (29, 723);
   (30, 738); (31, 829); (32, 839); (33, 840); (34, 860); (35, 870);
   (36, 999); (37, 1007); (38, 1063); (39, 1070); (40, 1084); (41, 1121);
   (42, 1134); (43, 1129); (44, 1155); (45, 1149); (46, 1169); (47, 1154);
   (48, 1432); (49, 1406); (50, 1454); (51, 1432); (52, 1593); (53, 1613);
   (54, 1578); (55, 1784); (56, 1738); (57, 1756); (58, 1718); (59, 1738);
   (60, 1789); (61, 1746); (62, 1765); (63, 1748); (64, 1764); (65, 1744);
   (66, 1677); (67, 1746); (68, 1682); (69, 1705); (70, 1694); (71, 1667);
   (72, 1695); (73, 1580); (74, 1608); (75, 1546); (76, 1576); (77, 1485);
   (78, 1408); (79, 1438); (80, 1333); (81, 1369); (82, 1331); (83, 1295);
   (84, 1291)].

(** [sorted(keys)]. *)
Fixpoint insert_sorted (k : Z) (l : list Z) : list Z :=
  match l with
  | [] => [k]
  | x :: l' => if k <=? x then k :: l else x :: insert_sorted k l'
  end.

Definition sorted (l : list Z) : list Z := fold_right insert_sorted [] l.

Definition pitches : list Z := sorted (map fst get_pitch_counts).

(** [label_index_table.lookup]: the keys are numbered in order; with
    [num_oov_buckets=1] every other key gets the number after the last. *)
Fixpoint index_of (k : Z) (keys : list Z) : nat :=
  match keys with
  | [] => O
  | x :: keys' => if x =? k then O else S (index_of k keys')
  end.

(** One row of [tf.one_hot(indices, depth)]: an index out of range gives
    zeros only. *)
Definition one_hot (index depth : nat) : list R :=
  map (fun j => if (j =? index)%nat then 1%R else 0%R) (seq 0 depth).

(** What [_parse_nsynth] returns. *)
Record example : Type := {
  wave : list R;
  one_hot_label : list R;
  label : list Z;
  instrument_source : list Z;
  instrument_family : list Z
}.

Definition length : Z := 64000.

Definition _parse_nsynth (r : record) : option example :=
  match fixed_len_int64 1 "pitch"%string r,
        fixed_len_float32 length "audio"%string r,
        fixed_len_int64 10 "qualities"%string r,
        fixed_len_int64 1 "instrument_source"%string r,
        fixed_len_int64 1 "instrument_family"%string r with
  | Some pitch, Some audio, Some _, Some source, Some family =>
      Some {| wave := audio;
              one_hot_label :=
                nth 0 (map (fun l => one_hot (index_of l pitches)
                                       (List.length pitches)) pitch) [];
              label := pitch;
              instrument_source := source;
              instrument_family := family |}
  | _, _, _, _, _ => None
  end.

(** [dataset.map(_parse_nsynth)], read to the end: a record that does not
    parse aborts the reading. *)
Fixpoint parse_all (records : list record) : option (list example) :=
  match records with
  | [] => Some []
  | r :: records' =>
      match _parse_nsynth r, parse_all records' with
      | Some e, Some es => Some (e :: es)
      | _, _ => None
      end
  end.

(** [t[0]] of a boolean tensor of one axis. *)
Definition first (t : list bool) : bool := nth 0 t false.

(** The waveforms the dataset yields, in order, from the records of the
    file in order. *)
Definition provide_dataset (records : list record) : option (list (list R)) :=
  match parse_all records with
  | None => None
  | Some dataset =>
      let dataset :=
        filter (fun e => first (map (fun s => s =? 0) (instrument_source e)))
          dataset in
      let dataset :=
        filter (fun e => first (map (fun f => f =? 3) (instrument_family e)))
          dataset in
      let dataset :=
        filter (fun e => first (map (fun p => 24 <=? p) (label e))) dataset in
      let dataset :=
        filter (fun e => first (map (fun p => p <=? 84) (label e))) dataset in
      Some (map (fun e => wave e ++ repeat 0%R (Z.to_nat 1536)) dataset)
  end.

End NSynthDataset.

(* ================================================================== *)
(** ** Train_WaveGAN_RWD.py *)

Module Train_WaveGAN_RWD.
Import WGAN.
Local Open Scope string_scope.

Definition D_updates_per_g : Z := 5.
Definition Z_dim : Z := 32.
Definition BATCH_SIZE : Z := 16.
Definition EPOCHS : Z := 100.
Definition checkpoint_dir : option string := None.

(** Line 39: the array of the waveforms of the dataset. *)
Definition raw_nsynth (records : list NSynthDataset.record)
  : option (list (tensor R)) :=
  option_map (map (fun w => Dim (map Sc w)))
    (NSynthDataset.provide_dataset records).

(** [str(n)] of an integer. *)
Definition str (n : Z) : string :=
  DecimalString.NilZero.string_of_int (Z.to_int n).

(** One call [sf.write(file, data, samplerate)]. *)
Record write : Type := {
  file : string;
  data : list R;
  samplerate : Z
}.

(** The writes of one call of the callback, in order. *)
Definition save_examples (epoch : Z) (real generated : tensor R)
  : list write :=
  let real_waveforms := tflatten real in
  let gen_waveforms := tflatten generated in
  [ {| file := "_results/WaveGANRWD/audio/real_" ++ str epoch ++ ".wav";
       data := real_waveforms; samplerate := 16000 |};
    {| file := "_results/WaveGANRWD/audio/gen_" ++ str epoch ++ ".wav";
       data := gen_waveforms; samplerate := 16000 |} ].

Section Script.
Context {F : Framework} {B : AbstractModel}.

(** Line 79.  No [fn_compute_loss] and no [epochs_per_save] are given: the
    defaults of [models/WGAN.py] apply. *)
Definition WaveGAN (raw_nsynth : list (tensor R)) : result WGAN :=
  __init__ raw_nsynth [-1; 2 ^ 16]%Z [-1; 2 ^ 16; 1]%Z Z_dim
    D_updates_per_g BATCH_SIZE EPOCHS checkpoint_dir 10
    _compute_losses (Some "save_examples").

(** What the callback writes over the calls of a run, oldest first. *)
Definition written (evs : list event) : list write :=
  flat_map (fun e => match e with
                     | SaveExamples epoch X_real generations =>
                         save_examples epoch X_real generations
                     | _ => []
                     end) evs.
End Script.
End Train_WaveGAN_RWD.

(* ================================================================== *)
(** ** setup/preprocess_maestro_dataset.py *)

Module preprocess_maestro_dataset.
Import QArith_base Qround.
Local Open Scope Q_scope.

Definition APPROX_TOTAL_HOURS : Z := 6.
Definition SAMPLE_RATE : Z := 16000.
Definition DATA_POINT_LENGTH : Z := 2 ^ 14.

(** [len(wav)]. *)
Definition len (wav : list R) : Z := Z.of_nat (List.length wav).

(** Line 52. *)
Definition padded_wav_length (wav : list R) : Z :=
  (DATA_POINT_LENGTH
   * Qceiling (inject_Z (len wav) / inject_Z DATA_POINT_LENGTH))%Z.

(** [np.pad(wav, [[0, n]])]: a negative width is an error. *)
Definition np_pad (wav : list R) (n : Z) : option (list R) :=
  if (n <? 0)%Z then None else Some (wav ++ repeat 0%R (Z.to_nat n)).

(** [np.reshape(wav, (-1, n))]: the length has to be a multiple of [n]. *)
Definition np_reshape_rows (wav : list R) (n : Z) : option (list (list R)) :=
  if ((0 <? n) && (len wav mod n =? 0))%Z
  then Some (pieces (Z.to_nat (len wav / n)) (Z.to_nat n) wav)
  else None.

(** Lines 52-55: the chunks of one file. *)
Definition chunks_of (wav : list R) : option (list (list R)) :=
  match np_pad wav (padded_wav_length wav - len wav) with
  | None => None
  | Some wav => np_reshape_rows wav DATA_POINT_LENGTH
  end.

(** Lines 42-56: the loop over the files, from the waveforms
    [librosa.load] reads, in the order of [audio_paths].  The hours loaded,
    a float in the script, are an exact rational here. *)
Fixpoint load (audio : list (list R)) (hours_loaded : Q)
    (data : list (list R)) : option (list (list R)) :=
  match audio with
  | [] => Some data
  | wav :: audio' =>
      let hours_loaded :=
        hours_loaded + inject_Z (len wav) / inject_Z SAMPLE_RATE / 60 / 60 in
      if Qle_bool (inject_Z APPROX_TOTAL_HOURS) hours_loaded then Some data
      else
        match chunks_of wav with
        | None => None
        | Some chunks => load audio' hours_loaded (data ++ chunks)
        end
  end.

Definition main (audio : list (list R)) : option (list (list R)) :=
  load audio 0 [].

End preprocess_maestro_dataset.

(* ================================================================== *)
(** ** structures/spec_gan.py *)

Module spec_gan.
Local Open Scope R_scope.

(** What the two networks take from Keras: the layers that hold weights,
    as functions of the variables of the network.  [name] is the position
    of the layer in the list of the network: every layer has weights of its
    own. *)
Class Keras := {
  variables : Type;
  (** [Dense(units)]. *)
  Dense : variables -> nat -> nat -> tensor R -> tensor R;
  (** [Conv2D(filters, kernel_size, strides, padding)]. *)
  Conv2D : variables -> nat -> nat -> nat * nat -> nat * nat -> string ->
           tensor R -> tensor R;
  (** [Conv2DTranspose(filters, kernel_size, strides, padding)]. *)
  Conv2DTranspose : variables -> nat -> nat -> nat * nat -> nat * nat ->
                    string -> tensor R -> tensor R
}.

(** A layer applied to a tensor: a result, or an error. *)
Definition layer : Type := tensor R -> option (tensor R).

Definition always (f : tensor R -> tensor R) : layer := fun x => Some (f x).

(** [ReLU()]. *)
Definition ReLU : layer := always (tmap (fun x => Rmax x 0)).

(** [LeakyReLU(alpha)]. *)
Definition LeakyReLU (alpha : R) : layer :=
  always (tmap (fun x => if Rlt_dec x 0 then alpha * x else x)).

(** [Reshape(target_shape)]: every example is laid out anew; its number
    of entries has to be that of the target. *)
Definition Reshape (target_shape : list nat) : layer :=
  fun x =>
    match x with
    | Sc _ => None
    | Dim examples =>
        if forallb (fun e => (length (tflatten e) =? prod_dims target_shape)%nat)
             examples
        then Some (Dim (map (fun e => build 0 target_shape (tflatten e))
                          examples))
        else None
    end.

(** [Flatten()]. *)
Definition Flatten : layer :=
  fun x =>
    match x with
    | Sc _ => None
    | Dim examples => Some (Dim (map (fun e => Dim (map Sc (tflatten e))) examples))
    end.

(** [Sequential(layers)]. *)
Definition Sequential (layers : list layer) : layer :=
  fun x =>
    fold_left (fun acc l => match acc with Some t => l t | None => None end)
      layers (Some x).

(** [tensorflow.keras.activations.linear]. *)
Definition linear (x : tensor R) : tensor R := x.

Section Networks.
Context {K : Keras}.
Local Open Scope string_scope.
Local Open Scope nat_scope.

Definition Generator_layers (v : variables) (channels : nat) : list layer :=
  [ always (Dense v 0 (4 * 4 * 1024));
    Reshape [4; 4; 1024];
    ReLU;
    always (Conv2DTranspose v 3 512 (6, 6) (2, 2) "same");
    ReLU;
    always (Conv2DTranspose v 5 256 (6, 6) (2, 2) "same");
    ReLU;
    always (Conv2DTranspose v 7 128 (6, 6) (2, 2) "same");
    ReLU;
    always (Conv2DTranspose v 9 64 (6, 6) (2, 2) "same");
    ReLU;
    always (Conv2DTranspose v 11 channels (6, 6) (2, 2) "same") ].

(** [Generator(channels, activation).call(z_in)]. *)
Definition Generator_call (v : variables) (channels : nat)
    (activation : tensor R -> tensor R) (z_in : tensor R) : option (tensor R) :=
  option_map activation (Sequential (Generator_layers v channels) z_in).

Definition Discriminator_layers (v : variables) : list layer :=
  [ always (Conv2D v 0 64 (6, 6) (2, 2) "same");
    LeakyReLU 0.2;
    always (Conv2D v 2 128 (6, 6) (2, 2) "same");
    LeakyReLU 0.2;
    always (Conv2D v 4 256 (6, 6) (2, 2) "same");
    LeakyReLU 0.2;
    always (Conv2D v 6 512 (6, 6) (2, 2) "same");
    LeakyReLU 0.2;
    always (Conv2D v 8 1024 (6, 6) (2, 2) "same");
    LeakyReLU 0.2;
    Flatten;
    always (Dense v 11 1) ].

(** [Discriminator().call(x_in)]. *)
Definition Discriminator_call (v : variables) (x_in : tensor R)
  : option (tensor R) :=
  Sequential (Discriminator_layers v) x_in.

(** The shapes Keras documents for the layers with weights, on inputs all
    of whose extents are positive: [Dense] replaces the last extent by its
    units; a convolution with stride 2 and padding ["same"] halves height
    and width, rounding up, a transposed one doubles them; both set the
    last extent to their filters. *)
Definition keras_shapes : Prop :=
  (forall v name units x b n,
     0 < b -> 0 < n -> has_shape [b; n] x ->
     has_shape [b; units] (Dense v name units x)) /\
  (forall v name filters kernel x b h w c,
     0 < b -> 0 < h -> 0 < w -> 0 < c -> has_shape [b; h; w; c] x ->
     has_shape [b; (h + 1) / 2; (w + 1) / 2; filters]
       (Conv2D v name filters kernel (2, 2) "same" x)) /\
  (forall v name filters kernel x b h w c,
     0 < b -> 0 < h -> 0 < w -> 0 < c -> has_shape [b; h; w; c] x ->
     has_shape [b; 2 * h; 2 * w; filters]
       (Conv2DTranspose v name filters kernel (2, 2) "same" x)).
End Networks.
End spec_gan.

(* ================================================================== *)
(** ** A small concrete instance

    Networks, optimizers and generators simple enough to evaluate runs on
    explicit inputs. *)

Module Sample.
Import WGAN.
Local Open Scope R_scope.

(** Variables and optimizer states count the updates applied to them. *)
Definition framework_with (disc : tensor R -> tensor R) : Framework := {|
  gen_vars := nat;
  disc_vars := nat;
  gen_opt := nat;
  disc_opt := nat;
  gen_grads := unit;
  disc_grads := unit;
  seed := nat;
  generator := fun _ Z _ => Dim (map (fun _ => Sc 0) (rows Z));
  discriminator := fun _ X => disc X;
  input_gradient := fun _ x => x;
  gen_tape_gradient := fun _ _ => tt;
  disc_tape_gradient := fun _ _ => tt;
  gen_apply_gradients := fun o _ v => (S o, S v);
  disc_apply_gradients := fun o _ v => (S o, S v);
  random_uniform := fun g shape lo _ => (build lo shape [], S g);
  shuffle_pick := fun g n => (g, S g)
|}.

(** A critic with one score per batch. *)
Definition framework : Framework := framework_with (fun _ => Dim [Dim [Sc 0]]).


Definition no_base_attribute : AbstractModel := {| class_checkpoint_dir := None |}.
Definition base_attribute (v : option string) : AbstractModel :=
  {| class_checkpoint_dir := Some v |}.

Definition initial_world {F : Framework} (gv : gen_vars) (dv : disc_vars)
    (go : gen_opt) (do : disc_opt) (g : seed) : world :=
  {| gen_variables := gv; disc_variables := dv;
     generator_optimizer := go; discriminator_optimizer := do;
     tf_seed := g; data_seed := g; history := [] |}.

(** A model over [n] scalar examples, fed to the critic as a flat vector. *)
Definition model {F : Framework} (n : nat) (ratio size epochs : Z)
    (checkpoint_dir : option string) (epochs_per_save : Z)
    (callback : option string) : WGAN :=
  {| raw_dataset := repeat (Sc 0) n;
     data_shape := [-1]%Z;
     d_in_data_shape := [-1]%Z;
     z_dim := 1;
     generator_training_ratio := ratio;
     batch_size := size;
     buffer_size := 1000;
     epochs := epochs;
     epochs_per_save := epochs_per_save;
     fn_compute_loss := _compute_losses;
     fn_save_examples := callback;
     checkpoint_prefix := if truthy_str checkpoint_dir
                          then option_map path_join_ckpt checkpoint_dir
                          else None;
     checkpoint := truthy_str checkpoint_dir |}.

(** A model whose discriminator input has the given shape. *)
Definition shaped_model {F : Framework} (d_in : list Z) : WGAN :=
  {| raw_dataset := [];
     data_shape := d_in;
     d_in_data_shape := d_in;
     z_dim := 1;
     generator_training_ratio := 5;
     batch_size := 64;
     buffer_size := 1000;
     epochs := 1;
     epochs_per_save := 10;
     fn_compute_loss := _compute_losses;
     fn_save_examples := None;
     checkpoint_prefix := None;
     checkpoint := false |}.

(** A signal library over one fixed spectrum.  Its Griffin-Lim starts from
    the state of the generator, which it advances. *)
Definition signal_lib : Spectral.SignalLib := {|
  Spectral.signal_stft := fun _ _ _ => Some (Dim [Dim [Dim [Sc (3, 4); Sc (0, 0)]]]);
  Spectral.signal_inverse_stft := fun _ _ _ => Some (Dim [Dim [Sc 0]]);
  Spectral.linear_to_mel_weight_matrix := fun _ _ _ _ _ => Dim [Dim [Sc 1]];
  Spectral.pinv := fun m => m;
  Spectral.angle := fun z => snd z;
  Spectral.np_unwrap := fun t => t;
  Spectral.np_random_state := nat;
  Spectral.griffinlim := fun _ _ _ _ g => (Some (Dim [Sc (INR g)]), S g)
|}.


(** A library whose one spectrum has phase zero in every bin: its angle
    is an argument of every entry.  The inverse transform hands the real
    parts back. *)
Definition polar_signal_lib : Spectral.SignalLib := {|
  Spectral.signal_stft := fun _ _ _ => Some (Dim [Dim [Dim [Sc (2, 0); Sc (0, 0)]]]);
  Spectral.signal_inverse_stft := fun st _ _ => Some (tmap fst st);
  Spectral.linear_to_mel_weight_matrix := fun _ _ _ _ _ => Dim [Dim [Sc 1]];
  Spectral.pinv := fun m => m;
  Spectral.angle := fun _ => 0;
  Spectral.np_unwrap := fun t => t;
  Spectral.np_random_state := nat;
  Spectral.griffinlim := fun S _ _ _ g => (Some S, g)
|}.

(** A record of the NSynth file: a silent note of the given pitch,
    instrument source and instrument family. *)
Definition note (pitch source family : Z) : NSynthDataset.record :=
  [("pitch"%string, NSynthDataset.Int64List [pitch]);
   ("audio"%string, NSynthDataset.FloatList (repeat 0 (Z.to_nat 64000)));
   ("qualities"%string, NSynthDataset.Int64List (repeat 0%Z 10));
   ("instrument_source"%string, NSynthDataset.Int64List [source]);
   ("instrument_family"%string, NSynthDataset.Int64List [family])].

(** Layers that answer with zeros of the shape Keras documents. *)
Definition keras : spec_gan.Keras := {|
  spec_gan.variables := unit;
  spec_gan.Dense := fun _ _ units x => build 0 [length (rows x); units] [];
  spec_gan.Conv2D := fun _ _ filters _ _ _ x =>
    match shape x with
    | [b; h; w; _] => build 0 [b; (h + 1) / 2; (w + 1) / 2; filters]%nat []
    | _ => x
    end;
  spec_gan.Conv2DTranspose := fun _ _ filters _ _ _ x =>
    match shape x with
    | [b; h; w; _] => build 0 [b; 2 * h; 2 * w; filters]%nat []
    | _ => x
    end
|}.

End Sample.

(* ================================================================== *)
(** * Properties *)

(** ** Tensors *)

Section SameShapeBroadcast.
Context {A B C : Type}.
Variable f : A -> B -> C.

Lemma rank_of_shape (t : tensor A) (s : list nat) :
  shape t = s -> rank t = length s.
Proof. unfold rank; intros ->; reflexivity. Qed.

Lemma nest_0 (t : tensor A) : nest 0 t = t.
Proof. reflexivity. Qed.

(** On two tensors of one shape, broadcasting is the entrywise
    combination. *)
Lemma broadcast_same_zip (a : tensor A) :
  forall (s : list nat) (b : tensor B),
    has_shape s a -> has_shape s b ->
    broadcast_same f a b = Some (tzip f a b).
Proof.
  induction a as [x | la IH] using tensor_ind'; intros s b Ha Hb.
  - destruct s; [| contradiction].
    destruct b; [reflexivity | contradiction].
  - destruct s as [| n s]; [contradiction |].
    destruct b as [y | lb]; [contradiction |].
    destruct Ha as [Hla Fa], Hb as [Hlb Fb].
    cbn [broadcast_same tzip].
    assert (Hlen : length la = length lb) by congruence.
    rewrite (proj2 (Nat.eqb_eq _ _) Hlen).
    clear Hla Hlb. revert lb Fb Hlen.
    induction IH as [| a' la' Ha' _ IHl]; intros [| b' lb'] Fb Hlen;
      try discriminate; [reflexivity |].
    inversion Fa as [| ? ? Fa1 Fa2]; subst.
    inversion Fb as [| ? ? Fb1 Fb2]; subst.
    specialize (IHl Fa2 lb' Fb2 (eq_add_S _ _ Hlen)).
    cbn [zipM zipWith]. rewrite (Ha' s b' Fa1 Fb1).
    destruct (zipM (broadcast_same f) la' lb') as [cs |]; [| discriminate].
    cbn [option_map] in IHl |- *. injection IHl as IHl. rewrite IHl. reflexivity.
Qed.

Lemma zipWith_length {X Y W : Type} (g : X -> Y -> W) (lx : list X) :
  forall ly, length lx = length ly -> length (zipWith g lx ly) = length lx.
Proof.
  induction lx as [| x lx IH]; intros [| y ly] H; try discriminate; cbn.
  - reflexivity.
  - f_equal. apply IH. now injection H.
Qed.

Lemma has_shape_tzip (a : tensor A) :
  forall (s : list nat) (b : tensor B),
    has_shape s a -> has_shape s b -> has_shape s (tzip f a b).
Proof.
  induction a as [x | la IH] using tensor_ind'; intros s b Ha Hb.
  - destruct s; [| contradiction].
    destruct b; [exact I | contradiction].
  - destruct s as [| n s]; [contradiction |].
    destruct b as [y | lb]; [contradiction |].
    destruct Ha as [Hla Fa], Hb as [Hlb Fb].
    cbn [tzip has_shape]. split.
    + rewrite zipWith_length; congruence.
    + assert (Hlen : length la = length lb) by congruence.
      clear Hla Hlb. revert lb Fb Hlen.
      induction IH as [| a' la' Ha' _ IHl]; intros [| b' lb'] Fb Hlen;
        try discriminate; cbn; [constructor |].
      inversion Fa; inversion Fb; subst.
      constructor; [now apply Ha' | apply IHl; auto].
Qed.

Lemma shape_tzip (a : tensor A) :
  forall (s : list nat) (b : tensor B),
    has_shape s a -> has_shape s b -> shape (tzip f a b) = shape a.
Proof.
  induction a as [x | la IH] using tensor_ind'; intros s b Ha Hb.
  - destruct s; [| contradiction].
    destruct b; [reflexivity | contradiction].
  - destruct s as [| n s]; [contradiction |].
    destruct b as [y | lb]; [contradiction |].
    destruct Ha as [Hla Fa], Hb as [Hlb Fb].
    cbn [tzip shape].
    rewrite zipWith_length by congruence. f_equal.
    destruct la as [| a' la']; destruct lb as [| b' lb'];
      cbn in *; try congruence.
    inversion IH; inversion Fa; inversion Fb; subst. eauto.
Qed.
End SameShapeBroadcast.

Section MapFacts.
Context {A B : Type}.

Lemma shape_tmap (g : A -> B) (t : tensor A) : shape (tmap g t) = shape t.
Proof.
  induction t as [x | l IH] using tensor_ind'; [reflexivity |].
  cbn [tmap shape]. rewrite length_map. f_equal.
  destruct l as [| t0 l]; [reflexivity |]. cbn. now inversion IH.
Qed.

Lemma has_shape_tmap (g : A -> B) (t : tensor A) :
  forall s, has_shape s t -> has_shape s (tmap g t).
Proof.
  induction t as [x | l IH] using tensor_ind'; intros [| n s] H;
    try contradiction; [exact I |].
  destruct H as [Hl Fl]. cbn [tmap has_shape]. split.
  - now rewrite length_map.
  - rewrite Forall_forall in *. intros u Hu.
    apply in_map_iff in Hu as (t & <- & Ht). auto.
Qed.

(** The shape is determined by the extents. *)
Lemma shape_unique (a : tensor A) :
  forall (s : list nat) (b : tensor B),
    has_shape s a -> has_shape s b -> shape a = shape b.
Proof.
  induction a as [x | la IH] using tensor_ind'; intros s b Ha Hb.
  - destruct s; [| contradiction]. destruct b; [reflexivity | contradiction].
  - destruct s as [| n s]; [contradiction |].
    destruct b as [| lb]; [contradiction |].
    destruct Ha as [Hla Fa], Hb as [Hlb Fb]. cbn [shape].
    rewrite Hla, Hlb. f_equal.
    destruct la as [| a0 la]; destruct lb as [| b0 lb]; cbn in *;
      try congruence.
    inversion IH; inversion Fa; inversion Fb; subst. eauto.
Qed.

Lemma tflatten_tmap (g : A -> B) (t : tensor A) :
  tflatten (tmap g t) = map g (tflatten t).
Proof.
  induction t as [x | l IH] using tensor_ind'; [reflexivity |].
  cbn [tmap tflatten]. induction IH as [| t l Ht _ IHl]; [reflexivity |].
  cbn. rewrite map_app, Ht, IHl. reflexivity.
Qed.

(** A tensor of extents one is a single entry, nested. *)
Lemma has_shape_ones (k : nat) :
  forall t : tensor A,
    has_shape (repeat 1%nat k) t -> exists a, t = nest k (Sc a).
Proof.
  induction k as [| k IH]; intros t H; cbn in H.
  - destruct t as [a |]; [now exists a | contradiction].
  - destruct t as [| l]; [contradiction |].
    destruct H as [Hl Fl].
    destruct l as [| t0 [| ? ?]]; try discriminate.
    inversion Fl as [| ? ? H0 _]; subst.
    destruct (IH t0 H0) as [a ->]. now exists a.
Qed.

Lemma mapM_all {X Y : Type} (g : X -> option Y) (h : X -> Y) (l : list X) :
  Forall (fun x => g x = Some (h x)) l -> mapM g l = Some (map h l).
Proof.
  induction 1 as [| x l Hx _ IH]; [reflexivity |].
  cbn. now rewrite Hx, IH.
Qed.
End MapFacts.

Section SingletonBroadcast.
Context {A B C : Type}.
Variable f : A -> B -> C.

(** A single entry under [length s] axes of extent one, against a tensor of
    shape [s]: the entry is combined with every entry. *)
Lemma broadcast_same_nest (a : A) :
  forall (s : list nat) (d : tensor B),
    has_shape s d ->
    broadcast_same f (nest (length s) (Sc a)) d = Some (tmap (f a) d).
Proof.
  induction s as [| n s IH]; intros d H.
  - destruct d; [reflexivity | contradiction].
  - destruct d as [| l]; [contradiction |].
    destruct H as [Hl Fl].
    assert (Hall : mapM (broadcast_same f (nest (length s) (Sc a))) l
                   = Some (map (tmap (f a)) l)).
    { apply mapM_all. eapply Forall_impl; [| exact Fl]. intros; now apply IH. }
    cbn [length nest broadcast_same tmap].
    change (length [nest (length s) (Sc a)]) with 1%nat.
    destruct (Nat.eqb_spec 1 (length l)) as [E | E].
    + destruct l as [| d0 [| ? ?]]; try discriminate E.
      inversion Fl as [| ? ? H0 _]; subst.
      cbn [zipM map]. rewrite (IH d0 H0). reflexivity.
    + rewrite Hall. reflexivity.
Qed.
End SingletonBroadcast.


Section RowBroadcast.
Context {A B C : Type}.
Variable f : A -> B -> C.

Lemma tflatten_nest (k : nat) (t : tensor A) : tflatten (nest k t) = tflatten t.
Proof.
  induction k as [| k IH]; [reflexivity |].
  cbn. now rewrite app_nil_r.
Qed.

(** A tensor of shape [(n, 1, ..., 1)] holds one entry per row. *)
Lemma per_row_coefficients (k n : nat) (t : tensor A) :
  has_shape (n :: repeat 1%nat k) t ->
  t = Dim (map (fun a => nest k (Sc a)) (tflatten t))
  /\ length (tflatten t) = n.
Proof.
  destruct t as [| l]; [contradiction |].
  intros [Hl Fl]. subst n. cbn [tflatten].
  induction Fl as [| t l Ht _ IH]; [split; reflexivity |].
  destruct (has_shape_ones k t Ht) as [a ->].
  destruct IH as [IH1 IH2]. cbn [flat_map length].
  rewrite tflatten_nest. cbn [tflatten app map length]. split.
  - injection IH1 as IH1. now rewrite <- IH1.
  - cbn [length] in *. now rewrite IH2.
Qed.

Lemma zipM_all {X Y W : Type} (g : X -> Y -> option W) (h : X -> Y -> W)
    (lx : list X) :
  forall ly,
    length lx = length ly ->
    (forall x y, In (x, y) (combine lx ly) -> g x y = Some (h x y)) ->
    zipM g lx ly = Some (zipWith h lx ly).
Proof.
  induction lx as [| x lx IH]; intros [| y ly] Hlen Hall; try discriminate;
    [reflexivity |].
  cbn. rewrite (Hall x y (or_introl eq_refl)).
  rewrite (IH ly); [reflexivity | now injection Hlen |].
  intros; apply Hall; now right.
Qed.

(** Row [i] of the first tensor is a single entry [a_i]: broadcasting
    combines [a_i] with every entry of row [i] of the second. *)
Lemma broadcast_same_rows (s : list nat) (cs : list A) (ld : list (tensor B)) :
  length cs = length ld ->
  Forall (has_shape s) ld ->
  broadcast_same f (Dim (map (fun a => nest (length s) (Sc a)) cs)) (Dim ld)
  = Some (Dim (zipWith (fun a d => tmap (f a) d) cs ld)).
Proof.
  intros Hlen Fd. cbn [broadcast_same].
  rewrite length_map, Hlen, Nat.eqb_refl.
  assert (E : zipM (broadcast_same f) (map (fun a => nest (length s) (Sc a)) cs) ld
              = Some (zipWith (fun a d => tmap (f a) d) cs ld)).
  { revert ld Hlen Fd. induction cs as [| a cs IH]; intros [| d ld] Hlen Fd;
      try discriminate; [reflexivity |].
    inversion Fd as [| ? ? Hd Fd']; subst. cbn.
    rewrite (broadcast_same_nest f a s d Hd).
    rewrite (IH ld); [reflexivity | now injection Hlen | assumption]. }
  now rewrite E.
Qed.
End RowBroadcast.

Section ZipProjections.
Context {A B : Type}.


End ZipProjections.

(** ** The interpolated sample *)

Section Interpolation.
Local Open Scope R_scope.
Import WGAN.

(** [x + a * (g - x)] computed in three tensor operations is the one
    entrywise formula. *)
Lemma interpolation_fused (a : R) (x : tensor R) :
  forall (s : list nat) (g : tensor R),
    has_shape s x -> has_shape s g ->
    tzip Rplus x (tmap (Rmult a) (tzip Rminus g x))
    = tzip (fun xv gv => xv + a * (gv - xv)) x g.
Proof.
  induction x as [u | lx IH] using tensor_ind'; intros s g Hx Hg.
  - destruct s; [| contradiction]. destruct g; [reflexivity | contradiction].
  - destruct s as [| n s]; [contradiction |].
    destruct g as [| lg]; [contradiction |].
    destruct Hx as [Hlx Fx], Hg as [Hlg Fg]. cbn [tzip tmap]. f_equal.
    assert (Hlen : length lx = length lg) by congruence.
    clear Hlx Hlg. revert lg Fg Hlen.
    induction IH as [| x lx Hx' _ IHl]; intros [| g lg] Fg Hlen;
      try discriminate; [reflexivity |].
    inversion Fx; inversion Fg; subst. cbn. f_equal; eauto.
Qed.

Lemma alpha_shape_ones (self : WGAN) (n : nat) (s : list nat) :
  length (d_in_data_shape self) = S (length s) ->
  alpha_shape self n = n :: repeat 1%nat (length s).
Proof.
  unfold alpha_shape. destruct (d_in_data_shape self) as [| z zs]; [discriminate |].
  intros [= H]. f_equal. rewrite <- H. clear H.
  induction zs; cbn; congruence.
Qed.

(** The rows of the three-operation result, one coefficient per row. *)
Lemma interpolate_rows (s : list nat) (cs : list R) :
  forall lx lg : list (tensor R),
    length lx = length cs -> length lg = length cs ->
    Forall (has_shape s) lx -> Forall (has_shape s) lg ->
    zipWith (tzip Rplus) lx
      (zipWith (fun a d => tmap (Rmult a) d) cs (zipWith (tzip Rminus) lg lx))
    = zipWith (fun a xg => tzip (fun x g => x + a * (g - x)) (fst xg) (snd xg))
        cs (combine lx lg).
Proof.
  induction cs as [| a cs IH]; intros [| x lx] [| g lg] H1 H2 Fx Fg;
    try discriminate; [reflexivity |].
  inversion Fx; inversion Fg; subst. cbn.
  rewrite (interpolation_fused a x s g) by assumption.
  f_equal. apply IH; auto.
Qed.

(** Under the shapes [_train_step] works with, [interpolate] succeeds and
    yields the per-example formula. *)
Lemma interpolate_spec (self : WGAN) (X X_gen alpha : tensor R)
    (n : nat) (s : list nat) :
  length (d_in_data_shape self) = S (length s) ->
  shape X = n :: s -> has_shape (n :: s) X ->
  shape X_gen = n :: s -> has_shape (n :: s) X_gen ->
  shape alpha = alpha_shape self n -> has_shape (alpha_shape self n) alpha ->
  interpolate X X_gen alpha
  = Ok (interpolate_per_example (tflatten alpha) X X_gen)
  /\ length (tflatten alpha) = n.
Proof.
  intros Hd SX HX SG HG SA HA.
  rewrite (alpha_shape_ones self n s Hd) in SA, HA.
  destruct (per_row_coefficients (length s) n alpha HA) as [Ealpha Hcs].
  set (cs := tflatten alpha) in *.
  destruct X as [| lx]; [contradiction |].
  destruct X_gen as [| lg]; [contradiction |].
  pose proof HX as [Hlx Fx]. pose proof HG as [Hlg Fg].
  unfold interpolate, tsub, tmul, tadd, broadcast.
  rewrite (rank_of_shape _ _ SX), (rank_of_shape _ _ SG), Nat.sub_diag, !nest_0.
  rewrite (broadcast_same_zip Rminus (Dim lg) (n :: s) (Dim lx) HG HX).
  assert (Sd : shape (tzip Rminus (Dim lg) (Dim lx)) = n :: s).
  { rewrite (shape_tzip Rminus (Dim lg) (n :: s) (Dim lx) HG HX). exact SG. }
  pose proof (has_shape_tzip Rminus (Dim lg) (n :: s) (Dim lx) HG HX) as Hdiff.
  rewrite (rank_of_shape _ _ SA), (rank_of_shape _ _ Sd).
  cbn [length]. rewrite repeat_length, Nat.sub_diag, !nest_0.
  rewrite Ealpha. cbn [tzip] in Hdiff |- *.
  destruct Hdiff as [Hld Fd].
  rewrite (broadcast_same_rows Rmult s cs (zipWith (tzip Rminus) lg lx))
    by (try assumption; congruence).
  set (scaled := zipWith (fun a d => tmap (Rmult a) d) cs
                   (zipWith (tzip Rminus) lg lx)).
  assert (Hscaled : has_shape (n :: s) (Dim scaled)).
  { split.
    - unfold scaled. rewrite zipWith_length; congruence.
    - unfold scaled. clearbody cs. clear - Fd.
      revert cs. induction Fd as [| d ld Hd' _ IH]; intros [| a cs]; cbn;
        try constructor; [now apply has_shape_tmap | apply IH]. }
  assert (SX' : rank (Dim scaled) = length (n :: s)).
  { unfold rank. now rewrite <- (shape_unique (Dim lx) (n :: s) (Dim scaled)), SX. }
  rewrite SX'. cbn [length]. rewrite ?Nat.sub_diag, ?nest_0.
  rewrite (broadcast_same_zip Rplus (Dim lx) (n :: s) (Dim scaled) HX Hscaled).
  cbn [of_option tzip]. unfold interpolate_per_example, scaled. cbn [rows].
  split; [| exact Hcs].
  rewrite (interpolate_rows s cs lx lg); auto; congruence.
Qed.
End Interpolation.

(** ** One training step *)

Section StepFacts.
Import WGAN.
Context {F : Framework} {B : AbstractModel}.
Local Open Scope py_scope.

Lemma only_tf_seed_moved_refl (w : world) : only_tf_seed_moved w w.
Proof. repeat split. Qed.

Ltac step_cases :=
  repeat match goal with
    | |- context [match ?x with _ => _ end] =>
        lazymatch x with
        | context [match _ with _ => _ end] => fail
        | _ => destruct x eqn:?; cbn
        end
    end.

(** A step that ends with a value has applied exactly the updates asked
    for; a step that does not has applied none. *)
Lemma train_step_effect (self : WGAN) (X : tensor R) (tg td : bool) (w : world) :
  match _train_step self X tg td w with
  | (Ok _, w') =>
      history w' = step_events tg td ++ history w /\ data_seed w' = data_seed w
  | (Raise _, w') | (Diverge, w') => only_tf_seed_moved w w'
  end.
Proof.
  unfold _train_step, bind, lift, uniform, get_world, ret,
    apply_generator, apply_discriminator, step_events.
  step_cases; unfold only_tf_seed_moved; cbn; repeat split.
Qed.
End StepFacts.

(** ** The derived dataset view *)

Section DatasetFacts.
Import WGAN.
Context {F : Framework}.
Context {X : Type}.

Lemma remove_nth_perm (j : nat) (d : X) :
  forall l : list X,
    (j < length l)%nat -> Permutation l (nth j l d :: remove_nth j l).
Proof.
  unfold remove_nth. induction j as [| j IH]; intros [| x l] H; cbn in H;
    try lia; cbn.
  - reflexivity.
  - etransitivity; [apply perm_skip, (IH l); lia |]. apply perm_swap.
Qed.

Lemma shuffle_drain_step (n : nat) (b0 : X) (buffer' rest : list X) (g : seed) :
  shuffle_drain (S n) (b0 :: buffer') rest g =
  let buffer := b0 :: buffer' in
  let (i, g1) := shuffle_pick g (length buffer) in
  let j := (i mod length buffer)%nat in
  let (out, g2) :=
    match rest with
    | [] => shuffle_drain n (remove_nth j buffer) [] g1
    | y :: rest' => shuffle_drain n (remove_nth j buffer ++ [y]) rest' g1
    end in
  (nth j buffer b0 :: out, g2).
Proof. reflexivity. Qed.

(** The shuffle hands out every element exactly once. *)
Lemma shuffle_drain_perm (n : nat) :
  forall (buffer rest : list X) (g : seed),
    n = (length buffer + length rest)%nat ->
    (buffer = [] -> rest = []) ->
    Permutation (fst (shuffle_drain n buffer rest g)) (buffer ++ rest).
Proof.
  induction n as [| n IH]; intros buffer rest g Hn Hb.
  - destruct buffer; [| discriminate]. rewrite (Hb eq_refl). reflexivity.
  - destruct buffer as [| b0 buffer'].
    { rewrite (Hb eq_refl) in Hn. discriminate. }
    rewrite shuffle_drain_step.
    remember (b0 :: buffer') as buffer eqn:Eb. cbv zeta.
    destruct (shuffle_pick g (length buffer)) as [i g1].
    assert (Hj : (i mod length buffer < length buffer)%nat).
    { apply Nat.mod_upper_bound. rewrite Eb. discriminate. }
    set (j := (i mod length buffer)%nat) in *.
    pose proof (remove_nth_perm j b0 buffer Hj) as P.
    assert (Hlen : length (remove_nth j buffer) = (length buffer - 1)%nat).
    { apply Permutation_length in P. cbn in P. lia. }
    assert (Hpos : (0 < length buffer)%nat) by lia.
    destruct rest as [| y rest'].
    + specialize (IH (remove_nth j buffer) [] g1).
      destruct (shuffle_drain n (remove_nth j buffer) [] g1) as [out g2].
      cbn [fst] in *. rewrite app_nil_r in *.
      etransitivity; [| symmetry; exact P].
      apply perm_skip. apply IH; [cbn [length] in *; lia | auto].
    + specialize (IH (remove_nth j buffer ++ [y]) rest' g1).
      destruct (shuffle_drain n (remove_nth j buffer ++ [y]) rest' g1)
        as [out g2].
      cbn [fst] in *. rewrite IH.
      * rewrite <- app_assoc. cbn [app].
        change (Permutation ((nth j buffer b0 :: remove_nth j buffer) ++ y :: rest')
                  (buffer ++ y :: rest')).
        apply Permutation_app_tail. symmetry. exact P.
      * rewrite length_app. cbn [length] in *. lia.
      * intros E. apply app_eq_nil in E as [_ E]. discriminate.
Qed.

Lemma shuffle_perm (buffer_size : nat) (l : list X) (g : seed) :
  (0 < buffer_size)%nat ->
  Permutation (fst (shuffle buffer_size l g)) l.
Proof.
  intros Hb. unfold shuffle.
  rewrite shuffle_drain_perm.
  - now rewrite firstn_skipn.
  - rewrite <- length_app, firstn_skipn. reflexivity.
  - destruct l; [intros _; now destruct buffer_size |].
    destruct buffer_size; [lia | discriminate].
Qed.

Lemma repeat_shuffled_length (count buffer_size : nat) (l : list X) :
  (0 < buffer_size)%nat ->
  forall g, length (fst (repeat_shuffled count buffer_size l g))
            = (count * length l)%nat.
Proof.
  intros Hb. induction count as [| c IH]; intros g; [reflexivity |].
  cbn [repeat_shuffled].
  pose proof (shuffle_perm buffer_size l g Hb) as P.
  destruct (shuffle buffer_size l g) as [pass g1].
  specialize (IH g1).
  destruct (repeat_shuffled c buffer_size l g1) as [more g2].
  cbn [fst] in *. rewrite length_app, IH, (Permutation_length P). lia.
Qed.

Lemma repeat_shuffled_incl (count buffer_size : nat) (l : list X) :
  (0 < buffer_size)%nat ->
  forall g, incl (fst (repeat_shuffled count buffer_size l g)) l.
Proof.
  intros Hb. induction count as [| c IH]; intros g; [intros x [] |].
  cbn [repeat_shuffled].
  pose proof (shuffle_perm buffer_size l g Hb) as P.
  destruct (shuffle buffer_size l g) as [pass g1].
  specialize (IH g1).
  destruct (repeat_shuffled c buffer_size l g1) as [more g2].
  cbn [fst] in *. intros x Hx. apply in_app_or in Hx as [Hx | Hx].
  - now apply (Permutation_in _ P).
  - now apply IH.
Qed.

(** Batching loses nothing and every batch is non-empty. *)
Lemma batch_go_spec (size : nat) :
  (0 < size)%nat ->
  forall (fuel : nat) (l : list X),
    (length l <= fuel)%nat ->
    concat (batch_go fuel size l) = l /\
    Forall (fun b => b <> [] /\ (length b <= size)%nat) (batch_go fuel size l) /\
    length (batch_go fuel size l) = ((length l + size - 1) / size)%nat.
Proof.
  intros Hs. induction fuel as [| fuel IH]; intros l Hl.
  - destruct l; [| cbn in Hl; lia]. cbn. repeat split; [constructor |].
    symmetry. apply Nat.div_small. lia.
  - destruct (Nat.eq_dec (length l) 0) as [E0 | Hne0].
    { apply length_zero_iff_nil in E0. subst l.
      cbn. repeat split; [constructor |]. symmetry. apply Nat.div_small. lia. }
    assert (Estep : batch_go (S fuel) size l
                    = firstn size l :: batch_go fuel size (skipn size l)).
    { destruct l; [contradiction | reflexivity]. }
    rewrite Estep.
    assert (Hsk : (length (skipn size l) = length l - size)%nat)
      by apply length_skipn.
    assert (Hne : (0 < length l)%nat) by lia.
    destruct (IH (skipn size l)) as (H1 & H2 & H3); [lia |].
    cbn [concat length]. rewrite H1, firstn_skipn. repeat split.
    + constructor; [| exact H2]. split.
      * intros E. apply (f_equal (@length X)) in E.
        rewrite length_firstn in E. cbn in E. lia.
      * rewrite length_firstn. lia.
    + rewrite H3, Hsk.
      destruct (Nat.le_gt_cases size (length l)) as [Hle | Hgt].
      * replace (length l + size - 1)%nat
          with ((length l - size + size - 1) + 1 * size)%nat by lia.
        rewrite Nat.div_add by lia. lia.
      * replace (length l - size)%nat with 0%nat by lia.
        rewrite (Nat.div_small (0 + size - 1)) by lia.
        replace (length l + size - 1)%nat
          with ((length l - 1) + 1 * size)%nat by lia.
        rewrite Nat.div_add by lia.
        rewrite Nat.div_small by lia. reflexivity.
Qed.

Lemma batch_spec (size : nat) (l : list X) :
  (0 < size)%nat ->
  concat (batch size l) = l /\
  Forall (fun b => b <> [] /\ (length b <= size)%nat) (batch size l) /\
  length (batch size l) = ((length l + size - 1) / size)%nat.
Proof. intros Hs. apply batch_go_spec; auto. Qed.
End DatasetFacts.

(** ** The training loop *)

Section LoopFacts.
Import WGAN.
Context {F : Framework} {B : AbstractModel}.
Local Open Scope py_scope.

Lemma iterate_dataset_spec (self : WGAN) (w : world) :
  (0 <= generator_training_ratio self)%Z ->
  (0 < batch_size self)%Z ->
  (0 < buffer_size self)%Z ->
  exists batches w',
    iterate_dataset self w = (Ok batches, w') /\
    length batches = batches_per_epoch self /\
    Forall (batch_of self) batches /\
    history w' = history w /\
    gen_variables w' = gen_variables w /\
    disc_variables w' = disc_variables w /\
    generator_optimizer w' = generator_optimizer w /\
    discriminator_optimizer w' = discriminator_optimizer w.
Proof.
  intros Hr Hb Hs. unfold iterate_dataset.
  destruct (Z.ltb_spec (generator_training_ratio self) 0) as [Hneg | _]; [lia |].
  assert (Hs' : (0 < Z.to_nat (buffer_size self))%nat) by lia.
  pose proof (repeat_shuffled_length (Z.to_nat (generator_training_ratio self))
                (Z.to_nat (buffer_size self)) (raw_dataset self) Hs' (data_seed w))
    as Hlen.
  pose proof (repeat_shuffled_incl (Z.to_nat (generator_training_ratio self))
                (Z.to_nat (buffer_size self)) (raw_dataset self) Hs' (data_seed w))
    as Hincl.
  destruct (repeat_shuffled _ _ _ _) as [elements g]. cbn [fst] in *.
  assert (Hb' : (0 < Z.to_nat (batch_size self))%nat) by lia.
  destruct (batch_spec (Z.to_nat (batch_size self)) elements Hb')
    as (Hcat & Hne & Hcount).
  eexists. eexists. split; [reflexivity |]. cbn. repeat split.
  - rewrite length_map, Hcount, Hlen. reflexivity.
  - rewrite Forall_forall. intros X HX.
    apply in_map_iff in HX as (l & <- & Hl).
    exists l. split; [reflexivity |]. split.
    + rewrite Forall_forall in Hne. now apply (Hne l).
    + intros x Hx. apply Hincl. rewrite <- Hcat.
      apply in_concat. exists l. split; assumption.
Qed.

(** Whatever happens in the loop over the batches, it adds nothing but
    updates to the history. *)
Lemma train_batches_updates (self : WGAN) (batches : list (tensor R)) :
  forall (i : Z) (w : world) (r : result unit) (w' : world),
    train_batches self i batches w = (r, w') ->
    exists evs,
      history w' = evs ++ history w /\
      forallb is_update evs = true /\
      data_seed w' = data_seed w.
Proof.
  induction batches as [| X rest IH]; intros i w r w' H.
  - injection H as <- <-. exists []. repeat split.
  - cbn [train_batches] in H. unfold bind at 1 in H.
    pose proof (train_step_effect self X false true w) as H1.
    destruct (_train_step self X false true w) as [[v | e |] w1].
    2,3: injection H as <- <-; exists [];
         destruct H1 as (_ & _ & _ & _ & Hd & Hh); auto.
    destruct H1 as [Hh1 Hd1]. unfold bind at 1, lift at 1, py_mod in H.
    destruct (generator_training_ratio self =? 0)%Z.
    { injection H as <- <-. exists [DiscriminatorUpdate]. rewrite Hh1. auto. }
    unfold bind at 1 in H.
    destruct ((i mod generator_training_ratio self) =? 0)%Z.
    + unfold bind at 1 in H.
      pose proof (train_step_effect self X true false w1) as H2.
      destruct (_train_step self X true false w1) as [[v2 | e2 |] w2].
      2,3: injection H as <- <-; exists [DiscriminatorUpdate];
           destruct H2 as (_ & _ & _ & _ & Hd & Hh); rewrite Hh, Hd, Hh1; auto.
      destruct H2 as [Hh2 Hd2]. unfold ret at 1 in H.
      destruct (IH _ _ _ _ H) as (evs & E1 & E2 & E3).
      exists (evs ++ [GeneratorUpdate; DiscriminatorUpdate]). repeat split.
      * rewrite E1, Hh2, Hh1. cbn. now rewrite <- app_assoc.
      * rewrite forallb_app, E2. reflexivity.
      * congruence.
    + unfold ret at 1 in H.
      destruct (IH _ _ _ _ H) as (evs & E1 & E2 & E3).
      exists (evs ++ [DiscriminatorUpdate]). repeat split.
      * rewrite E1, Hh1. cbn. now rewrite <- app_assoc.
      * rewrite forallb_app, E2. reflexivity.
      * congruence.
Qed.

(** When no step aborts, the loop over the batches ends normally and the
    history grows by exactly the schedule. *)
Lemma train_batches_schedule (self : WGAN) (batches : list (tensor R)) :
  steps_succeed self ->
  generator_training_ratio self <> 0%Z ->
  Forall (batch_of self) batches ->
  forall (i : Z) (w : world),
  exists w',
    train_batches self i batches w = (Ok tt, w') /\
    history w' = rev (schedule (generator_training_ratio self) i (length batches))
                 ++ history w /\
    data_seed w' = data_seed w.
Proof.
  intros Hsteps Hr Hall.
  induction Hall as [| X rest HX _ IH]; intros i w.
  - exists w. repeat split.
  - cbn [train_batches length schedule]. unfold bind at 1.
    pose proof (train_step_effect self X false true w) as H1.
    destruct (Hsteps X false true w HX) as [v Hv].
    destruct (_train_step self X false true w) as [r1 w1].
    cbn [fst] in Hv. subst r1. destruct H1 as [Hh1 Hd1].
    unfold bind at 1, lift at 1, py_mod.
    rewrite (proj2 (Z.eqb_neq _ _) Hr).
    unfold bind at 1.
    destruct ((i mod generator_training_ratio self) =? 0)%Z.
    + unfold bind at 1.
      pose proof (train_step_effect self X true false w1) as H2.
      destruct (Hsteps X true false w1 HX) as [v2 Hv2].
      destruct (_train_step self X true false w1) as [r2 w2].
      cbn [fst] in Hv2. subst r2. destruct H2 as [Hh2 Hd2]. unfold ret at 1.
      destruct (IH (i + 1)%Z w2) as (w' & E1 & E2 & E3).
      exists w'. repeat split; [exact E1 | | congruence].
      rewrite E2, Hh2, Hh1. cbn. rewrite <- !app_assoc. reflexivity.
    + unfold ret at 1.
      destruct (IH (i + 1)%Z w1) as (w' & E1 & E2 & E3).
      exists w'. repeat split; [exact E1 | | congruence].
      rewrite E2, Hh1. cbn. rewrite <- !app_assoc. reflexivity.
Qed.
End LoopFacts.

Section EpochFacts.
Import WGAN.
Context {F : Framework} {B : AbstractModel}.
Local Open Scope py_scope.

Lemma count_app (p : event -> bool) (l1 l2 : list event) :
  count p (l1 ++ l2) = (count p l1 + count p l2)%nat.
Proof. unfold count. now rewrite filter_app, length_app. Qed.

Lemma count_rev (p : event -> bool) (l : list event) :
  count p (rev l) = count p l.
Proof.
  induction l as [| e l IH]; [reflexivity |].
  cbn [rev]. rewrite count_app, IH. unfold count. cbn.
  destruct (p e); cbn; lia.
Qed.

Lemma export_epochs_app (l1 l2 : list event) :
  export_epochs (l1 ++ l2) = export_epochs l1 ++ export_epochs l2.
Proof.
  induction l1 as [| e l1 IH]; [reflexivity |].
  cbn. destruct (export_epoch e); cbn; now rewrite IH.
Qed.

Lemma count_updates_only (l : list event) :
  forallb is_update l = true ->
  checkpoint_saves l = 0%nat /\ export_epochs l = [].
Proof.
  induction l as [| e l IH]; [split; reflexivity |].
  cbn [forallb]. intros H. apply andb_prop in H as [He Hl].
  destruct (IH Hl) as [IH1 IH2].
  destruct e; try discriminate; cbn; auto.
Qed.

(** The events a run added, read off the history it left. *)
Lemma new_events_of {X : Type} (c : M X) (w : world) (evs : list event) :
  history (snd (c w)) = evs ++ history w -> new_events c w = rev evs.
Proof.
  intros H. unfold new_events. rewrite H, length_app.
  replace (length evs + length (history w) - length (history w))%nat
    with (length evs + 0)%nat by lia.
  now rewrite firstn_app_2, firstn_O, app_nil_r.
Qed.

(** The export helper never fails on a batch; it calls the callback once
    if there is one. *)
Lemma save_examples_run (self : WGAN) (epoch : Z) (l : list (tensor R))
    (w : world) :
  exists w',
    _generate_and_save_examples self epoch (Dim l) w = (Ok tt, w') /\
    (exists evs, history w' = evs ++ history w /\
                 export_epochs evs
                 = match fn_save_examples self with
                   | Some _ => [epoch]
                   | None => []
                   end /\
                 generator_updates evs = 0%nat /\
                 discriminator_updates evs = 0%nat /\
                 checkpoint_saves evs = 0%nat) /\
    data_seed w' = data_seed w.
Proof.
  unfold _generate_and_save_examples.
  destruct (fn_save_examples self).
  - unfold bind, lift, first_dim, uniform, get_world, emit.
    destruct (random_uniform _ _ _ _) as [z g]. cbn.
    eexists. split; [reflexivity |]. cbn. split; [| reflexivity].
    eexists [_]. repeat split.
  - exists w. split; [reflexivity |]. split; [| reflexivity].
    exists []. repeat split.
Qed.

(** The checkpoint test adds at most one event, a save, and only ends
    normally. *)
Lemma maybe_checkpoint_run (self : WGAN) (epoch : Z) (w : world)
    (r : result unit) (w' : world) :
  maybe_checkpoint self epoch w = (r, w') ->
  (w' = w /\
   (r = Ok tt ->
    exists v, class_checkpoint_dir = Some v /\
              (truthy_str v = true ->
               epochs_per_save self <> 0%Z /\
               ((epoch + 1) mod epochs_per_save self)%Z <> 0%Z)))
  \/
  (r = Ok tt /\
   (exists v, class_checkpoint_dir = Some v /\ truthy_str v = true) /\
   checkpoint self = true /\
   epochs_per_save self <> 0%Z /\
   ((epoch + 1) mod epochs_per_save self)%Z = 0%Z /\
   exists prefix,
     checkpoint_prefix self = Some prefix /\
     history w' = CheckpointSave prefix (generator_optimizer w)
                    (discriminator_optimizer w) (gen_variables w)
                    (disc_variables w) :: history w /\
     data_seed w' = data_seed w).
Proof.
  unfold maybe_checkpoint, getattr_checkpoint_dir, bind, lift, of_option.
  destruct class_checkpoint_dir as [v |].
  2: { intros [= <- <-]. left. split; [reflexivity | discriminate]. }
  destruct (truthy_str v) eqn:Hv.
  2: { unfold ret. intros [= <- <-]. left. split; [reflexivity |].
       intros _. exists v. split; [reflexivity | congruence]. }
  unfold py_mod. destruct (Z.eqb_spec (epochs_per_save self) 0) as [E0 | E0].
  { intros [= <- <-]. left. split; [reflexivity | discriminate]. }
  destruct (Z.eqb_spec ((epoch + 1) mod epochs_per_save self) 0) as [Em | Em].
  - unfold checkpoint_save. destruct (checkpoint self) eqn:Hc.
    + unfold bind, lift, of_option, get_world, emit.
      destruct (checkpoint_prefix self) as [prefix |] eqn:Hp.
      * intros [= <- <-]. right. cbn. repeat split; eauto.
      * intros [= <- <-]. left. split; [reflexivity | discriminate].
    + unfold raise. intros [= <- <-]. left. split; [reflexivity | discriminate].
  - unfold ret. intros [= <- <-]. left. split; [reflexivity |].
    intros _. exists v. split; [reflexivity |]. auto.
Qed.
End EpochFacts.

Section ScheduleFacts.
Import WGAN.
Context {F : Framework} {B : AbstractModel}.

Lemma div_step (r i : Z) :
  (0 < r)%Z ->
  (i / r = (i - 1) / r + (if (i mod r =? 0)%Z then 1 else 0))%Z.
Proof.
  intros Hr. destruct (Z.eqb_spec (i mod r) 0) as [E | E];
    Z.div_mod_to_equations; nia.
Qed.

Lemma schedule_counts (r : Z) (n : nat) :
  (0 < r)%Z ->
  forall i : Z,
    discriminator_updates (schedule r i n) = n /\
    Z.of_nat (generator_updates (schedule r i n))
    = ((i - 1 + Z.of_nat n) / r - (i - 1) / r)%Z /\
    checkpoint_saves (schedule r i n) = 0%nat /\
    export_epochs (schedule r i n) = [].
Proof.
  intros Hr. induction n as [| n IH]; intros i.
  - cbn. repeat split. rewrite Z.add_0_r. lia.
  - destruct (IH (i + 1)%Z) as (D & G & S' & E).
    cbn [schedule].
    unfold discriminator_updates, generator_updates, checkpoint_saves in *.
    change (DiscriminatorUpdate :: ?l) with ([DiscriminatorUpdate] ++ l).
    rewrite !count_app, !export_epochs_app, D, S', E.
    replace (i + 1 - 1)%Z with i in G by lia.
    replace (i - 1 + Z.of_nat (S n))%Z with (i + Z.of_nat n)%Z by lia.
    pose proof (div_step r i Hr) as Hd.
    destruct ((i mod r =? 0)%Z); cbn; repeat split; try lia.
    all: unfold count in *; cbn; lia.
Qed.

(** From step number one on: the generator is updated once per complete
    group of [r] steps. *)
Lemma schedule_from_one (r : Z) (n : nat) :
  (0 < r)%Z ->
  discriminator_updates (schedule r 1 n) = n /\
  Z.of_nat (generator_updates (schedule r 1 n)) = (Z.of_nat n / r)%Z.
Proof.
  intros Hr. destruct (schedule_counts r n Hr 1) as (D & G & _).
  split; [exact D |]. rewrite G.
  replace (1 - 1)%Z with 0%Z by lia. rewrite Z.div_0_l by lia.
  rewrite Z.add_0_l. lia.
Qed.
End ScheduleFacts.

Section EpochTail.
Import WGAN.
Context {F : Framework} {B : AbstractModel}.
Local Open Scope py_scope.

Lemma last_in {X : Type} (l : list X) :
  forall d : X, In (last l d) (d :: l).
Proof.
  assert (H : forall (l : list X) (d : X), l <> [] -> In (last l d) l).
  { clear l. induction l as [| x l IH]; intros d Hne; [contradiction |].
    destruct l as [| y l']; [now left |].
    right. apply IH. discriminate. }
  intros d. destruct l as [| x l']; [now left |].
  right. apply H. discriminate.
Qed.

Lemma maybe_checkpoint_absent (self : WGAN) (epoch : Z) (w : world) :
  class_checkpoint_dir = None ->
  maybe_checkpoint self epoch w = (Raise (AttributeError "checkpoint_dir"), w).
Proof.
  intros H. unfold maybe_checkpoint, getattr_checkpoint_dir, bind, lift.
  now rewrite H.
Qed.

(** The loop of one epoch in which no step aborts. *)
Lemma train_epoch_split (self : WGAN) (epoch : Z) (w : world) :
  well_configured self ->
  steps_succeed self ->
  exists batches w2,
    train_epoch self epoch w
    = (maybe_checkpoint self epoch ;;; export_last self epoch batches) w2 /\
    length batches = batches_per_epoch self /\
    Forall (batch_of self) batches /\
    history w2 = rev (schedule (generator_training_ratio self) 1
                        (batches_per_epoch self)) ++ history w.
Proof.
  intros (Hr & Hb & Hs) Hsteps.
  destruct (iterate_dataset_spec self w) as
    (batches & w1 & E1 & Hn & Hall & Hh1 & _); [lia | lia | lia |].
  destruct (train_batches_schedule self batches Hsteps) with (i := 1%Z) (w := w1)
    as (w2 & E2 & Hh2 & _); [lia | exact Hall |].
  exists batches, w2. repeat split; auto.
  - unfold train_epoch. unfold bind at 1. rewrite E1.
    unfold bind at 1. rewrite E2. reflexivity.
  - now rewrite Hh2, Hn, Hh1.
Qed.

(** What follows the loop: the checkpoint test, then the export. *)
Lemma epoch_tail_run (self : WGAN) (epoch : Z) (batches : list (tensor R))
    (w : world) (r : result unit) (w' : world) :
  Forall (batch_of self) batches ->
  (maybe_checkpoint self epoch ;;; export_last self epoch batches) w = (r, w') ->
  exists post,
    history w' = post ++ history w /\
    generator_updates post = 0%nat /\
    discriminator_updates post = 0%nat /\
    (checkpoint_saves post <= 1)%nat /\
    (r = Ok tt -> export_epochs post = callback_epochs self (epoch + 1)) /\
    (r <> Ok tt -> export_epochs post = []) /\
    (class_checkpoint_dir = None ->
     r = Raise (AttributeError "checkpoint_dir") /\ post = []).
Proof.
  intros Hall Hrun. unfold bind in Hrun.
  destruct (maybe_checkpoint self epoch w) as [r3 w3] eqn:E3.
  assert (Habs : class_checkpoint_dir = None ->
                 r3 = Raise (AttributeError "checkpoint_dir") /\ w3 = w).
  { intros Hc. rewrite (maybe_checkpoint_absent self epoch w Hc) in E3.
    now injection E3 as <- <-. }
  assert (Hexp : forall w0 r0 w0',
             export_last self epoch batches w0 = (r0, w0') ->
             exists evs, history w0' = evs ++ history w0 /\
               generator_updates evs = 0%nat /\
               discriminator_updates evs = 0%nat /\
               checkpoint_saves evs = 0%nat /\
               (r0 = Ok tt -> export_epochs evs = callback_epochs self (epoch + 1)) /\
               (r0 <> Ok tt -> export_epochs evs = [])).
  { intros w0 r0 w0' E. destruct batches as [| X0 rest].
    - cbn in E. injection E as <- <-. exists []. repeat split. discriminate.
    - cbn [export_last] in E.
      rewrite Forall_forall in Hall.
      destruct (Hall _ (last_in rest X0)) as (l & El & _). rewrite El in E.
      destruct (save_examples_run self (epoch + 1) l w0)
        as (w4 & E4 & (evs & Hh4 & Hx & Hg & Hd & Hc) & _).
      rewrite E4 in E. injection E as <- <-.
      exists evs. repeat split; auto. intros Hne. now contradiction Hne. }
  apply maybe_checkpoint_run in E3.
  destruct E3 as [[-> Hok] | (-> & (v & Hv & _) & _ & _ & _ & prefix & _ & Hh3 & _)].
  - destruct r3 as [[] | e |].
    + destruct (Hexp _ _ _ Hrun) as (evs & H1 & H2 & H3 & H4 & H5 & H6).
      exists evs. repeat split; auto; try lia.
      all: match goal with
           | Hc : class_checkpoint_dir = None |- _ =>
               destruct (Habs Hc) as [? _]; discriminate
           end.
    + injection Hrun as <- <-. exists []. repeat split; auto; try discriminate.
      match goal with
      | Hc : class_checkpoint_dir = None |- _ => now destruct (Habs Hc) as [? _]
      end.
    + injection Hrun as <- <-. exists []. repeat split; auto; try discriminate.
      match goal with
      | Hc : class_checkpoint_dir = None |- _ => now destruct (Habs Hc) as [? _]
      end.
  - destruct (Hexp _ _ _ Hrun) as (evs & H1 & H2 & H3 & H4 & H5 & H6).
    exists (evs ++ [CheckpointSave prefix (generator_optimizer w)
                      (discriminator_optimizer w) (gen_variables w)
                      (disc_variables w)]).
    rewrite H1, Hh3, <- app_assoc.
    unfold generator_updates, discriminator_updates, checkpoint_saves in *.
    rewrite !count_app, !export_epochs_app, H2, H3, H4. cbn.
    split; [reflexivity |]. split; [reflexivity |]. split; [reflexivity |].
    split; [lia |]. split; [| split].
    + intros Hok. rewrite (H5 Hok). now rewrite app_nil_r.
    + intros Hne. rewrite (H6 Hne). reflexivity.
    + intros Hc. congruence.
Qed.

End EpochTail.

(** ** The sample instance runs *)

Section SampleFacts.
Import WGAN.
Local Open Scope R_scope.

Lemma pieces_length {X : Type} (count size : nat) :
  forall data : list X, length (pieces count size data) = count.
Proof.
  induction count as [| c IH]; intros data; [reflexivity |].
  cbn. now rewrite IH.
Qed.

Lemma has_shape_build {X : Type} (d : X) (s : list nat) :
  forall data : list X, has_shape s (build d s data).
Proof.
  induction s as [| n s IH]; intros data; [exact I |].
  cbn [build has_shape]. split.
  - now rewrite length_map, pieces_length.
  - rewrite Forall_forall. intros t Ht.
    apply in_map_iff in Ht as (chunk & <- & _). apply IH.
Qed.

Lemma shape_build_vector {X : Type} (d : X) (n : nat) (data : list X) :
  shape (build d [n] data) = [n].
Proof.
  cbn [build shape]. rewrite length_map, pieces_length. f_equal.
  destruct n; reflexivity.
Qed.

Lemma reshape_flat (X : tensor R) :
  reshape X [(-1)%Z]
  = Ok (build 0 [length (tflatten X)] (tflatten X)).
Proof.
  unfold reshape. cbn [existsb filter fold_right count_occ map].
  change ((-1 <? -1)%Z) with false.
  change ((-1 =? -1)%Z) with true at 1. cbn [negb orb].
  destruct (Z.eq_dec (-1) (-1)) as [_ | Hne]; [| now contradiction Hne].
  change (0 <? 1)%Z with true. rewrite Z.mod_1_r. cbn [andb Z.eqb].
  change ((-1 =? -1)%Z) with true. rewrite Z.div_1_r, Nat2Z.id. reflexivity.
Qed.

#[local] Existing Instance Sample.framework.

(** Every step of the sample model ends with a value. *)
Lemma sample_step_ok (n : nat) (ratio size epochs : Z)
    (checkpoint_dir : option string) (eps : Z) (callback : option string)
    (X : tensor R) (tg td : bool) (w : world) :
  exists v,
    fst (_train_step
           (Sample.model n ratio size epochs checkpoint_dir eps callback)
           X tg td w) = Ok v.
Proof.
  set (self := Sample.model n ratio size epochs checkpoint_dir eps callback).
  unfold _train_step.
  change (d_in_data_shape self) with [(-1)%Z].
  unfold bind at 1, lift at 1. rewrite reshape_flat.
  set (m := length (tflatten X)).
  set (X1 := build 0 [m] (tflatten X)).
  assert (Hfd : first_dim X1 = Ok m).
  { unfold X1. cbn [build first_dim]. now rewrite length_map, pieces_length. }
  unfold bind at 1, lift at 1. rewrite Hfd.
  unfold bind at 1, uniform at 1. cbn [random_uniform Sample.framework
    Sample.framework_with].
  unfold bind at 1, get_world at 1.
  cbv beta iota zeta.
  set (w1 := {| gen_variables := _ |}).
  cbn [gen_variables disc_variables generator discriminator Sample.framework Sample.framework_with] in *.
  set (Zt := build (-1) [m; Z.to_nat (z_dim self)] []).
  assert (Hrows : length (tflatten (Dim (map (fun _ : tensor R => Sc 0) (rows Zt)))) = m).
  { cbn [tflatten]. rewrite flat_map_concat_map, map_map. cbn [tflatten].
    rewrite <- flat_map_concat_map.
    unfold Zt. cbn [build rows]. rewrite flat_map_concat_map, map_map.
    rewrite <- flat_map_concat_map.
    pose proof (pieces_length m (prod_dims [Z.to_nat (z_dim self)]) (@nil R)) as Hl.
    rewrite <- Hl at 2.
    generalize (pieces m (prod_dims [Z.to_nat (z_dim self)]) (@nil R)).
    clear. intros l0. induction l0 as [| c l0 IH]; [reflexivity |].
    cbn. now rewrite IH. }
  unfold bind at 1, lift at 1. rewrite reshape_flat, Hrows.
  set (X2 := build 0 [m] _).
  unfold bind at 1, lift at 1.
  change (assert_last_dim_1 (Dim [Dim [Sc 0]])) with (@Ok unit tt).
  cbv beta iota.
  unfold bind at 1, lift at 1. cbv beta iota.
  unfold bind at 1, uniform at 1.
  cbn [random_uniform Sample.framework Sample.framework_with].
  change (alpha_shape self m) with [m].
  cbv beta iota zeta.
  set (alpha := build 0 [m] []).
  destruct (interpolate_spec self X1 X2 alpha m []) as [Hi _];
    try reflexivity; try apply shape_build_vector; try apply has_shape_build.
  unfold bind at 1, lift at 1. rewrite Hi.
  change (fn_compute_loss self) with _compute_losses.
  unfold bind at 1, lift at 1, _compute_losses, reduce_sum.
  cbn [length Nat.sub seq forallb].
  unfold bind, ret, apply_generator, apply_discriminator.
  destruct tg, td; cbn; eexists; reflexivity.
Qed.
End SampleFacts.

(** ** Updates per epoch *)

Section UpdateCounts.
Import WGAN.
Context {F : Framework} {B : AbstractModel}.
Local Open Scope Z_scope.

(** The updates of one epoch in which no step aborts, whatever the
    checkpoint test and the export do afterwards. *)
Lemma epoch_updates (self : WGAN) (epoch : Z) (w : world) :
  well_configured self ->
  steps_succeed self ->
  let evs := new_events (train_epoch self epoch) w in
  discriminator_updates evs = batches_per_epoch self /\
  Z.of_nat (generator_updates evs)
  = Z.of_nat (batches_per_epoch self) / generator_training_ratio self.
Proof.
  intros Hc Hs.
  destruct (train_epoch_split self epoch w Hc Hs)
    as (batches & w2 & E & Hn & Hall & Hh2).
  destruct (train_epoch self epoch w) as [r w'] eqn:Hrun.
  symmetry in E.
  destruct (epoch_tail_run self epoch batches w2 r w' Hall E)
    as (post & Hh & Hg & Hd & _).
  assert (Hnew : new_events (train_epoch self epoch) w
                 = schedule (generator_training_ratio self) 1
                     (batches_per_epoch self) ++ rev post).
  { rewrite (new_events_of (train_epoch self epoch) w
               (post ++ rev (schedule (generator_training_ratio self) 1
                               (batches_per_epoch self)))).
    - now rewrite rev_app_distr, rev_involutive.
    - rewrite Hrun. cbn [snd]. rewrite Hh, Hh2. now rewrite app_assoc. }
  cbv zeta. rewrite Hnew.
  unfold discriminator_updates, generator_updates in *.
  rewrite !count_app, !count_rev, Hg, Hd.
  destruct Hc as (Hr & _).
  destruct (schedule_from_one (generator_training_ratio self)
              (batches_per_epoch self) Hr) as [D G].
  unfold discriminator_updates, generator_updates in D, G.
  rewrite !Nat.add_0_r, D, <- G. split; reflexivity.
Qed.

Lemma batches_when_divisible (self : WGAN) :
  well_configured self ->
  Z.of_nat (length (raw_dataset self)) mod batch_size self = 0 ->
  Z.of_nat (batches_per_epoch self)
  = generator_training_ratio self
    * (Z.of_nat (length (raw_dataset self)) / batch_size self).
Proof.
  intros (Hr & Hb & _) Hdiv. unfold batches_per_epoch.
  rewrite Nat2Z.inj_div, Nat2Z.inj_sub, Nat2Z.inj_add, Nat2Z.inj_mul by lia.
  rewrite !Z2Nat.id by lia.
  set (N := Z.of_nat (length (raw_dataset self))) in *.
  set (r := generator_training_ratio self) in *.
  set (b := batch_size self) in *.
  change (Z.of_nat 1) with 1.
  assert (HN : N = b * (N / b)) by (apply Z.div_exact; lia).
  set (k := N / b) in *.
  symmetry. apply Z.div_unique with (r := b - 1); [lia |].
  rewrite HN. ring.
Qed.
End UpdateCounts.

(** ** Whole runs *)

Section SavingRuns.
Import WGAN.
Context {F : Framework} {B : AbstractModel}.
Local Open Scope py_scope.

(** The export helper on any tensor: at most one event, an export. *)
Lemma save_examples_events (self : WGAN) (epoch : Z) (X : tensor R)
    (w : world) (r : result unit) (w' : world) :
  _generate_and_save_examples self epoch X w = (r, w') ->
  exists evs,
    history w' = evs ++ history w /\
    generator_updates evs = 0%nat /\
    discriminator_updates evs = 0%nat /\
    checkpoint_saves evs = 0%nat.
Proof.
  unfold _generate_and_save_examples.
  destruct (fn_save_examples self).
  - unfold bind, lift, first_dim, uniform, get_world, emit.
    destruct X as [x | l].
    + intros [= <- <-]. exists []. repeat split.
    + destruct (random_uniform _ _ _ _) as [z g]. cbn.
      intros [= <- <-]. eexists [_]. repeat split.
  - intros [= <- <-]. exists []. repeat split.
Qed.

Lemma iterate_dataset_history (self : WGAN) (w : world)
    (r : result (list (tensor R))) (w' : world) :
  iterate_dataset self w = (r, w') -> history w' = history w.
Proof.
  unfold iterate_dataset.
  destruct (generator_training_ratio self <? 0)%Z.
  - destruct (raw_dataset self); intros [= <- <-]; reflexivity.
  - destruct (repeat_shuffled _ _ _ _). intros [= <- <-]. reflexivity.
Qed.

(** Without a truthy class attribute, no epoch saves a checkpoint; without
    the attribute, no epoch ends normally. *)
Lemma train_epoch_no_save (self : WGAN) (epoch : Z) (w : world)
    (r : result unit) (w' : world) :
  (forall v, class_checkpoint_dir = Some v -> truthy_str v = false) ->
  train_epoch self epoch w = (r, w') ->
  (exists evs, history w' = evs ++ history w /\ checkpoint_saves evs = 0%nat) /\
  (class_checkpoint_dir = None -> r <> Ok tt).
Proof.
  intros Hfalsy Hrun. unfold train_epoch in Hrun. unfold bind at 1 in Hrun.
  destruct (iterate_dataset self w) as [r1 w1] eqn:E1.
  apply iterate_dataset_history in E1.
  destruct r1 as [batches | e |].
  2,3: injection Hrun as <- <-; split; [exists []; split; auto | discriminate].
  unfold bind at 1 in Hrun.
  destruct (train_batches self 1 batches w1) as [r2 w2] eqn:E2.
  apply train_batches_updates in E2 as (evs2 & Hh2 & Hu2 & _).
  destruct (count_updates_only evs2 Hu2) as [Hs2 _].
  rewrite E1 in Hh2.
  destruct r2 as [[] | e |].
  2,3: injection Hrun as <- <-; split; [exists evs2; split; auto | discriminate].
  unfold bind at 1 in Hrun.
  destruct (maybe_checkpoint self epoch w2) as [r3 w3] eqn:E3.
  pose proof E3 as E3'. apply maybe_checkpoint_run in E3'.
  destruct E3' as [[-> Hok] | (_ & (v & Hv & Ht) & _)].
  2: { rewrite (Hfalsy v Hv) in Ht. discriminate. }
  destruct r3 as [[] | e |].
  2,3: injection Hrun as <- <-; split; [exists evs2; split; auto | discriminate].
  split.
  - assert (Hex : exists evs, history w' = evs ++ history w2 /\
                              checkpoint_saves evs = 0%nat).
    { unfold export_last in Hrun. destruct batches as [| X0 rest].
      - injection Hrun as <- <-. exists []. split; reflexivity.
      - apply save_examples_events in Hrun as (evs & H1 & _ & _ & H4).
        exists evs. split; assumption. }
    destruct Hex as (evs & H1 & H4).
    exists (evs ++ evs2). rewrite H1, Hh2, app_assoc.
    unfold checkpoint_saves in *. rewrite count_app, H4, Hs2. split; reflexivity.
  - intros Hc. rewrite (maybe_checkpoint_absent self epoch w2 Hc) in E3.
    discriminate.
Qed.

Lemma for_epochs_no_save (self : WGAN) (count : nat) :
  (forall v, class_checkpoint_dir = Some v -> truthy_str v = false) ->
  forall (first : Z) (w : world) (r : result unit) (w' : world),
    for_epochs self first count w = (r, w') ->
    (exists evs, history w' = evs ++ history w /\ checkpoint_saves evs = 0%nat) /\
    (class_checkpoint_dir = None -> (0 < count)%nat -> r <> Ok tt).
Proof.
  intros Hfalsy. induction count as [| c IH]; intros first w r w' Hrun.
  - injection Hrun as <- <-. split; [exists []; split; reflexivity | lia].
  - cbn [for_epochs] in Hrun. unfold bind at 1 in Hrun.
    destruct (train_epoch self first w) as [r1 w1] eqn:E1.
    apply (train_epoch_no_save self first w r1 w1 Hfalsy) in E1
      as [(evs1 & H1 & S1) Hne].
    destruct r1 as [[] | e |].
    + destruct (IH _ _ _ _ Hrun) as [(evs & H & S0) _]. split.
      * exists (evs ++ evs1). rewrite H, H1, app_assoc.
        unfold checkpoint_saves in *. rewrite count_app, S0, S1.
        split; reflexivity.
      * intros Hc _. now contradiction (Hne Hc).
    + injection Hrun as <- <-. split; [exists evs1; auto | discriminate].
    + injection Hrun as <- <-. split; [exists evs1; auto | discriminate].
Qed.

Lemma train_no_save (self : WGAN) (w : world) :
  (forall v, class_checkpoint_dir = Some v -> truthy_str v = false) ->
  checkpoint_saves (new_events (train self) w) = 0%nat /\
  (class_checkpoint_dir = None -> (0 < epochs self)%Z ->
   fst (train self w) <> Ok tt).
Proof.
  intros Hfalsy.
  destruct (train self w) as [r w'] eqn:Hrun. pose proof Hrun as Hrun'.
  unfold train in Hrun. unfold bind at 1 in Hrun.
  destruct (_generate_and_save_examples self 0 _ w) as [r0 w0] eqn:E0.
  apply save_examples_events in E0 as (evs0 & H0 & _ & _ & S0).
  destruct r0 as [[] | e |].
  - apply (for_epochs_no_save self _ Hfalsy) in Hrun as [(evs & H & S1) Hne].
    split.
    + rewrite (new_events_of (train self) w (evs ++ evs0)).
      * unfold checkpoint_saves in *. now rewrite count_rev, count_app, S0, S1.
      * rewrite Hrun'. cbn [snd]. now rewrite H, H0, app_assoc.
    + intros Hc He. cbn [fst]. apply Hne; [exact Hc | lia].
  - injection Hrun as <- <-. split.
    + rewrite (new_events_of (train self) w evs0).
      * unfold checkpoint_saves in *. now rewrite count_rev.
      * now rewrite Hrun'.
    + discriminate.
  - injection Hrun as <- <-. split.
    + rewrite (new_events_of (train self) w evs0).
      * unfold checkpoint_saves in *. now rewrite count_rev.
      * now rewrite Hrun'.
    + discriminate.
Qed.
End SavingRuns.

Section OneEpochRuns.
Import WGAN.
Context {F : Framework} {B : AbstractModel}.
Local Open Scope py_scope.

(** With a truthy class attribute but no [checkpoint] attribute on the
    instance, the first save that falls due raises. *)
Lemma train_epoch_missing_checkpoint (self : WGAN) (epoch : Z) (w : world)
    (v : option string) :
  class_checkpoint_dir = Some v -> truthy_str v = true ->
  checkpoint self = false -> epochs_per_save self = 1%Z ->
  fst (train_epoch self epoch w) <> Ok tt.
Proof.
  intros Hv Ht Hc He. unfold train_epoch. unfold bind at 1.
  destruct (iterate_dataset self w) as [[batches | e |] w1]; try discriminate.
  unfold bind at 1.
  destruct (train_batches self 1 batches w1) as [[[] | e |] w2]; try discriminate.
  unfold bind at 1.
  unfold maybe_checkpoint, getattr_checkpoint_dir, bind, lift, of_option, py_mod,
    checkpoint_save, raise.
  rewrite Hv, Ht, He, Hc. cbn [Z.eqb]. rewrite Z.mod_1_r. cbn.
  discriminate.
Qed.

Lemma for_epochs_first (self : WGAN) (first : Z) (count : nat) (w : world) :
  (0 < count)%nat ->
  fst (train_epoch self first w) <> Ok tt ->
  fst (for_epochs self first count w) <> Ok tt.
Proof.
  intros Hc Hne. destruct count as [| c]; [lia |].
  cbn [for_epochs]. unfold bind at 1.
  destruct (train_epoch self first w) as [[[] | e |] w1]; cbn in *;
    try discriminate. now contradiction Hne.
Qed.

Lemma train_missing_checkpoint (self : WGAN) (w : world) (v : option string) :
  class_checkpoint_dir = Some v -> truthy_str v = true ->
  checkpoint self = false -> epochs_per_save self = 1%Z ->
  (0 < epochs self)%Z ->
  fst (train self w) <> Ok tt.
Proof.
  intros Hv Ht Hc He Hep. unfold train. unfold bind at 1.
  destruct (_generate_and_save_examples self 0 _ w) as [[[] | e |] w0];
    try discriminate.
  apply for_epochs_first; [lia |].
  now apply (train_epoch_missing_checkpoint self 0 w0 v).
Qed.

Lemma init_fields (raw : list (tensor R)) (ds dins : list Z)
    (zd ratio size ep : Z) (dir : option string) (eps : Z)
    (loss : loss_fn) (cb : option string) (self : WGAN) :
  __init__ raw ds dins zd ratio size ep dir eps loss cb = Ok self ->
  raw_dataset self = raw /\
  d_in_data_shape self = dins /\
  generator_training_ratio self = ratio /\
  batch_size self = size /\ (0 < size)%Z /\
  buffer_size self = 1000%Z /\
  epochs self = ep /\
  epochs_per_save self = eps /\
  fn_compute_loss self = loss /\
  fn_save_examples self = cb /\
  checkpoint self = truthy_str dir.
Proof.
  unfold __init__. destruct (Z.ltb_spec size 1) as [Hlt | Hge]; [discriminate |].
  intros [= <-]. cbn. repeat split. lia.
Qed.

Lemma export_epochs_rev (l : list event) :
  export_epochs (rev l) = rev (export_epochs l).
Proof.
  induction l as [| e l IH]; [reflexivity |].
  cbn [rev]. rewrite export_epochs_app, IH. cbn.
  destruct (export_epoch e); cbn; [reflexivity | now rewrite app_nil_r].
Qed.

Lemma rev_callback_epochs (self : WGAN) (epoch : Z) :
  rev (callback_epochs self epoch) = callback_epochs self epoch.
Proof. unfold callback_epochs. now destruct (fn_save_examples self). Qed.

(** A run of one epoch in which no step aborts: the first export, the
    schedule of the loop, then what follows the loop. *)
Lemma train_one_epoch (self : WGAN) (w : world) :
  well_configured self ->
  steps_succeed self ->
  epochs self = 1%Z ->
  exists first after,
    new_events (train self) w
    = first ++ schedule (generator_training_ratio self) 1
                 (batches_per_epoch self) ++ after /\
    export_epochs first = callback_epochs self 0 /\
    generator_updates first = 0%nat /\ discriminator_updates first = 0%nat /\
    generator_updates after = 0%nat /\ discriminator_updates after = 0%nat /\
    (fst (train self w) = Ok tt -> export_epochs after = callback_epochs self 1) /\
    (class_checkpoint_dir = None ->
     fst (train self w) = Raise (AttributeError "checkpoint_dir") /\ after = []).
Proof.
  intros Hc Hs He.
  destruct (train self w) as [r w'] eqn:Hrun. pose proof Hrun as Hrun'.
  unfold train in Hrun. rewrite He in Hrun. unfold bind at 1 in Hrun.
  destruct (save_examples_run self 0
              (firstn (Z.to_nat (batch_size self)) (raw_dataset self)) w)
    as (w0 & E0 & (evs0 & H0 & X0 & G0 & D0 & _) & _).
  rewrite E0 in Hrun.
  change (Z.to_nat 1) with 1%nat in Hrun. cbn [for_epochs] in Hrun.
  unfold bind at 1 in Hrun.
  destruct (train_epoch_split self 0 w0 Hc Hs)
    as (batches & w2 & E & Hn & Hall & Hh2).
  destruct (train_epoch self 0 w0) as [r1 w1] eqn:E1.
  symmetry in E.
  destruct (epoch_tail_run self 0 batches w2 r1 w1 Hall E)
    as (post & Hh & Hg & Hd & _ & Hx1 & Hx2 & Habs).
  assert (Hw : w' = w1 /\ r = r1).
  { destruct r1 as [[] | e |]; injection Hrun as <- <-; auto. }
  destruct Hw as [-> ->].
  exists (rev evs0), (rev post).
  unfold generator_updates, discriminator_updates in *.
  rewrite !count_rev. repeat split; auto.
  - rewrite (new_events_of (train self) w
               (post ++ rev (schedule (generator_training_ratio self) 1
                               (batches_per_epoch self)) ++ evs0)).
    + now rewrite !rev_app_distr, rev_involutive, <- app_assoc.
    + rewrite Hrun'. cbn [snd]. rewrite Hh, Hh2, H0.
      now rewrite <- !app_assoc.
  - rewrite export_epochs_rev, X0. unfold callback_epochs.
    now destruct (fn_save_examples self).
  - intros Hok. cbn [fst] in Hok.
    now rewrite export_epochs_rev, (Hx1 Hok), rev_callback_epochs.
  - now destruct (Habs H).
  - destruct (Habs H) as [_ ->]. reflexivity.
Qed.
End OneEpochRuns.

(** ** The update ratio and the end-to-end scenario *)

Section RatioClaims.
Import WGAN.
Local Open Scope Z_scope.

Lemma sample_steps_succeed (n : nat) (ratio size ep : Z)
    (dir : option string) (eps : Z) (cb : option string) :
  @steps_succeed Sample.framework
    (@Sample.model Sample.framework n ratio size ep dir eps cb).
Proof. intros X tg td w _. apply sample_step_ok. Qed.

(** C2 (amended).  In one epoch none of whose steps aborts, every batch of
    the derived view brings one discriminator update and every [r]-th batch
    one generator update after it.  With [D] the number of batches, the
    discriminator is updated [D] times and the generator [floor (D / r)]
    times, so [r * G <= D < r * G + r]: the last, incomplete group of steps
    brings no generator update.  [D = r * G] holds when the batch size
    divides the number of examples. *)
Theorem update_ratio_per_epoch {F : Framework} {B : AbstractModel}
    (self : WGAN) (epoch : Z) (w : world) :
  well_configured self ->
  steps_succeed self ->
  let evs := new_events (train_epoch self epoch) w in
  let d := Z.of_nat (discriminator_updates evs) in
  let g := Z.of_nat (generator_updates evs) in
  let r := generator_training_ratio self in
  d = Z.of_nat (batches_per_epoch self) /\
  g = d / r /\
  r * g <= d < r * g + r /\
  (Z.of_nat (length (raw_dataset self)) mod batch_size self = 0 -> d = r * g).
Proof.
  intros Hc Hs. destruct (epoch_updates self epoch w Hc Hs) as [D G].
  cbv zeta. rewrite D, G.
  pose proof Hc as (Hr & _).
  set (r := generator_training_ratio self) in *.
  set (d := Z.of_nat (batches_per_epoch self)) in *.
  split; [reflexivity |]. split; [reflexivity |]. split.
  - pose proof (Z.mul_div_le d r Hr).
    pose proof (Z.mul_succ_div_gt d r Hr). lia.
  - intros Hdiv. unfold d.
    rewrite (batches_when_divisible self Hc Hdiv).
    fold r. rewrite (Z.mul_comm r), Z.div_mul by lia. ring.
Qed.

(** Four examples, batches of two, ratio two: four discriminator updates,
    two generator updates. *)
Lemma update_ratio_per_epoch_witness :
  let self := @Sample.model Sample.framework 4 2 2 1 None 10 None in
  let evs := new_events
               (@train_epoch Sample.framework Sample.no_base_attribute self 0)
               (@Sample.initial_world Sample.framework 0 0 0 0 0)%nat in
  Z.of_nat (discriminator_updates evs) = 4 /\
  Z.of_nat (generator_updates evs) = 4 / 2.
Proof.
  intros self evs.
  destruct (@update_ratio_per_epoch Sample.framework Sample.no_base_attribute
              self 0 (@Sample.initial_world Sample.framework 0 0 0 0 0)%nat)
    as (D & G & _).
  - repeat split; reflexivity.
  - apply sample_steps_succeed.
  - fold evs in D, G. split; [exact D |]. rewrite G, D. reflexivity.
Defined.

(** C2 as stated fails: one example, batches of two, ratio three.  The
    three elements of the view make two batches: two discriminator updates
    and no generator update. *)
Lemma update_ratio_counterexample :
  let self := @Sample.model Sample.framework 1 3 2 1 None 10 None in
  let evs := new_events
               (@train_epoch Sample.framework Sample.no_base_attribute self 0)
               (@Sample.initial_world Sample.framework 0 0 0 0 0)%nat in
  discriminator_updates evs = 2%nat /\
  generator_updates evs = 0%nat /\
  Z.of_nat (discriminator_updates evs)
  <> generator_training_ratio self * Z.of_nat (generator_updates evs).
Proof.
  intros self evs.
  destruct (@epoch_updates Sample.framework Sample.no_base_attribute
              self 0 (@Sample.initial_world Sample.framework 0 0 0 0 0)%nat)
    as (D & G).
  - repeat split; reflexivity.
  - apply sample_steps_succeed.
  - fold evs in D, G.
    change (batches_per_epoch self) with 2%nat in D, G.
    change (Z.of_nat 2 / generator_training_ratio self) with 0 in G.
    assert (G0 : generator_updates evs = 0%nat) by lia.
    rewrite D, G0. repeat split. discriminate.
Qed.
End RatioClaims.

Section NormalEnd.
Import WGAN.
Context {F : Framework} {B : AbstractModel}.
Local Open Scope py_scope.

Lemma maybe_checkpoint_falsy (self : WGAN) (epoch : Z) (w : world)
    (v : option string) :
  class_checkpoint_dir = Some v -> truthy_str v = false ->
  maybe_checkpoint self epoch w = (Ok tt, w).
Proof.
intros Hv Ht.
unfold maybe_checkpoint, getattr_checkpoint_dir, bind, lift, of_option.
now rewrite Hv, Ht.
Qed.

(** With a base class whose [checkpoint_dir] is false, a run of one epoch
    none of whose steps aborts ends normally. *)
Lemma train_ends_normally (self : WGAN) (w : world) (v : option string) :
  well_configured self ->
  steps_succeed self ->
  epochs self = 1%Z ->
  (0 < batches_per_epoch self)%nat ->
  class_checkpoint_dir = Some v -> truthy_str v = false ->
  fst (train self w) = Ok tt.
Proof.
intros Hc Hs He Hn Hv Ht.
unfold train. rewrite He. unfold bind at 1.
destruct (save_examples_run self 0
            (firstn (Z.to_nat (batch_size self)) (raw_dataset self)) w)
  as (w0 & E0 & _).
rewrite E0. change (Z.to_nat 1) with 1%nat. cbn [for_epochs]. unfold bind at 1.
destruct (train_epoch_split self 0 w0 Hc Hs)
  as (batches & w2 & E & Hlen & Hall & _).
rewrite E. unfold bind at 1.
rewrite (maybe_checkpoint_falsy self 0 w2 v Hv Ht).
destruct batches as [| X0 rest]; [cbn in Hlen; lia |].
cbn [export_last].
rewrite Forall_forall in Hall.
destruct (Hall _ (last_in rest X0)) as (l & El & _). rewrite El.
destruct (save_examples_run self (0 + 1) l w2) as (w4 & E4 & _).
rewrite E4. reflexivity.
Qed.
End NormalEnd.

Section EndToEnd.
Import WGAN.
Local Open Scope Z_scope.

(** The updates of a run of one epoch over 100 examples in batches of 16
    with ratio 5, and its exports. *)
Lemma one_epoch_100_16_5 {F : Framework} {B : AbstractModel}
    (self : WGAN) (w : world) :
  length (raw_dataset self) = 100%nat ->
  batch_size self = 16 -> generator_training_ratio self = 5 ->
  buffer_size self = 1000 -> epochs self = 1 ->
  steps_succeed self ->
  let evs := new_events (train self) w in
  discriminator_updates evs = 32%nat /\
  generator_updates evs = 6%nat /\
  (exists first after,
     evs = first ++ schedule 5 1 32 ++ after /\
     export_epochs first = callback_epochs self 0 /\
     generator_updates first = 0%nat /\ discriminator_updates first = 0%nat /\
     generator_updates after = 0%nat /\ discriminator_updates after = 0%nat /\
     (fst (train self w) = Ok tt ->
      export_epochs after = callback_epochs self 1)) /\
  (fst (train self w) = Ok tt ->
   export_epochs evs = callback_epochs self 0 ++ callback_epochs self 1).
Proof.
intros HN Hb Hr Hbuf He Hs.
assert (Hc : well_configured self).
{ unfold well_configured. rewrite Hb, Hr, Hbuf. repeat split. }
destruct (train_one_epoch self w Hc Hs He)
  as (first & after & Hev & X0 & G0 & D0 & G1 & D1 & X1 & _).
assert (Hn : batches_per_epoch self = 32%nat).
{ unfold batches_per_epoch. rewrite Hb, Hr, HN. reflexivity. }
rewrite Hn, Hr in Hev.
destruct (schedule_counts 5 32 eq_refl 1) as (D & G & _ & E).
change ((1 - 1 + Z.of_nat 32) / 5 - (1 - 1) / 5) with 6 in G.
assert (G' : generator_updates (schedule 5 1 32) = 6%nat) by lia.
cbv zeta. rewrite Hev.
unfold discriminator_updates, generator_updates in *.
rewrite !count_app, !export_epochs_app, D, G', D0, D1, G0, G1, E.
split; [reflexivity |]. split; [reflexivity |]. split.
- exists first, after. repeat split; auto.
- intros Hok. now rewrite X0, (X1 Hok).
Qed.

(** C3 (amended).  For a model built by the constructor over 100 examples
    with [batch_size=16], [generator_training_ratio=5] and [epochs=1], a
    run none of whose steps aborts performs exactly 32 discriminator updates
    (the 500 elements of the shuffled, five times repeated view in batches of
    16) and 6 generator updates.  The export call tagged epoch 0 comes before
    all of them; a run that ends normally has made exactly the two export
    calls tagged 0 and 1, in this order. *)
Theorem end_to_end_scenario {F : Framework} {B : AbstractModel}
    (raw : list (tensor R)) (ds dins : list Z) (zd : Z) (dir : option string)
    (eps : Z) (loss : loss_fn) (cb : string) (self : WGAN) (w : world) :
  length raw = 100%nat ->
  __init__ raw ds dins zd 5 16 1 dir eps loss (Some cb) = Ok self ->
  steps_succeed self ->
  let evs := new_events (train self) w in
  discriminator_updates evs = 32%nat /\
  generator_updates evs = 6%nat /\
  (exists first after,
     evs = first ++ schedule 5 1 32 ++ after /\
     export_epochs first = [0] /\
     generator_updates first = 0%nat /\ discriminator_updates first = 0%nat /\
     generator_updates after = 0%nat /\ discriminator_updates after = 0%nat) /\
  (fst (train self w) = Ok tt -> export_epochs evs = [0; 1]).
Proof.
intros HN Hinit Hs.
destruct (init_fields _ _ _ _ _ _ _ _ _ _ _ _ Hinit)
  as (Hraw & _ & Hr & Hb & _ & Hbuf & He & _ & _ & Hcb & _).
rewrite <- Hraw in HN.
destruct (one_epoch_100_16_5 self w HN Hb Hr Hbuf He Hs)
  as (D & G & (first & after & Hev & X0 & G0 & D0 & G1 & D1 & _) & X).
unfold callback_epochs in X0, X. rewrite Hcb in X0, X.
cbv zeta. split; [exact D |]. split; [exact G |]. split; [| exact X].
exists first, after. repeat split; auto.
Qed.

(** The scenario on the sample instance, whose base class holds a
    [checkpoint_dir] of [None]: the run ends normally. *)
Lemma end_to_end_scenario_witness :
  let self := @Sample.model Sample.framework 100 5 16 1 None 10 (Some "save"%string) in
  let w := (@Sample.initial_world Sample.framework 0 0 0 0 0)%nat in
  let evs := new_events
               (@train Sample.framework (Sample.base_attribute None) self) w in
  discriminator_updates evs = 32%nat /\ generator_updates evs = 6%nat /\
  fst (@train Sample.framework (Sample.base_attribute None) self w) = Ok tt /\
  export_epochs evs = [0; 1].
Proof.
intros self w evs.
assert (Hok : fst (@train Sample.framework (Sample.base_attribute None) self w)
              = Ok tt).
{ apply (@train_ends_normally Sample.framework (Sample.base_attribute None)
           self w None); try reflexivity.
  - repeat split; reflexivity.
  - apply sample_steps_succeed.
  - change (batches_per_epoch self) with 32%nat. lia. }
destruct (@end_to_end_scenario Sample.framework (Sample.base_attribute None)
            (repeat (Sc 0%R) 100) [-1] [-1] 1 None 10
            (@_compute_losses Sample.framework) "save"%string self w)
  as (D & G & _ & X).
- reflexivity.
- reflexivity.
- apply sample_steps_succeed.
- split; [exact D |]. split; [exact G |]. split; [exact Hok | exact (X Hok)].
Defined.

(** C3 as stated fails: the run makes 32 discriminator updates, not 35, and
    6 generator updates, not 7. *)
Lemma end_to_end_counterexample :
  let self := @Sample.model Sample.framework 100 5 16 1 None 10 (Some "save"%string) in
  let w := (@Sample.initial_world Sample.framework 0 0 0 0 0)%nat in
  let evs := new_events
               (@train Sample.framework (Sample.base_attribute None) self) w in
  discriminator_updates evs = 32%nat /\ generator_updates evs = 6%nat /\
  discriminator_updates evs <> 35%nat /\ generator_updates evs <> 7%nat.
Proof.
intros self w evs.
destruct (@one_epoch_100_16_5 Sample.framework (Sample.base_attribute None) self w)
  as (D & G & _); try reflexivity.
- apply sample_steps_succeed.
- fold evs in D, G. rewrite D, G. repeat split; discriminate.
Qed.
End EndToEnd.

(** ** The checkpoint cadence *)

Section CheckpointClaims.
Import WGAN.
Local Open Scope Z_scope.

(** C7 (defect in the code).  The constructor never stores its
    [checkpoint_dir] argument, while [train] tests [self.checkpoint_dir]; the
    test is answered by the base class alone.  For a model built by the
    constructor with at least one epoch: if the base class has no such
    attribute, the run raises at the end of the first epoch and saves nothing;
    if its attribute is false, no run ever saves, whatever directory was
    configured; if its attribute is true, a run constructed without a
    directory raises as soon as a save falls due.  In no case does saving
    follow the configured destination as the documentation of the constructor
    says. *)
Theorem checkpoint_dir_never_stored {F : Framework} {B : AbstractModel}
    (raw : list (tensor R)) (ds dins : list Z) (zd ratio size ep : Z)
    (dir : option string) (eps : Z) (loss : loss_fn) (cb : option string)
    (self : WGAN) (w : world) :
  __init__ raw ds dins zd ratio size ep dir eps loss cb = Ok self ->
  0 < ep ->
  (class_checkpoint_dir = None ->
   fst (train self w) <> Ok tt /\
   checkpoint_saves (new_events (train self) w) = 0%nat) /\
  (forall v, class_checkpoint_dir = Some v -> truthy_str v = false ->
   checkpoint_saves (new_events (train self) w) = 0%nat) /\
  (forall v, class_checkpoint_dir = Some v -> truthy_str v = true ->
   truthy_str dir = false -> eps = 1 ->
   fst (train self w) <> Ok tt).
Proof.
intros Hinit Hep.
destruct (init_fields _ _ _ _ _ _ _ _ _ _ _ _ Hinit)
  as (_ & _ & _ & _ & _ & _ & He & Heps & _ & _ & Hck).
split; [| split].
- intros Hc.
  destruct (train_no_save self w) as [S0 Hne].
  { intros v Hv. congruence. }
  split; [apply Hne; [exact Hc | lia] | exact S0].
- intros v Hv Ht.
  destruct (train_no_save self w) as [S0 _]; [| exact S0].
  intros v' Hv'. congruence.
- intros v Hv Ht Hd He1.
  apply (train_missing_checkpoint self w v Hv Ht); try lia; congruence.
Qed.

(** A model configured with the directory ["ckpts"], one epoch and a save
    due at every epoch: under a base class without the attribute the run
    raises and saves nothing. *)
Lemma checkpoint_dir_never_stored_witness :
  let self := @Sample.model Sample.framework 4 2 2 1 (Some "ckpts"%string) 1 None in
  let w := (@Sample.initial_world Sample.framework 0 0 0 0 0)%nat in
  fst (@train Sample.framework Sample.no_base_attribute self w) <> Ok tt /\
  checkpoint_saves
    (new_events (@train Sample.framework Sample.no_base_attribute self) w) = 0%nat.
Proof.
intros self w.
destruct (@checkpoint_dir_never_stored Sample.framework Sample.no_base_attribute
            (repeat (Sc 0%R) 4) [-1] [-1] 1 2 2 1 (Some "ckpts"%string) 1
            (@_compute_losses Sample.framework) None self w)
  as (H & _).
- reflexivity.
- reflexivity.
- exact (H eq_refl).
Defined.
End CheckpointClaims.

(** ** The shape assertions of a step *)

Section AssertionClaims.
Import WGAN.
Local Open Scope py_scope.




End AssertionClaims.

(** ** The interpolation boundary *)

Section InterpolationClaims.
Import WGAN.
Local Open Scope R_scope.





End InterpolationClaims.

(** ** The default losses *)

Section LossClaims.
Import WGAN.
Local Open Scope R_scope.

Lemma Rsum_app (l1 l2 : list R) : Rsum (l1 ++ l2) = Rsum l1 + Rsum l2.
Proof.
unfold Rsum. induction l1 as [| x l1 IH]; cbn; [ring |]. rewrite IH. ring.
Qed.

Lemma Rsum_flat_map {X : Type} (g : X -> list R) (l : list X) :
  Rsum (flat_map g l) = Rsum (map (fun x => Rsum (g x)) l).
Proof.
induction l as [| x l IH]; cbn; [reflexivity |].
now rewrite Rsum_app, IH.
Qed.

Lemma fold_left_scalars (xs : list R) :
  forall a : R, fold_left (tzip Rplus) (map Sc xs) (Sc a) = Sc (a + Rsum xs).
Proof.
unfold Rsum. induction xs as [| x xs IH]; intros a; cbn.
- f_equal. ring.
- rewrite IH. f_equal. ring.
Qed.

Lemma tsum_scalars (xs : list R) : tsum (map Sc xs) = Sc (Rsum xs).
Proof.
destruct xs as [| x xs]; [reflexivity |].
cbn [map tsum]. rewrite fold_left_scalars. reflexivity.
Qed.

(** Reducing over every axis of a tensor leaves the sum of its entries. *)
Lemma reduce_from_all (axes : list nat) (t : tensor R) :
  forall (s : list nat) (d : nat),
    has_shape s t ->
    (forall j, (d <= j < d + length s)%nat -> existsb (Nat.eqb j) axes = true) ->
    reduce_from axes d t = Sc (Rsum (tflatten t)).
Proof.
induction t as [x | l IH] using tensor_ind'; intros s d Hs Hax.
- unfold Rsum. cbn. f_equal. ring.
- destruct s as [| n s]; [contradiction |]. destruct Hs as [Hl Fl].
  cbn [reduce_from tflatten].
  rewrite (Hax d) by (cbn [length]; lia).
  assert (E : map (reduce_from axes (S d)) l
              = map Sc (map (fun t => Rsum (tflatten t)) l)).
  { rewrite map_map. apply map_ext_in. intros t Ht.
    rewrite Forall_forall in IH, Fl.
    apply (IH t Ht s (S d) (Fl t Ht)).
    intros j Hj. apply Hax. cbn [length]. lia. }
  rewrite E, tsum_scalars, Rsum_flat_map. reflexivity.
Qed.

Lemma existsb_seq (j a n : nat) :
  (a <= j < a + n)%nat -> existsb (Nat.eqb j) (seq a n) = true.
Proof.
intros H. apply existsb_exists. exists j. split.
- apply in_seq. lia.
- apply Nat.eqb_refl.
Qed.

Lemma not_axis_0 (n : nat) : existsb (Nat.eqb 0) (seq 1 n) = false.
Proof.
destruct (existsb (Nat.eqb 0) (seq 1 n)) eqn:E; [| reflexivity].
apply existsb_exists in E as (j & Hj & Ej).
apply in_seq in Hj. apply Nat.eqb_eq in Ej. lia.
Qed.

(** The per-example sums of squares, as [tf.reduce_sum] over the axes
    [1 .. k-1] computes them. *)
Lemma reduce_sum_per_example (grad : tensor R) (n : nat) (s : list nat) :
  shape grad = n :: s -> has_shape (n :: s) grad ->
  reduce_sum (tmap (fun g => g * g) grad) (seq 1 (length s))
  = Some (Dim (map (fun g => Sc (Rsum (map (fun v => v * v) (tflatten g))))
                 (rows grad))).
Proof.
intros Hsh Hs. unfold reduce_sum.
assert (Hrank : rank (tmap (fun g => g * g) grad) = S (length s)).
{ unfold rank. now rewrite shape_tmap, Hsh. }
rewrite Hrank.
assert (Hin : forallb (fun a => (a <? S (length s))%nat) (seq 1 (length s)) = true).
{ apply forallb_forall. intros a Ha. apply in_seq in Ha.
  apply Nat.ltb_lt. lia. }
rewrite Hin. f_equal.
destruct grad as [| l]; [contradiction |]. destruct Hs as [Hl Fl].
cbn [tmap reduce_from rows]. rewrite not_axis_0. f_equal.
rewrite map_map. apply map_ext_in. intros g Hg.
rewrite Forall_forall in Fl.
rewrite (reduce_from_all (seq 1 (length s)) (tmap (fun v => v * v) g) s 1).
- now rewrite tflatten_tmap.
- apply has_shape_tmap. now apply Fl.
- intros j Hj. now apply existsb_seq.
Qed.

Lemma flat_map_scalars {X : Type} (h : X -> R) (l : list X) :
  flat_map tflatten (map (fun x => Sc (h x)) l) = map h l.
Proof.
induction l as [| x l IH]; cbn; [reflexivity | now rewrite IH].
Qed.

(** C1.  For every pair of score tensors and every interpolated batch whose
    gradient has the discriminator input shape [(n, s...)], the default loss
    function returns [generator_loss = mean d_fake] and [discriminator_loss =
    (mean d_real - mean d_fake) + 10 * mean ((|g| - 1)^2)], where [g] is the
    gradient of the discriminator's score at the interpolated sample and [|g|]
    its L2 norm per example, the squares summed over every axis but the first.
    The coefficient 10 depends on no argument. *)
Theorem compute_losses_wgan_gp {F : Framework} (d_in_data_shape : list Z)
    (critic : tensor R -> tensor R) (d_real d_fake interpolated : tensor R)
    (n : nat) (s : list nat) :
  let grad := input_gradient critic interpolated in
  length d_in_data_shape = S (length s) ->
  shape grad = n :: s -> has_shape (n :: s) grad ->
  _compute_losses d_in_data_shape critic d_real d_fake interpolated
  = Ok (reduce_mean d_fake,
        (reduce_mean d_real - reduce_mean d_fake) + 10 * gradient_penalty grad).
Proof.
intros grad Hd Hsh Hs. unfold _compute_losses. fold grad.
rewrite Hd. cbn [Nat.sub]. rewrite Nat.sub_0_r.
rewrite (reduce_sum_per_example grad n s Hsh Hs).
do 3 f_equal.
unfold gradient_penalty, reduce_mean, l2_norm.
cbn [tmap]. rewrite !map_map. cbn [tmap tflatten].
rewrite (flat_map_scalars
           (fun g => (sqrt (Rsum (map (fun v => v * v) (tflatten g))) - 1) ^ 2)).
now rewrite length_map.
Qed.

(** Two examples of shape [(2)] whose gradients are [(3, 4)] and [(0, 0)]:
    the norms are the square roots of 25 and of 0. *)
Lemma compute_losses_wgan_gp_witness :
  let d_real := Dim [Dim [Sc 1]; Dim [Sc 3]] in
  let d_fake := Dim [Dim [Sc 2]; Dim [Sc 6]] in
  let interp := Dim [Dim [Sc 3; Sc 4]; Dim [Sc 0; Sc 0]] in
  @_compute_losses Sample.framework [-1; 2]%Z (fun _ => d_real) d_real d_fake interp
  = Ok ((2 + (6 + 0)) / INR 2,
        ((1 + (3 + 0)) / INR 2 - (2 + (6 + 0)) / INR 2)
        + 10 * (((sqrt (3 * 3 + (4 * 4 + 0)) - 1) ^ 2
                 + ((sqrt (0 * 0 + (0 * 0 + 0)) - 1) ^ 2 + 0)) / INR 2)).
Proof.
intros d_real d_fake interp.
apply (@compute_losses_wgan_gp Sample.framework [-1; 2]%Z (fun _ => d_real)
         d_real d_fake interp 2 [2%nat]).
- reflexivity.
- reflexivity.
- cbn; repeat (split || constructor).
Defined.
End LossClaims.

(** ** Phase recovery *)

Section PhaseFacts.
Import Spectral.
Local Open Scope R_scope.

Lemma floor_mod_range (x y : R) : 0 < y -> 0 <= floor_mod x y < y.
Proof.
intros Hy. unfold floor_mod.
destruct (base_Int_part (x / y)) as [Hle Hgt].
assert (Hx : x = x / y * y) by (field; lra).
set (q := IZR (Int_part (x / y))) in *.
split.
- assert (q * y <= x / y * y) by (apply Rmult_le_compat_r; lra). lra.
- assert (x / y * y - q * y < 1 * y).
  { rewrite <- Rmult_minus_distr_r. apply Rmult_lt_compat_r; lra. }
  lra.
Qed.

Lemma wrap_phase_range (c : R) : - PI <= wrap_phase c < PI.
Proof.
unfold wrap_phase.
pose proof PI_RGT_0 as Hpi.
destruct (floor_mod_range (c + PI) (2 * PI)) as [H0 H1]; lra.
Qed.

Lemma wrap_phase_congruent (c : R) :
  exists k : Z, wrap_phase c = c + 2 * PI * IZR k.
Proof.
exists (- Int_part ((c + PI) / (2 * PI)))%Z.
unfold wrap_phase, floor_mod. rewrite opp_IZR. ring.
Qed.

End PhaseFacts.

Section CumsumFacts.
Import Spectral.
Local Open Scope R_scope.


Lemma running_length (l : list (tensor R)) :
  forall acc, length (running acc l) = length l.
Proof. induction l as [| x l IH]; intros acc; cbn; [reflexivity | now rewrite IH]. Qed.



Lemma zipWith_nth {X Y W : Type} (g : X -> Y -> W) (lx : list X) :
  forall (ly : list Y) (k : nat) (x : X) (y : Y),
    nth_error lx k = Some x -> nth_error ly k = Some y ->
    nth_error (zipWith g lx ly) k = Some (g x y).
Proof.
induction lx as [| x0 lx IH]; intros [| y0 ly] [| k] x y Hx Hy;
  try discriminate; cbn in *.
- congruence.
- eauto.
Qed.



End CumsumFacts.

Section PhaseClaims.
Import Spectral.
Local Open Scope R_scope.







End PhaseClaims.

(** ** The magnitude projection *)

Section MagnitudeClaims.
Import Spectral.
Local Open Scope R_scope.

(** Two channels stacked on a new axis [d] are read back by indexing it. *)
Lemma stacked_axis_index {X : Type} (d : nat) :
  forall a b sp : tensor X,
    (let? a4 := expand_dims d a in
     let? b4 := expand_dims d b in
     concat_axis d a4 b4) = Some sp ->
    index_axis d 0 sp = Some a /\ index_axis d 1 sp = Some b.
Proof.
unfold expand_dims, index_axis.
induction d as [| d IH]; intros a b sp H.
- cbn in H. injection H as <-. split; reflexivity.
- destruct a as [| la]; [discriminate |].
  destruct b as [| lb]; [cbn in H; destruct (mapM _ la); discriminate |].
  cbn [at_depth] in H |- *.
  destruct (mapM (at_depth d (fun u => Some (Dim [u]))) la) as [la4 |] eqn:Ea;
    [| discriminate].
  destruct (mapM (at_depth d (fun u => Some (Dim [u]))) lb) as [lb4 |] eqn:Eb;
    [| discriminate].
  cbn [option_map concat_axis] in H.
  destruct (zipM (concat_axis d) la4 lb4) as [lsp |] eqn:Ez; [| discriminate].
  injection H as <-. cbn [at_depth].
  assert (Hl : mapM (at_depth d (fun u => nth_error (rows u) 0)) lsp = Some la /\
               mapM (at_depth d (fun u => nth_error (rows u) 1)) lsp = Some lb).
  { clear - IH Ea Eb Ez. revert lb la4 lb4 lsp Ea Eb Ez.
    induction la as [| a la IHl]; intros lb la4 lb4 lsp Ea Eb Ez.
    - cbn in Ea. injection Ea as <-.
      destruct lb4 as [| ? ?]; [| discriminate].
      destruct lb as [| b lb];
        [| cbn in Eb; destruct (at_depth d _ b); [| discriminate];
           destruct (mapM _ lb); discriminate].
      cbn in Ez. injection Ez as <-. split; reflexivity.
    - cbn [mapM] in Ea.
      destruct (at_depth d (fun u => Some (Dim [u])) a) as [a4 |] eqn:Ea4;
        [| discriminate].
      destruct (mapM (at_depth d (fun u => Some (Dim [u]))) la) as [la4' |] eqn:Ela;
        [| discriminate].
      injection Ea as <-.
      destruct lb4 as [| b4 lb4']; [discriminate |].
      destruct lb as [| b lb]; [discriminate |].
      cbn [mapM] in Eb.
      destruct (at_depth d (fun u => Some (Dim [u])) b) as [b4' |] eqn:Eb4;
        [| discriminate].
      destruct (mapM (at_depth d (fun u => Some (Dim [u]))) lb) as [lb4'' |] eqn:Elb;
        [| discriminate].
      injection Eb as <- <-.
      cbn [zipM] in Ez.
      destruct (concat_axis d a4 b4') as [c |] eqn:Ec; [| discriminate].
      destruct (zipM (concat_axis d) la4' lb4'') as [cs |] eqn:Ecs; [| discriminate].
      injection Ez as <-.
      destruct (IH a b c) as [H0 H1].
      { rewrite Ea4, Eb4. exact Ec. }
      destruct (IHl lb la4' lb4'' cs eq_refl Elb Ecs) as [T0 T1].
      cbn [mapM]. rewrite H0, H1, T0, T1. split; reflexivity. }
  destruct Hl as [-> ->]. split; reflexivity.
Qed.

Lemma stack_channels_index {L : SignalLib} (a b sp : tensor R) :
  stack_channels a b = Some sp ->
  index_axis 3 0 sp = Some a /\ index_axis 3 1 sp = Some b.
Proof. apply stacked_axis_index. Qed.

(** C10.  [waveform_2_magnitude] is channel 0 of the last axis of
    [waveform_2_spectogram] called with the same waveform, frame length,
    frame step, log flag and mel parameters, and nothing else.  The channel
    does not depend on the [instantaneous_frequency] flag: whenever the
    spectrogram exists, under either flag, its channel 0 is the magnitude
    returned. *)
Theorem magnitude_is_spectogram_channel {L : SignalLib} (waveform : tensor R)
    (frame_length frame_step : Z) (log_magnitude : bool)
    (n_mel_bins : option Z) (lo hi : R) :
  waveform_2_magnitude waveform frame_length frame_step log_magnitude
    n_mel_bins lo hi
  = (let? spectogram := waveform_2_spectogram waveform frame_length frame_step
                          log_magnitude true n_mel_bins lo hi in
     index_axis 3 0 spectogram) /\
  (forall (flag : bool) (spectogram magnitude : tensor R),
     waveform_2_spectogram waveform frame_length frame_step log_magnitude flag
       n_mel_bins lo hi = Some spectogram ->
     waveform_2_magnitude waveform frame_length frame_step log_magnitude
       n_mel_bins lo hi = Some magnitude ->
     index_axis 3 0 spectogram = Some magnitude).
Proof.
split; [reflexivity |].
intros flag sp m Hsp Hm.
unfold waveform_2_magnitude, waveform_2_spectogram in *.
destruct (signal_stft _ frame_length frame_step) as [stft |]; [| discriminate].
destruct (spectogram_magnitude stft log_magnitude n_mel_bins lo hi) as [mag |];
  [| discriminate].
destruct (spectogram_phase stft true n_mel_bins lo hi) as [ph1 |]; [| discriminate].
destruct (stack_channels mag ph1) as [sp1 |] eqn:E1; [| discriminate].
destruct (stack_channels_index mag ph1 sp1 E1) as [H1 _].
rewrite H1 in Hm. injection Hm as <-.
destruct (spectogram_phase stft flag n_mel_bins lo hi) as [ph |]; [| discriminate].
destruct (stack_channels_index mag ph sp Hsp) as [H0 _]. exact H0.
Qed.

(** On the sample library: the linear magnitude of the one spectrum is read
    off the spectrogram computed with raw phase. *)
Lemma magnitude_is_spectogram_channel_witness :
  let spectogram := Dim [Dim [Dim [Dim [Sc (sqrt (3 * 3 + 4 * 4)); Sc 4]]]] in
  let magnitude := Dim [Dim [Dim [Sc (sqrt (3 * 3 + 4 * 4))]]] in
  @waveform_2_spectogram Sample.signal_lib (Dim [Sc 1; Sc 2]) 2 1 false false
    None 0 8000 = Some spectogram /\
  @waveform_2_magnitude Sample.signal_lib (Dim [Sc 1; Sc 2]) 2 1 false
    None 0 8000 = Some magnitude /\
  index_axis 3 0 spectogram = Some magnitude.
Proof.
intros spectogram magnitude.
destruct (@magnitude_is_spectogram_channel Sample.signal_lib
            (Dim [Sc 1; Sc 2]) 2 1 false None 0 8000) as [_ H].
split; [reflexivity |]. split; [reflexivity |].
apply (H false); reflexivity.
Defined.
End MagnitudeClaims.

(** ** Purity of the transforms *)

Section PurityClaims.
Import Spectral.
Local Open Scope R_scope.





End PurityClaims.

(* ================================================================== *)
(** * Further properties of the training engine *)

(** ** What a step and an export leave alone *)

Section StepFlags.
Import WGAN.
Context {F : Framework}.
Local Open Scope py_scope.

Ltac flag_cases :=
  repeat match goal with
    | |- context [match ?x with _ => _ end] =>
        lazymatch x with
        | context [match _ with _ => _ end] => fail
        | _ => destruct x eqn:?; cbn
        end
    end.

(** X1.  However a call of [_train_step] ends, it has changed the variables
    and the optimizer state of the generator only if [train_generator] was
    set, and those of the discriminator only if [train_discriminator] was
    set; it never touches the generator of the dataset view. *)
Theorem train_step_trains_only_what_is_asked (self : WGAN) (X : tensor R)
    (tg td : bool) (w : world) :
  let w' := snd (_train_step self X tg td w) in
  (tg = false -> generator_untouched w w') /\
  (td = false -> discriminator_untouched w w') /\
  data_seed w' = data_seed w.
Proof.
unfold _train_step, bind, lift, uniform, get_world, ret,
  apply_generator, apply_discriminator,
  generator_untouched, discriminator_untouched.
flag_cases; cbn; repeat split; intros; try discriminate; reflexivity.
Qed.

(** X2.  The export helper never trains: whatever its argument, the
    variables and optimizer states of both networks are as they were.
    Without a callback it does nothing at all, not even a draw from the
    random generator.  With a callback and a batch of [n] examples it draws
    one latent batch of shape [(n, z_dim)], runs the generator on it under
    the current variables with [training=False] and calls the callback once,
    with the epoch tag, the batch as given and the generations. *)
Theorem export_never_trains (self : WGAN) (epoch : Z) (X_real : tensor R)
    (w : world) :
  let r := fst (_generate_and_save_examples self epoch X_real w) in
  let w' := snd (_generate_and_save_examples self epoch X_real w) in
  generator_untouched w w' /\ discriminator_untouched w w' /\
  data_seed w' = data_seed w /\
  (fn_save_examples self = None -> r = Ok tt /\ w' = w) /\
  (forall name l,
     fn_save_examples self = Some name -> X_real = Dim l ->
     let z := fst (random_uniform (tf_seed w)
                     [length l; Z.to_nat (z_dim self)] (-1) 1) in
     r = Ok tt /\
     history w' = SaveExamples epoch X_real (generator (gen_variables w) z false)
                  :: history w).
Proof.
unfold _generate_and_save_examples, generator_untouched, discriminator_untouched.
destruct (fn_save_examples self) as [name |].
- unfold bind, lift, first_dim, uniform, get_world, emit.
  destruct X_real as [x | l]; cbn.
  + repeat split; intros; discriminate.
  + destruct (random_uniform (tf_seed w) [length l; Z.to_nat (z_dim self)] (-1) 1)
      as [z g] eqn:Ez.
    cbn. repeat split; try discriminate.
    match goal with H : Dim _ = Dim _ |- _ => injection H as <- end.
    now rewrite Ez.
- cbn. repeat split; intros; discriminate.
Qed.
End StepFlags.

(** ** The dataset view, example by example *)

Section ViewFacts.
Import WGAN.
Context {F : Framework}.




Lemma removelast_map {X Y : Type} (f : X -> Y) (l : list X) :
  removelast (map f l) = map f (removelast l).
Proof.
induction l as [| x l IH]; [reflexivity |].
destruct l as [| y l]; [reflexivity |].
cbn [map removelast] in *. now rewrite IH.
Qed.

Lemma init_view (raw : list (tensor R)) (ds dins : list Z)
    (zd ratio size ep : Z) (dir : option string) (eps : Z)
    (loss : loss_fn) (cb : option string) (self : WGAN.WGAN) :
  __init__ raw ds dins zd ratio size ep dir eps loss cb = Ok self ->
  raw_dataset self = raw /\ generator_training_ratio self = ratio /\
  batch_size self = size /\ (0 < size)%Z /\ buffer_size self = 1000%Z /\
  epochs self = ep /\ epochs_per_save self = eps /\
  fn_save_examples self = cb /\
  checkpoint self = truthy_str dir /\
  checkpoint_prefix self = (if truthy_str dir
                            then option_map path_join_ckpt dir
                            else None).
Proof.
unfold __init__. destruct (Z.ltb_spec size 1) as [Hlt | Hge]; [discriminate |].
intros [= <-]. cbn. repeat split. lia.
Qed.


End ViewFacts.

Section ViewWitness.
Import WGAN.

End ViewWitness.

(** ** Whole runs, call by call *)

Section RunCalls.
Import WGAN.
Context {F : Framework} {B : AbstractModel}.
Local Open Scope py_scope.

Lemma save_examples_calls (self : WGAN.WGAN) (epoch : Z) (l : list (tensor R))
    (w : world) :
  exists w' evs,
    _generate_and_save_examples self epoch (Dim l) w = (Ok tt, w') /\
    history w' = evs ++ history w /\
    map call_of evs = export_calls self epoch.
Proof.
unfold _generate_and_save_examples, export_calls.
destruct (fn_save_examples self).
- unfold bind, lift, first_dim, uniform, get_world, emit.
  destruct (random_uniform _ _ _ _) as [z g]. cbn.
  eexists. eexists [_]. repeat split.
- exists w, []. repeat split.
Qed.

Lemma maybe_checkpoint_calls (self : WGAN.WGAN) (epoch : Z) (w : world)
    (v : option string) :
  class_checkpoint_dir = Some v -> can_save self v ->
  exists w' evs,
    maybe_checkpoint self epoch w = (Ok tt, w') /\
    history w' = evs ++ history w /\
    map call_of evs = save_calls self v epoch.
Proof.
intros Hv Hcan.
unfold maybe_checkpoint, getattr_checkpoint_dir, bind, lift, of_option, save_calls.
rewrite Hv. destruct (truthy_str v) eqn:Ht.
- destruct (Hcan Ht) as (Hc & Hp & He).
  unfold py_mod. rewrite (proj2 (Z.eqb_neq _ _) He). cbn [andb].
  destruct ((epoch + 1) mod epochs_per_save self =? 0)%Z.
  + unfold checkpoint_save. rewrite Hc.
    destruct (checkpoint_prefix self) as [p |]; [| congruence].
    unfold bind, lift, of_option, get_world, emit. cbn.
    eexists. eexists [_]. repeat split.
  + exists w, []. repeat split.
- exists w, []. repeat split.
Qed.

Lemma train_epoch_calls (self : WGAN.WGAN) (epoch : Z) (w : world)
    (v : option string) :
  well_configured self -> steps_succeed self ->
  (0 < batches_per_epoch self)%nat ->
  class_checkpoint_dir = Some v -> can_save self v ->
  exists w' evs,
    train_epoch self epoch w = (Ok tt, w') /\
    history w' = evs ++ history w /\
    map call_of (rev evs) = epoch_calls self v epoch.
Proof.
intros Hc Hs Hn Hv Hcan.
destruct (train_epoch_split self epoch w Hc Hs)
  as (batches & w2 & E & Hlen & Hall & Hh2).
rewrite E. unfold bind at 1.
destruct (maybe_checkpoint_calls self epoch w2 v Hv Hcan)
  as (w3 & evs3 & E3 & Hh3 & Hc3).
rewrite E3.
destruct batches as [| X0 rest]; [cbn in Hlen; lia |].
cbn [export_last].
rewrite Forall_forall in Hall.
destruct (Hall _ (last_in rest X0)) as (l & El & _). rewrite El.
destruct (save_examples_calls self (epoch + 1) l w3)
  as (w4 & evs4 & E4 & Hh4 & Hc4).
rewrite E4. exists w4.
exists (evs4 ++ evs3 ++ rev (schedule (generator_training_ratio self) 1
                               (batches_per_epoch self))).
split; [reflexivity |]. split.
- rewrite Hh4, Hh3, Hh2. now rewrite <- !app_assoc.
- unfold epoch_calls. rewrite !rev_app_distr, rev_involutive, !map_app.
  rewrite <- app_assoc. f_equal. f_equal.
  + rewrite map_rev, Hc3. unfold save_calls.
    destruct (_ && _); [| reflexivity].
    destruct (checkpoint_prefix self); reflexivity.
  + rewrite map_rev, Hc4. unfold export_calls.
    destruct (fn_save_examples self); reflexivity.
Qed.

Lemma flat_map_seq_shift {X : Type} (f : Z -> list X) (first : Z) (c : nat) :
  flat_map (fun i => f (first + Z.of_nat i)%Z) (seq 0 (S c))
  = f first ++ flat_map (fun i => f (first + 1 + Z.of_nat i)%Z) (seq 0 c).
Proof.
cbn [seq flat_map]. rewrite Z.add_0_r. f_equal.
rewrite <- seq_shift, flat_map_concat_map, map_map, <- flat_map_concat_map.
apply flat_map_ext. intros i. f_equal. lia.
Qed.

Lemma for_epochs_calls (self : WGAN.WGAN) (v : option string) (count : nat) :
  well_configured self -> steps_succeed self ->
  (0 < batches_per_epoch self)%nat ->
  class_checkpoint_dir = Some v -> can_save self v ->
  forall (first : Z) (w : world),
  exists w' evs,
    for_epochs self first count w = (Ok tt, w') /\
    history w' = evs ++ history w /\
    map call_of (rev evs)
    = flat_map (fun i => epoch_calls self v (first + Z.of_nat i)%Z) (seq 0 count).
Proof.
intros Hc Hs Hn Hv Hcan.
induction count as [| c IH]; intros first w.
- exists w, []. repeat split.
- cbn [for_epochs]. unfold bind at 1.
  destruct (train_epoch_calls self first w v Hc Hs Hn Hv Hcan)
    as (w1 & evs1 & E1 & Hh1 & Hc1).
  rewrite E1.
  destruct (IH (first + 1)%Z w1) as (w2 & evs2 & E2 & Hh2 & Hc2).
  exists w2, (evs2 ++ evs1). split; [exact E2 |]. split.
  + rewrite Hh2, Hh1. now rewrite app_assoc.
  + rewrite (flat_map_seq_shift (epoch_calls self v)).
    rewrite rev_app_distr, map_app, Hc1, Hc2. reflexivity.
Qed.

(** A run that goes through: the export tagged 0, then epoch after epoch. *)
Lemma train_calls (self : WGAN.WGAN) (v : option string) (w : world) :
  well_configured self -> steps_succeed self ->
  (0 < batches_per_epoch self)%nat ->
  class_checkpoint_dir = Some v -> can_save self v ->
  fst (train self w) = Ok tt /\
  map call_of (new_events (train self) w) = run_calls self v.
Proof.
intros Hc Hs Hn Hv Hcan.
destruct (train self w) as [r w'] eqn:Hrun. pose proof Hrun as Hrun'.
unfold train in Hrun. unfold bind at 1 in Hrun.
destruct (save_examples_calls self 0
            (firstn (Z.to_nat (batch_size self)) (raw_dataset self)) w)
  as (w0 & evs0 & E0 & Hh0 & Hc0).
rewrite E0 in Hrun.
destruct (for_epochs_calls self v (Z.to_nat (epochs self)) Hc Hs Hn Hv Hcan 0%Z w0)
  as (w1 & evs1 & E1 & Hh1 & Hc1).
rewrite E1 in Hrun. injection Hrun as <- <-.
split; [reflexivity |].
rewrite (new_events_of (train self) w (evs1 ++ evs0)).
- rewrite rev_app_distr, map_app, Hc1. unfold run_calls. f_equal.
  rewrite map_rev, Hc0. unfold export_calls.
  destruct (fn_save_examples self); reflexivity.
- rewrite Hrun'. cbn [snd]. rewrite Hh1, Hh0. now rewrite app_assoc.
Qed.

(** A model built by the constructor is well configured when its ratio is
    positive; it has a batch per epoch when its dataset is not empty. *)
Lemma init_well_configured (raw : list (tensor R)) (ds dins : list Z)
    (zd ratio size ep : Z) (dir : option string) (eps : Z)
    (loss : loss_fn) (cb : option string) (self : WGAN.WGAN) :
  __init__ raw ds dins zd ratio size ep dir eps loss cb = Ok self ->
  (0 < ratio)%Z ->
  well_configured self /\
  (raw <> [] -> (0 < batches_per_epoch self)%nat).
Proof.
intros Hinit Hr.
destruct (init_view _ _ _ _ _ _ _ _ _ _ _ _ Hinit)
  as (Hraw & Hratio & Hsize & Hpos & Hbuf & _).
split.
- unfold well_configured. rewrite Hratio, Hsize, Hbuf. repeat split; lia.
- intros Hne. unfold batches_per_epoch. rewrite Hratio, Hsize, Hraw.
  assert (Hl : (0 < length raw)%nat) by (destruct raw; [contradiction | cbn; lia]).
  apply Nat.div_str_pos. nia.
Qed.

Lemma init_can_save (raw : list (tensor R)) (ds dins : list Z)
    (zd ratio size ep : Z) (dir : option string) (eps : Z)
    (loss : loss_fn) (cb : option string) (self : WGAN.WGAN) (v : option string) :
  __init__ raw ds dins zd ratio size ep dir eps loss cb = Ok self ->
  (truthy_str v = true -> truthy_str dir = true /\ eps <> 0%Z) ->
  can_save self v.
Proof.
intros Hinit H Ht. destruct (H Ht) as [Hd He].
destruct (init_view _ _ _ _ _ _ _ _ _ _ _ _ Hinit)
  as (_ & _ & _ & _ & _ & _ & Heps & _ & Hck & Hpre).
rewrite Hck, Hpre, Heps, Hd. repeat split; auto.
destruct dir; [discriminate | discriminate].
Qed.

(** X4.  A run that goes through, call by call.  For a model built by the
    constructor with a positive ratio over a dataset that is not empty, none
    of whose steps aborts, under a base class that answers
    [self.checkpoint_dir] with [v] (and, if [v] is true, a model constructed
    with a directory and a non-zero [epochs_per_save]): [train] ends normally
    and has made exactly these calls, in this order: the export tagged 0;
    then for each epoch [e = 0 .. epochs-1] one discriminator update per
    batch, each [ratio]-th of them followed by a generator update, then the
    save if [v] is true and [epochs_per_save] divides [e + 1], then the
    export tagged [e + 1]. *)
Theorem train_runs_epoch_by_epoch
    (raw : list (tensor R)) (ds dins : list Z) (zd ratio size ep : Z)
    (dir : option string) (eps : Z) (loss : loss_fn) (cb : option string)
    (self : WGAN.WGAN) (w : world) (v : option string) :
  __init__ raw ds dins zd ratio size ep dir eps loss cb = Ok self ->
  steps_succeed self ->
  (0 < ratio)%Z -> raw <> [] ->
  class_checkpoint_dir = Some v ->
  (truthy_str v = true -> truthy_str dir = true /\ eps <> 0%Z) ->
  fst (train self w) = Ok tt /\
  map call_of (new_events (train self) w) = run_calls self v.
Proof.
intros Hinit Hs Hr Hne Hv Hcan.
destruct (init_well_configured _ _ _ _ _ _ _ _ _ _ _ _ Hinit Hr) as [Hc Hn].
apply train_calls; auto.
eapply init_can_save; eauto.
Qed.
End RunCalls.

Section RunTotals.
Import WGAN.
Context {F : Framework} {B : AbstractModel}.
Local Open Scope py_scope.

Lemma count_via_calls (p : event -> bool) (q : call -> bool) (evs : list event) :
  (forall e, p e = q (call_of e)) ->
  count p evs = length (filter q (map call_of evs)).
Proof.
intros H. unfold count. induction evs as [| e evs IH]; [reflexivity |].
cbn. rewrite <- H. destruct (p e); cbn; now rewrite IH.
Qed.

Lemma export_epochs_via_calls (evs : list event) :
  export_epochs evs = exported (map call_of evs).
Proof.
unfold exported. induction evs as [| e evs IH]; [reflexivity |].
destruct e; cbn; now rewrite IH.
Qed.

Lemma filter_flat_map_const {X Y : Type} (q : Y -> bool) (f : X -> list Y)
    (l : list X) (c : nat) :
  (forall x, In x l -> length (filter q (f x)) = c) ->
  length (filter q (flat_map f l)) = (length l * c)%nat.
Proof.
induction l as [| x l IH]; intros H; [reflexivity |].
cbn [flat_map length]. rewrite filter_app, length_app.
rewrite (H x (or_introl eq_refl)), IH; [lia |].
intros y Hy. apply H. now right.
Qed.

Lemma filter_export_calls (q : call -> bool) (self : WGAN.WGAN) (epoch : Z) :
  q (Export epoch) = false -> filter q (export_calls self epoch) = [].
Proof.
intros H. unfold export_calls. destruct (fn_save_examples self); cbn;
  [now rewrite H | reflexivity].
Qed.

Lemma filter_save_calls (q : call -> bool) (self : WGAN.WGAN)
    (v : option string) (epoch : Z) :
  (forall p, q (Save p) = false) -> filter q (save_calls self v epoch) = [].
Proof.
intros H. unfold save_calls. destruct (_ && _); [| reflexivity].
destruct (checkpoint_prefix self); cbn; [now rewrite H | reflexivity].
Qed.

Lemma epoch_calls_updates (self : WGAN.WGAN) (v : option string) (epoch : Z) :
  (0 < generator_training_ratio self)%Z ->
  length (filter is_update_discriminator (epoch_calls self v epoch))
  = batches_per_epoch self /\
  length (filter is_update_generator (epoch_calls self v epoch))
  = Z.to_nat (Z.of_nat (batches_per_epoch self) / generator_training_ratio self).
Proof.
intros Hr. unfold epoch_calls.
destruct (schedule_from_one (generator_training_ratio self)
            (batches_per_epoch self) Hr) as [D G].
unfold discriminator_updates, generator_updates in D, G.
rewrite (count_via_calls _ is_update_discriminator) in D by (now intros []).
rewrite (count_via_calls _ is_update_generator) in G by (now intros []).
rewrite !filter_app, !length_app.
rewrite !filter_save_calls, !filter_export_calls by reflexivity.
cbn [length]. rewrite !Nat.add_0_r. split; [exact D | lia].
Qed.

Lemma exported_app (l1 l2 : list call) :
  exported (l1 ++ l2) = exported l1 ++ exported l2.
Proof. unfold exported. apply flat_map_app. Qed.

Lemma exported_epoch_calls (self : WGAN.WGAN) (v : option string) (epoch : Z) :
  exported (epoch_calls self v epoch) = callback_epochs self (epoch + 1).
Proof.
unfold epoch_calls. rewrite !exported_app.
assert (E1 : forall r i n, exported (map call_of (schedule r i n)) = []).
{ intros r i n. revert i. unfold exported.
  induction n as [| n IH]; intros i; [reflexivity |].
  cbn [schedule map flat_map call_of app]. rewrite map_app, flat_map_app, IH.
  destruct (i mod r =? 0)%Z; reflexivity. }
assert (E2 : exported (save_calls self v epoch) = []).
{ unfold save_calls. destruct (_ && _); [| reflexivity].
  destruct (checkpoint_prefix self); reflexivity. }
rewrite E1, E2. unfold export_calls, callback_epochs.
destruct (fn_save_examples self); reflexivity.
Qed.

(** X5.  The totals of a run that goes through.  Under the premises of X4 a
    run of [E] epochs has updated the discriminator [E * D] times and the
    generator [E * floor (D / ratio)] times, where [D] is the number of
    batches of one pass over the view, and, when a callback is set, has
    called it [E + 1] times, with the tags [0, 1, ..., E] in this order. *)
Theorem train_totals
    (raw : list (tensor R)) (ds dins : list Z) (zd ratio size ep : Z)
    (dir : option string) (eps : Z) (loss : loss_fn) (cb : option string)
    (self : WGAN.WGAN) (w : world) (v : option string) :
  __init__ raw ds dins zd ratio size ep dir eps loss cb = Ok self ->
  steps_succeed self ->
  (0 < ratio)%Z -> raw <> [] ->
  class_checkpoint_dir = Some v ->
  (truthy_str v = true -> truthy_str dir = true /\ eps <> 0%Z) ->
  let evs := new_events (train self) w in
  let E := Z.to_nat ep in
  discriminator_updates evs = (E * batches_per_epoch self)%nat /\
  generator_updates evs
  = (E * Z.to_nat (Z.of_nat (batches_per_epoch self) / ratio))%nat /\
  export_epochs evs = match cb with
                      | Some _ => map Z.of_nat (seq 0 (S E))
                      | None => []
                      end.
Proof.
intros Hinit Hs Hr Hne Hv Hcan evs E.
destruct (init_well_configured _ _ _ _ _ _ _ _ _ _ _ _ Hinit Hr) as [Hc Hn].
destruct (train_calls self v w Hc Hs (Hn Hne) Hv
            (init_can_save _ _ _ _ _ _ _ _ _ _ _ _ v Hinit Hcan)) as [_ Hcalls].
destruct (init_view _ _ _ _ _ _ _ _ _ _ _ _ Hinit)
  as (_ & Hratio & _ & _ & _ & Hep & _ & Hcb & _).
fold evs in Hcalls.
unfold discriminator_updates, generator_updates.
rewrite (count_via_calls _ is_update_discriminator evs) by (now intros []).
rewrite (count_via_calls _ is_update_generator evs) by (now intros []).
rewrite export_epochs_via_calls, Hcalls. unfold run_calls.
rewrite !filter_app, !length_app, exported_app, Hep. fold E.
rewrite !filter_export_calls by reflexivity. cbn [length Nat.add].
assert (Hr' : (0 < generator_training_ratio self)%Z) by lia.
rewrite (filter_flat_map_const is_update_discriminator _ _ (batches_per_epoch self))
  by (intros; apply epoch_calls_updates; exact Hr').
rewrite (filter_flat_map_const is_update_generator _ _
           (Z.to_nat (Z.of_nat (batches_per_epoch self) / generator_training_ratio self)))
  by (intros; apply epoch_calls_updates; exact Hr').
rewrite length_seq, Hratio.
split; [reflexivity |]. split; [reflexivity |].
assert (Hx : forall a n,
           exported (flat_map (fun i => epoch_calls self v (Z.of_nat i)) (seq a n))
           = flat_map (fun i => callback_epochs self (Z.of_nat i + 1)) (seq a n)).
{ intros a n. revert a. induction n as [| n IH]; intros a; [reflexivity |].
  cbn [seq flat_map]. now rewrite exported_app, exported_epoch_calls, IH. }
rewrite Hx. unfold export_calls, callback_epochs. rewrite Hcb.
destruct cb as [name |].
- cbn [exported flat_map app seq map]. f_equal.
  rewrite <- seq_shift, map_map.
  generalize (seq 0 E). intros l. induction l as [| i l IH]; [reflexivity |].
  cbn. rewrite IH. f_equal. lia.
- cbn. generalize (seq 0 E). intros l. induction l; auto.
Qed.

Lemma mod_abs_zero (x e : Z) :
  e <> 0%Z -> (x mod e =? 0)%Z = (x mod Z.abs e =? 0)%Z.
Proof.
intros He.
destruct (Z.eqb_spec (x mod e) 0) as [E1 | E1];
  destruct (Z.eqb_spec (x mod Z.abs e) 0) as [E2 | E2]; try reflexivity.
- apply Z.mod_divide in E1; [| exact He].
  exfalso. apply E2. apply Z.mod_divide; [lia |]. now apply Z.divide_abs_l.
- apply Z.mod_divide in E2; [| lia].
  exfalso. apply E1. apply Z.mod_divide; [exact He |]. now apply Z.divide_abs_l.
Qed.

(** Among the epochs [0 .. n-1], those after which a save falls due. *)
Lemma due_count (eps : Z) (n : nat) :
  eps <> 0%Z ->
  length (filter (fun i => ((Z.of_nat i + 1) mod eps =? 0)%Z) (seq 0 n))
  = Z.to_nat (Z.of_nat n / Z.abs eps).
Proof.
intros He. assert (Ha : (0 < Z.abs eps)%Z) by lia.
induction n as [| n IH]; [reflexivity |].
rewrite seq_S, filter_app, length_app, IH. cbn [filter Nat.add].
rewrite (mod_abs_zero _ eps He).
pose proof (div_step (Z.abs eps) (Z.of_nat n + 1) Ha) as Hd.
replace (Z.of_nat n + 1 - 1)%Z with (Z.of_nat n) in Hd by lia.
replace (Z.of_nat (S n)) with (Z.of_nat n + 1)%Z by lia.
assert (H0 : (0 <= Z.of_nat n / Z.abs eps)%Z) by (apply Z.div_pos; lia).
destruct ((Z.of_nat n + 1) mod Z.abs eps =? 0)%Z; cbn [length]; lia.
Qed.

(** X6.  The cadence of the checkpoints.  Under the premises of X4, with a
    base class whose [checkpoint_dir] is true and a model constructed with
    the directory [d]: a run of [E] epochs saves exactly
    [floor (E / |epochs_per_save|)] checkpoints, one after each epoch [e]
    such that [epochs_per_save] divides [e + 1], and each of them under the
    prefix [os.path.join(d, "ckpt")]. *)
Theorem checkpoint_cadence
    (raw : list (tensor R)) (ds dins : list Z) (zd ratio size ep : Z)
    (d : string) (eps : Z) (loss : loss_fn) (cb : option string)
    (self : WGAN.WGAN) (w : world) (v : option string) :
  __init__ raw ds dins zd ratio size ep (Some d) eps loss cb = Ok self ->
  steps_succeed self ->
  (0 < ratio)%Z -> raw <> [] ->
  class_checkpoint_dir = Some v -> truthy_str v = true ->
  truthy_str (Some d) = true -> eps <> 0%Z ->
  let evs := new_events (train self) w in
  checkpoint_saves evs = Z.to_nat (ep / Z.abs eps) /\
  (forall p, In (Save p) (map call_of evs) -> p = path_join_ckpt d) /\
  filter is_save (map call_of evs)
  = map (fun _ => Save (path_join_ckpt d))
      (filter (fun i => ((Z.of_nat i + 1) mod eps =? 0)%Z)
         (seq 0 (Z.to_nat ep))).
Proof.
intros Hinit Hs Hr Hne Hv Ht Hd He evs.
destruct (init_well_configured _ _ _ _ _ _ _ _ _ _ _ _ Hinit Hr) as [Hc Hn].
assert (Hcan : can_save self v).
{ eapply init_can_save; [exact Hinit |]. intros _. split; assumption. }
destruct (train_calls self v w Hc Hs (Hn Hne) Hv Hcan) as [_ Hcalls].
destruct (init_view _ _ _ _ _ _ _ _ _ _ _ _ Hinit)
  as (_ & _ & _ & _ & _ & Hep & Heps & _ & _ & Hpre).
rewrite Hd in Hpre. cbn [option_map] in Hpre.
fold evs in Hcalls.
assert (Hfilter : filter is_save (map call_of evs)
                  = map (fun _ => Save (path_join_ckpt d))
                      (filter (fun i => ((Z.of_nat i + 1) mod eps =? 0)%Z)
                         (seq 0 (Z.to_nat ep)))).
{ rewrite Hcalls. unfold run_calls. rewrite filter_app, Hep.
  rewrite filter_export_calls by reflexivity. cbn [app].
  generalize (seq 0 (Z.to_nat ep)). intros l.
  induction l as [| i l IH]; [reflexivity |].
  cbn [flat_map filter]. rewrite filter_app, IH. unfold epoch_calls.
  rewrite !filter_app, filter_export_calls by reflexivity.
  assert (E1 : forall r j n, filter is_save (map call_of (schedule r j n)) = []).
  { intros r j n. revert j. induction n as [| n IHn]; intros j; [reflexivity |].
    cbn [schedule map filter is_save call_of]. rewrite map_app, filter_app, IHn.
    destruct (j mod r =? 0)%Z; reflexivity. }
  rewrite E1. unfold save_calls. rewrite Ht, Heps, Hpre. cbn [andb app].
  destruct ((Z.of_nat i + 1) mod eps =? 0)%Z; reflexivity. }
split; [| split; [| exact Hfilter]].
- unfold checkpoint_saves.
  rewrite (count_via_calls _ is_save evs) by (now intros []).
  rewrite Hfilter, length_map, (due_count eps (Z.to_nat ep) He).
  destruct (Z.le_gt_cases 0 ep) as [Hpos | Hneg].
  + now rewrite Z2Nat.id.
  + replace (Z.to_nat ep) with 0%nat by lia. cbn.
    assert (ep / Z.abs eps < 0)%Z by (apply Z.div_lt_upper_bound; lia). lia.
- intros p Hp.
  assert (Hin : In (Save p) (filter is_save (map call_of evs))).
  { apply filter_In. split; [exact Hp | reflexivity]. }
  rewrite Hfilter in Hin. apply in_map_iff in Hin as (i & Hi & _). congruence.
Qed.
End RunTotals.

Section RunWitnesses.
Import WGAN.
Local Open Scope string_scope.

(** Four examples in batches of two with ratio 2, two epochs, a save after
    every epoch, under a base class whose attribute is true. *)
Lemma train_runs_epoch_by_epoch_witness :
  let self := @Sample.model Sample.framework 4 2 2 2 (Some "ckpts") 1 (Some "save") in
  let w := (@Sample.initial_world Sample.framework 0 0 0 0 0)%nat in
  let run := @train Sample.framework (Sample.base_attribute (Some "ckpts")) self in
  fst (run w) = Ok tt /\
  map (@call_of Sample.framework) (new_events run w)
  = [Export 0;
     UpdateDiscriminator; UpdateDiscriminator; UpdateGenerator;
     UpdateDiscriminator; UpdateDiscriminator; UpdateGenerator;
     Save "ckpts/ckpt"; Export 1;
     UpdateDiscriminator; UpdateDiscriminator; UpdateGenerator;
     UpdateDiscriminator; UpdateDiscriminator; UpdateGenerator;
     Save "ckpts/ckpt"; Export 2].
Proof.
intros self w run.
destruct (@train_runs_epoch_by_epoch Sample.framework
            (Sample.base_attribute (Some "ckpts"))
            (repeat (Sc 0%R) 4) [(-1)%Z] [(-1)%Z] 1 2 2 2 (Some "ckpts") 1
            (@_compute_losses Sample.framework) (Some "save") self w
            (Some "ckpts"))
  as [Hok Hcalls].
- reflexivity.
- apply sample_steps_succeed.
- lia.
- discriminate.
- reflexivity.
- intros _. split; [reflexivity | discriminate].
- split; [exact Hok |]. fold run in Hcalls. rewrite Hcalls. reflexivity.
Defined.

Lemma train_totals_witness :
  let self := @Sample.model Sample.framework 4 2 2 2 (Some "ckpts") 1 (Some "save") in
  let w := (@Sample.initial_world Sample.framework 0 0 0 0 0)%nat in
  let evs := new_events
               (@train Sample.framework (Sample.base_attribute (Some "ckpts")) self) w in
  discriminator_updates evs = 8%nat /\ generator_updates evs = 4%nat /\
  export_epochs evs = [0; 1; 2]%Z.
Proof.
intros self w evs.
destruct (@train_totals Sample.framework
            (Sample.base_attribute (Some "ckpts"))
            (repeat (Sc 0%R) 4) [(-1)%Z] [(-1)%Z] 1 2 2 2 (Some "ckpts") 1
            (@_compute_losses Sample.framework) (Some "save") self w
            (Some "ckpts"))
  as (D & G & X).
- reflexivity.
- apply sample_steps_succeed.
- lia.
- discriminate.
- reflexivity.
- intros _. split; [reflexivity | discriminate].
- fold evs in D, G, X. rewrite D, G, X. repeat split.
Defined.

Lemma checkpoint_cadence_witness :
  let self := @Sample.model Sample.framework 4 2 2 5 (Some "ckpts") 2 None in
  let w := (@Sample.initial_world Sample.framework 0 0 0 0 0)%nat in
  let evs := new_events
               (@train Sample.framework (Sample.base_attribute (Some "ckpts")) self) w in
  checkpoint_saves evs = 2%nat /\
  filter is_save (map (@call_of Sample.framework) evs)
  = [Save "ckpts/ckpt"; Save "ckpts/ckpt"].
Proof.
intros self w evs.
destruct (@checkpoint_cadence Sample.framework
            (Sample.base_attribute (Some "ckpts"))
            (repeat (Sc 0%R) 4) [(-1)%Z] [(-1)%Z] 1 2 2 5 "ckpts" 2
            (@_compute_losses Sample.framework) None self w
            (Some "ckpts"))
  as (S1 & _ & S2).
- reflexivity.
- apply sample_steps_succeed.
- lia.
- discriminate.
- reflexivity.
- reflexivity.
- reflexivity.
- discriminate.
- fold evs in S1, S2. rewrite S1, S2. split; reflexivity.
Defined.
End RunWitnesses.

(** ** Runs at the edges of the configuration *)

Section EdgeRuns.
Import WGAN.
Context {F : Framework} {B : AbstractModel}.
Local Open Scope py_scope.

Lemma maybe_checkpoint_zero_division (self : WGAN.WGAN) (epoch : Z) (w : world)
    (v : option string) :
  class_checkpoint_dir = Some v -> truthy_str v = true ->
  epochs_per_save self = 0%Z ->
  maybe_checkpoint self epoch w = (Raise ZeroDivisionError, w).
Proof.
intros Hv Ht He.
unfold maybe_checkpoint, getattr_checkpoint_dir, bind, lift, of_option, py_mod.
now rewrite Hv, Ht, He.
Qed.

(** X7.  [epochs_per_save = 0].  The test of line 175 evaluates
    [(epoch + 1) % self.epochs_per_save] only when [self.checkpoint_dir] is
    true.  Under a base class whose attribute is true, a run of at least one
    epoch makes the export tagged 0 and all the updates of the first epoch,
    then ends with a ZeroDivisionError, before the export tagged 1.  Under a
    base class whose attribute is false the modulus is never evaluated and
    the run goes through. *)
Theorem zero_epochs_per_save
    (raw : list (tensor R)) (ds dins : list Z) (zd ratio size ep : Z)
    (dir : option string) (loss : loss_fn) (cb : option string)
    (self : WGAN.WGAN) (w : world) (v : option string) :
  __init__ raw ds dins zd ratio size ep dir 0 loss cb = Ok self ->
  steps_succeed self ->
  (0 < ratio)%Z -> (0 < ep)%Z ->
  class_checkpoint_dir = Some v ->
  (truthy_str v = true ->
   fst (train self w) = Raise ZeroDivisionError /\
   map call_of (new_events (train self) w)
   = export_calls self 0
     ++ map call_of (schedule ratio 1 (batches_per_epoch self))) /\
  (truthy_str v = false -> raw <> [] -> fst (train self w) = Ok tt).
Proof.
intros Hinit Hs Hr Hep Hv.
destruct (init_well_configured _ _ _ _ _ _ _ _ _ _ _ _ Hinit Hr) as [Hc Hn].
destruct (init_view _ _ _ _ _ _ _ _ _ _ _ _ Hinit)
  as (_ & Hratio & _ & _ & _ & He & Heps & _).
split.
- intros Ht.
  destruct (train self w) as [r w'] eqn:Hrun. pose proof Hrun as Hrun'.
  unfold train in Hrun. unfold bind at 1 in Hrun.
  destruct (save_examples_calls self 0
              (firstn (Z.to_nat (batch_size self)) (raw_dataset self)) w)
    as (w0 & evs0 & E0 & Hh0 & Hc0).
  rewrite E0 in Hrun. rewrite He in Hrun.
  destruct (Z.to_nat ep) as [| c] eqn:Ec; [lia |].
  cbn [for_epochs] in Hrun. unfold bind at 1 in Hrun.
  destruct (train_epoch_split self 0 w0 Hc Hs)
    as (batches & w2 & E & _ & _ & Hh2).
  rewrite E in Hrun. unfold bind at 1 in Hrun.
  rewrite (maybe_checkpoint_zero_division self 0 w2 v Hv Ht Heps) in Hrun.
  injection Hrun as <- <-. split; [reflexivity |].
  rewrite (new_events_of (train self) w
             (rev (schedule (generator_training_ratio self) 1
                     (batches_per_epoch self)) ++ evs0)).
  + rewrite rev_app_distr, rev_involutive, map_app, Hratio. f_equal.
    rewrite map_rev, Hc0. unfold export_calls.
    destruct (fn_save_examples self); reflexivity.
  + rewrite Hrun'. cbn [snd]. rewrite Hh2, Hh0. now rewrite app_assoc.
- intros Ht Hne.
  apply (train_calls self v w Hc Hs (Hn Hne) Hv).
  intros Ht'. congruence.
Qed.



(** X9.  No epoch.  With [epochs <= 0] the loop over the epochs runs no
    pass: [train] makes the export tagged 0, nothing else, and ends
    normally. *)
Theorem no_epoch_only_export
    (raw : list (tensor R)) (ds dins : list Z) (zd ratio size ep : Z)
    (dir : option string) (eps : Z) (loss : loss_fn) (cb : option string)
    (self : WGAN.WGAN) (w : world) :
  __init__ raw ds dins zd ratio size ep dir eps loss cb = Ok self ->
  (ep <= 0)%Z ->
  fst (train self w) = Ok tt /\
  map call_of (new_events (train self) w) = export_calls self 0.
Proof.
intros Hinit Hep.
destruct (init_view _ _ _ _ _ _ _ _ _ _ _ _ Hinit)
  as (_ & _ & _ & _ & _ & He & _).
destruct (train self w) as [r w'] eqn:Hrun. pose proof Hrun as Hrun'.
unfold train in Hrun. unfold bind at 1 in Hrun.
destruct (save_examples_calls self 0
            (firstn (Z.to_nat (batch_size self)) (raw_dataset self)) w)
  as (w0 & evs0 & E0 & Hh0 & Hc0).
rewrite E0, He in Hrun.
replace (Z.to_nat ep) with 0%nat in Hrun by lia.
cbn [for_epochs] in Hrun. unfold ret in Hrun. injection Hrun as <- <-.
split; [reflexivity |].
rewrite (new_events_of (train self) w evs0).
- rewrite map_rev, Hc0. unfold export_calls.
  destruct (fn_save_examples self); reflexivity.
- now rewrite Hrun'.
Qed.
End EdgeRuns.

Section EdgeWitnesses.
Import WGAN.
Local Open Scope string_scope.

(** A save due at every epoch of a model with [epochs_per_save = 0], under
    a base class whose attribute is true. *)
Lemma zero_epochs_per_save_witness :
  let self := @Sample.model Sample.framework 4 2 2 1 (Some "ckpts") 0 (Some "save") in
  let w := (@Sample.initial_world Sample.framework 0 0 0 0 0)%nat in
  let run := @train Sample.framework (Sample.base_attribute (Some "ckpts")) self in
  fst (run w) = Raise ZeroDivisionError /\
  map (@call_of Sample.framework) (new_events run w)
  = [Export 0;
     UpdateDiscriminator; UpdateDiscriminator; UpdateGenerator;
     UpdateDiscriminator; UpdateDiscriminator; UpdateGenerator].
Proof.
intros self w run.
destruct (@zero_epochs_per_save Sample.framework
            (Sample.base_attribute (Some "ckpts"))
            (repeat (Sc 0%R) 4) [(-1)%Z] [(-1)%Z] 1 2 2 1 (Some "ckpts")
            (@_compute_losses Sample.framework) (Some "save") self w
            (Some "ckpts"))
  as [H _].
- reflexivity.
- apply sample_steps_succeed.
- lia.
- lia.
- reflexivity.
- destruct (H eq_refl) as [Hr Hc]. split; [exact Hr |].
  fold run in Hc. rewrite Hc. reflexivity.
Defined.


Lemma no_epoch_only_export_witness :
  let self := @Sample.model Sample.framework 4 2 2 0 None 10 (Some "save") in
  let w := (@Sample.initial_world Sample.framework 0 0 0 0 0)%nat in
  let run := @train Sample.framework Sample.no_base_attribute self in
  fst (run w) = Ok tt /\
  map (@call_of Sample.framework) (new_events run w) = [Export 0].
Proof.
intros self w run.
destruct (@no_epoch_only_export Sample.framework Sample.no_base_attribute
            (repeat (Sc 0%R) 4) [(-1)%Z] [(-1)%Z] 1 2 2 0 None 10
            (@_compute_losses Sample.framework) (Some "save") self w)
  as [Hr Hc].
- reflexivity.
- lia.
- split; [exact Hr | exact Hc].
Defined.
End EdgeWitnesses.

(** ** The default losses: sign and edge cases *)

Section LossFacts.
Import WGAN.
Local Open Scope R_scope.

Lemma default_losses_closed_form {F : Framework} (d_in_data_shape : list Z)
    (critic : tensor R -> tensor R) (d_real d_fake interpolated : tensor R)
    (n : nat) (s : list nat) :
  length d_in_data_shape = S (length s) ->
  shape (input_gradient critic interpolated) = n :: s ->
  has_shape (n :: s) (input_gradient critic interpolated) ->
  _compute_losses d_in_data_shape critic d_real d_fake interpolated
  = Ok (reduce_mean d_fake,
        (reduce_mean d_real - reduce_mean d_fake)
        + 10 * gradient_penalty (input_gradient critic interpolated)).
Proof.
intros Hd Hsh Hs. unfold _compute_losses.
rewrite Hd. cbn [Nat.sub]. rewrite Nat.sub_0_r.
rewrite (reduce_sum_per_example _ n s Hsh Hs).
do 3 f_equal.
unfold gradient_penalty, reduce_mean, l2_norm.
cbn [tmap]. rewrite !map_map. cbn [tmap tflatten].
rewrite (flat_map_scalars
           (fun g => (sqrt (Rsum (map (fun v => v * v) (tflatten g))) - 1) ^ 2)).
now rewrite length_map.
Qed.

Lemma Rsum_nonneg (l : list R) :
  Forall (fun x => 0 <= x) l -> 0 <= Rsum l.
Proof.
unfold Rsum. induction 1 as [| x l Hx _ IH]; cbn; lra.
Qed.

Lemma Rsum_zero (l : list R) :
  Forall (fun x => 0 <= x) l -> Rsum l = 0 -> Forall (fun x => x = 0) l.
Proof.
unfold Rsum. induction 1 as [| x l Hx Hl IH]; cbn; intros H; constructor.
- pose proof (Rsum_nonneg l Hl) as H0. unfold Rsum in H0. lra.
- apply IH. pose proof (Rsum_nonneg l Hl) as H0. unfold Rsum in H0. lra.
Qed.

Lemma Rsum_all_zero (l : list R) : Forall (fun x => x = 0) l -> Rsum l = 0.
Proof.
unfold Rsum. induction 1 as [| x l Hx _ IH]; cbn; [reflexivity | lra].
Qed.

(** X10.  On scores and a batch that are not empty, the gradient penalty of
    the default losses is never negative, so the discriminator loss is never
    below the Wasserstein term [mean d_real - mean d_fake]; the two are equal
    exactly when the gradient of every example has L2 norm 1. *)
Theorem discriminator_loss_at_least_wasserstein {F : Framework}
    (d_in_data_shape : list Z) (critic : tensor R -> tensor R)
    (d_real d_fake interpolated : tensor R) (n : nat) (s : list nat) :
  let grad := input_gradient critic interpolated in
  length d_in_data_shape = S (length s) ->
  shape grad = n :: s -> has_shape (n :: s) grad -> (0 < n)%nat ->
  tflatten d_real <> [] -> tflatten d_fake <> [] ->
  exists G_loss D_loss,
    _compute_losses d_in_data_shape critic d_real d_fake interpolated
    = Ok (G_loss, D_loss) /\
    reduce_mean d_real - reduce_mean d_fake <= D_loss /\
    (D_loss = reduce_mean d_real - reduce_mean d_fake
     <-> Forall (fun g => l2_norm g = 1) (rows grad)).
Proof.
intros grad Hd Hsh Hs Hn _ _.
eexists. eexists. split.
{ apply (default_losses_closed_form d_in_data_shape critic d_real d_fake
           interpolated n s Hd Hsh Hs). }
fold grad. unfold gradient_penalty.
assert (Hlen : length (rows grad) = n).
{ destruct grad as [| l]; [contradiction |]. now destruct Hs. }
rewrite Hlen.
assert (Hpos : 0 < INR n) by (apply lt_0_INR; lia).
set (terms := map (fun g => (l2_norm g - 1) ^ 2) (rows grad)).
assert (Hterms : Forall (fun x => 0 <= x) terms).
{ unfold terms. apply Forall_map. apply Forall_forall. intros g _.
  apply pow2_ge_0. }
pose proof (Rsum_nonneg terms Hterms) as Hsum.
assert (Hdiv : 0 <= Rsum terms / INR n).
{ apply Rmult_le_pos; [exact Hsum |]. apply Rlt_le, Rinv_0_lt_compat, Hpos. }
split; [lra |]. split.
- intros HD.
  assert (H0 : Rsum terms = 0).
  { assert (Hq : Rsum terms / INR n = 0) by lra.
    unfold Rdiv in Hq. apply Rmult_integral in Hq as [Hq | Hq]; [exact Hq |].
    pose proof (Rinv_0_lt_compat _ Hpos). lra. }
  pose proof (Rsum_zero terms Hterms H0) as Hall.
  unfold terms in Hall. rewrite Forall_map in Hall.
  eapply Forall_impl; [| exact Hall]. cbv beta. intros g Hg.
  assert (l2_norm g - 1 = 0); [| lra].
  destruct (Req_dec (l2_norm g - 1) 0) as [E | E]; [exact E |].
  exfalso. apply (pow_nonzero _ 2) in E. contradiction.
- intros Hall.
  assert (H0 : Rsum terms = 0).
  { apply Rsum_all_zero. unfold terms. apply Forall_map.
    eapply Forall_impl; [| exact Hall]. cbv beta. intros g ->.
    replace (1 - 1) with 0 by ring. simpl. ring. }
  rewrite H0. unfold Rdiv. ring.
Qed.

Lemma reduce_from_no_axis (t : tensor R) :
  forall d, reduce_from [] d t = t.
Proof.
induction t as [x | l IH] using tensor_ind'; intros d; [reflexivity |].
cbn [reduce_from existsb]. f_equal.
induction IH as [| u l Hu _ IHl]; [reflexivity |].
cbn. now rewrite Hu, IHl.
Qed.

Lemma tmap_tmap {X Y W : Type} (f : X -> Y) (g : Y -> W) (t : tensor X) :
  tmap g (tmap f t) = tmap (fun x => g (f x)) t.
Proof.
induction t as [x | l IH] using tensor_ind'; [reflexivity |].
cbn [tmap]. f_equal. rewrite map_map.
induction IH as [| u l Hu _ IHl]; [reflexivity |].
cbn. now rewrite Hu, IHl.
Qed.

Lemma tmap_ext {X Y : Type} (f g : X -> Y) (t : tensor X) :
  (forall x, f x = g x) -> tmap f t = tmap g t.
Proof.
intros H. induction t as [x | l IH] using tensor_ind'; cbn [tmap].
- now rewrite H.
- f_equal. induction IH as [| u l Hu _ IHl]; [reflexivity |].
  cbn. now rewrite Hu, IHl.
Qed.

(** X11.  The axes of the default losses come from the length of
    [d_in_data_shape], not from the gradient.  When the gradient has fewer
    axes than [d_in_data_shape] names (and this names at least two), the sum
    over the axes [1 .. len-1] is out of range and the call fails.  When
    [d_in_data_shape] names at most one axis, no axis is summed: the slope is
    the absolute value of each single entry of the gradient, and the penalty
    the mean of [(|g| - 1)^2] over all entries. *)
Theorem default_losses_axes {F : Framework}
    (d_in_data_shape : list Z) (critic : tensor R -> tensor R)
    (d_real d_fake interpolated : tensor R) :
  let grad := input_gradient critic interpolated in
  ((2 <= length d_in_data_shape)%nat ->
   (rank grad < length d_in_data_shape)%nat ->
   _compute_losses d_in_data_shape critic d_real d_fake interpolated
   = Raise InvalidArgumentError) /\
  ((length d_in_data_shape <= 1)%nat ->
   _compute_losses d_in_data_shape critic d_real d_fake interpolated
   = Ok (reduce_mean d_fake,
         (reduce_mean d_real - reduce_mean d_fake)
         + 10 * reduce_mean (tmap (fun g => (Rabs g - 1) ^ 2) grad))).
Proof.
intros grad. split.
- intros H2 Hrank. unfold _compute_losses, reduce_sum. fold grad.
  assert (Hfalse : forallb (fun a => (a <? rank (tmap (fun g => (g * g)%R) grad))%nat)
                     (seq 1 (length d_in_data_shape - 1)) = false).
  { destruct (forallb _ _) eqn:E; [| reflexivity].
    rewrite forallb_forall in E.
    specialize (E (length d_in_data_shape - 1)%nat).
    rewrite in_seq in E. unfold rank in E, Hrank. rewrite shape_tmap in E.
    assert (Hlt : (length d_in_data_shape - 1 <? length (shape grad))%nat = true)
      by (apply E; lia).
    apply Nat.ltb_lt in Hlt. lia. }
  now rewrite Hfalse.
- intros H1. unfold _compute_losses, reduce_sum. fold grad.
  replace (length d_in_data_shape - 1)%nat with 0%nat by lia.
  cbn [seq forallb]. rewrite reduce_from_no_axis.
  do 3 f_equal. rewrite !tmap_tmap. f_equal.
  apply (f_equal reduce_mean). apply tmap_ext.
  intros g. change (g * g) with (Rsqr g). now rewrite sqrt_Rsqr_abs.
Qed.
End LossFacts.

Section LossWitnesses.
Import WGAN.
Local Open Scope R_scope.

(** Two examples whose gradients are [(3, 4)] and [(0, 0)]. *)
Lemma discriminator_loss_at_least_wasserstein_witness :
  let d_real := Dim [Dim [Sc 1]; Dim [Sc 3]] in
  let d_fake := Dim [Dim [Sc 2]; Dim [Sc 6]] in
  let interp := Dim [Dim [Sc 3; Sc 4]; Dim [Sc 0; Sc 0]] in
  exists G_loss D_loss,
    @_compute_losses Sample.framework [-1; 2]%Z (fun _ => d_real)
      d_real d_fake interp = Ok (G_loss, D_loss) /\
    reduce_mean d_real - reduce_mean d_fake <= D_loss.
Proof.
intros d_real d_fake interp.
destruct (@discriminator_loss_at_least_wasserstein Sample.framework
            [-1; 2]%Z (fun _ => d_real) d_real d_fake interp 2 [2%nat])
  as (G & D & E & Hle & _).
- reflexivity.
- reflexivity.
- cbn; repeat (split || constructor).
- lia.
- discriminate.
- discriminate.
- exists G, D. split; [exact E | exact Hle].
Defined.
End LossWitnesses.

(** ** The interpolated sample lies between the two batches *)

Section InterpolationRange.
Import WGAN.
Local Open Scope R_scope.

Lemma tget_tzip {X Y W : Type} (f : X -> Y -> W) (a : tensor X) :
  forall (s : list nat) (b : tensor Y) (ix : list nat) (x : X) (y : Y),
    has_shape s a -> has_shape s b ->
    tget a ix = Some x -> tget b ix = Some y ->
    tget (tzip f a b) ix = Some (f x y).
Proof.
induction a as [u | la IH] using tensor_ind'; intros s b ix x y Ha Hb Hx Hy.
- destruct s; [| contradiction]. destruct b as [v |]; [| contradiction].
  destruct ix; [| discriminate]. cbn in *. congruence.
- destruct s as [| n s]; [contradiction |].
  destruct b as [| lb]; [contradiction |].
  destruct ix as [| i ix]; [discriminate |].
  destruct Ha as [Hla Fa], Hb as [Hlb Fb]. cbn [tget tzip] in *.
  destruct (nth_error la i) as [ua |] eqn:Ea; [| discriminate].
  destruct (nth_error lb i) as [ub |] eqn:Eb; [| discriminate].
  rewrite (zipWith_nth (tzip f) la lb i ua ub Ea Eb).
  rewrite Forall_forall in IH, Fa, Fb.
  apply (IH ua (nth_error_In _ _ Ea) s ub ix x y); auto.
  + apply Fa. eapply nth_error_In, Ea.
  + apply Fb. eapply nth_error_In, Eb.
Qed.

Lemma nth_error_combine {X Y : Type} (lx : list X) :
  forall (ly : list Y) (i : nat) (x : X) (y : Y),
    nth_error lx i = Some x -> nth_error ly i = Some y ->
    nth_error (combine lx ly) i = Some (x, y).
Proof.
induction lx as [| x0 lx IH]; intros [| y0 ly] [| i] x y Hx Hy;
  try discriminate; cbn in *.
- congruence.
- eauto.
Qed.

(** X12.  With [X] and [X_gen] of the discriminator input shape and a
    coefficient tensor of shape [(n, 1, ..., 1)] whose entries lie in
    [[0, 1]], as [tf.random.uniform(.., 0.0, 1.0)] draws them, every entry of
    the interpolated sample lies between the entries of [X] and of [X_gen] at
    the same index: the sample is a point of the segment that joins the real
    example to the generated one. *)
Theorem interpolation_stays_between (self : WGAN.WGAN)
    (X X_gen alpha : tensor R) (n : nat) (s : list nat) :
  length (d_in_data_shape self) = S (length s) ->
  shape X = n :: s -> has_shape (n :: s) X ->
  shape X_gen = n :: s -> has_shape (n :: s) X_gen ->
  shape alpha = alpha_shape self n -> has_shape (alpha_shape self n) alpha ->
  (forall a, In a (tflatten alpha) -> 0 <= a <= 1) ->
  exists interp,
    interpolate X X_gen alpha = Ok interp /\
    forall ix x g,
      tget X ix = Some x -> tget X_gen ix = Some g ->
      exists v, tget interp ix = Some v /\ Rmin x g <= v <= Rmax x g.
Proof.
intros Hd SX HX SG HG SA HA Hrange.
destruct (interpolate_spec self X X_gen alpha n s Hd SX HX SG HG SA HA)
  as [Hi Hn].
eexists. split; [exact Hi |].
intros ix x g Hx Hg.
destruct X as [| lx]; [contradiction |].
destruct X_gen as [| lg]; [contradiction |].
destruct HX as [Hlx Fx], HG as [Hlg Fg].
destruct ix as [| i ix]; [discriminate |].
cbn [tget] in Hx, Hg.
destruct (nth_error lx i) as [xe |] eqn:Ex; [| discriminate].
destruct (nth_error lg i) as [ge |] eqn:Eg; [| discriminate].
assert (Hi' : (i < length (tflatten alpha))%nat).
{ rewrite Hn, <- Hlx. apply nth_error_Some. congruence. }
destruct (nth_error (tflatten alpha) i) as [a |] eqn:Ea;
  [| apply nth_error_None in Ea; lia].
pose proof (Hrange a (nth_error_In _ _ Ea)) as Ha.
exists (x + a * (g - x)). split.
- unfold interpolate_per_example. cbn [rows tget].
  rewrite (zipWith_nth _ (tflatten alpha) (combine lx lg) i a (xe, ge) Ea
             (nth_error_combine lx lg i xe ge Ex Eg)).
  cbn [fst snd].
  rewrite Forall_forall in Fx, Fg.
  apply (tget_tzip (fun x0 g0 => x0 + a * (g0 - x0)) xe s ge ix x g); auto.
  + apply Fx. eapply nth_error_In, Ex.
  + apply Fg. eapply nth_error_In, Eg.
- unfold Rmin, Rmax. destruct (Rle_dec x g); split; nra.
Qed.

(** Two examples of shape [(2, 1)] and the coefficients [1/2] and [1/4]. *)
Lemma interpolation_stays_between_witness :
  let X := Dim [Dim [Dim [Sc 1]; Dim [Sc 2]]; Dim [Dim [Sc 3]; Dim [Sc 4]]] in
  let X_gen := Dim [Dim [Dim [Sc 5]; Dim [Sc 6]]; Dim [Dim [Sc 7]; Dim [Sc 8]]] in
  let alpha := Dim [Dim [Dim [Sc (1 / 2)]]; Dim [Dim [Sc (1 / 4)]]] in
  exists interp,
    interpolate X X_gen alpha = Ok interp /\
    exists v, tget interp [1; 0; 0]%nat = Some v /\ Rmin 3 7 <= v <= Rmax 3 7.
Proof.
intros X X_gen alpha.
pose (self := @Sample.shaped_model Sample.framework [-1; 2; 1]%Z).
destruct (interpolation_stays_between self X X_gen alpha 2 [2; 1]%nat)
  as (interp & Hi & Hall).
- reflexivity.
- reflexivity.
- cbn; repeat (split || constructor).
- reflexivity.
- cbn; repeat (split || constructor).
- reflexivity.
- unfold alpha_shape, self; cbn; repeat (split || constructor).
- cbn. intros a [<- | [<- | []]]; lra.
- exists interp. split; [exact Hi |].
  apply (Hall [1; 0; 0]%nat 3 7); reflexivity.
Defined.
End InterpolationRange.

(* ================================================================== *)
(** * Further properties of the signal transforms *)

(** ** Tensors, axis by axis *)

Section DepthFacts.
Context {A B : Type}.

Lemma at_depth_total (d : nat) (g : tensor A -> option (tensor B))
    (h : tensor A -> tensor B) :
  forall (pre s : list nat) (t : tensor A),
    length pre = d -> has_shape (pre ++ s) t ->
    (forall u, has_shape s u -> g u = Some (h u)) ->
    at_depth d g t = Some (map_depth d h t).
Proof.
induction d as [| d IH]; intros pre s t Hlen Hs Hg.
- destruct pre; [| discriminate]. cbn. now apply Hg.
- destruct pre as [| n pre]; [discriminate |].
  destruct t as [| l]; [contradiction |]. destruct Hs as [_ Fl].
  cbn [at_depth map_depth rows].
  rewrite (mapM_all _ (map_depth d h)); [reflexivity |].
  eapply Forall_impl; [| exact Fl]. intros u Hu. apply (IH pre s); auto.
Qed.

Lemma has_shape_map_depth (d : nat) (h : tensor A -> tensor B)
    (s s' : list nat) :
  forall (pre : list nat) (t : tensor A),
    length pre = d -> has_shape (pre ++ s) t ->
    (forall u, has_shape s u -> has_shape s' (h u)) ->
    has_shape (pre ++ s') (map_depth d h t).
Proof.
induction d as [| d IH]; intros pre t Hlen Hs Hh.
- destruct pre; [| discriminate]. cbn. now apply Hh.
- destruct pre as [| n pre]; [discriminate |].
  destruct t as [| l]; [contradiction |]. destruct Hs as [Hl Fl].
  cbn [map_depth rows app has_shape]. split; [now rewrite length_map |].
  apply Forall_map. eapply Forall_impl; [| exact Fl].
  intros u Hu. apply IH; auto.
Qed.

(** Two functions that agree on the sub-tensors whose entries satisfy [P]. *)
Lemma map_depth_ext (P : A -> Prop) (d : nat) (h1 h2 : tensor A -> tensor B)
    (s : list nat) :
  forall (pre : list nat) (t : tensor A),
    length pre = d -> has_shape (pre ++ s) t ->
    Forall P (tflatten t) ->
    (forall u, has_shape s u -> Forall P (tflatten u) -> h1 u = h2 u) ->
    map_depth d h1 t = map_depth d h2 t.
Proof.
induction d as [| d IH]; intros pre t Hlen Hs HP Hh.
- destruct pre; [| discriminate]. cbn. now apply Hh.
- destruct pre as [| n pre]; [discriminate |].
  destruct t as [| l]; [contradiction |]. destruct Hs as [Hl Fl].
  cbn [map_depth rows]. f_equal. cbn [tflatten] in HP.
  apply Forall_flat_map in HP.
  apply map_ext_in. intros u Hu. rewrite Forall_forall in Fl, HP.
  apply (IH pre); auto.
Qed.
End DepthFacts.

Lemma zipWith_map_same {T U V X : Type} (g : U -> V -> X) (f1 : T -> U)
    (f2 : T -> V) (l : list T) :
  zipWith g (map f1 l) (map f2 l) = map (fun a => g (f1 a) (f2 a)) l.
Proof. induction l as [| a l IH]; [reflexivity |]. cbn. now rewrite IH. Qed.

Section DepthFacts2.
Context {A B C : Type}.

Lemma map_depth_map_depth (d : nat) (h1 : tensor A -> tensor B)
    (h2 : tensor B -> tensor C) :
  forall t : tensor A,
    map_depth d h2 (map_depth d h1 t) = map_depth d (fun u => h2 (h1 u)) t.
Proof.
induction d as [| d IH]; intros t; [reflexivity |].
cbn [map_depth rows]. f_equal. rewrite map_map. apply map_ext. intros u. apply IH.
Qed.

Lemma tzip_map_depth {X : Type} (f : B -> C -> X) (d : nat)
    (h1 : tensor A -> tensor B) (h2 : tensor A -> tensor C) :
  forall t : tensor A,
    tzip f (map_depth d h1 t) (map_depth d h2 t)
    = map_depth d (fun u => tzip f (h1 u) (h2 u)) t.
Proof.
induction d as [| d IH]; intros t; [reflexivity |].
cbn [map_depth rows tzip]. f_equal.
rewrite zipWith_map_same.
apply map_ext. intros u. apply IH.
Qed.

Lemma tmap_map_depth (g : A -> B) (d : nat) :
  forall (pre s : list nat) (t : tensor A),
    length pre = d -> has_shape (pre ++ s) t ->
    tmap g t = map_depth d (tmap g) t.
Proof.
induction d as [| d IH]; intros pre s t Hlen Hs; [reflexivity |].
destruct pre as [| n pre]; [discriminate |].
destruct t as [| l]; [contradiction |]. destruct Hs as [_ Fl].
cbn [tmap map_depth rows]. f_equal. apply map_ext_in. intros u Hu.
rewrite Forall_forall in Fl. apply (IH pre s); auto.
Qed.
End DepthFacts2.

Section ShapeFacts.
Context {A : Type}.

Lemma shape_of_has_shape (t : tensor A) :
  forall s, has_shape s t -> Forall (fun n => (0 < n)%nat) s -> shape t = s.
Proof.
induction t as [x | l IH] using tensor_ind'; intros s Hs Hpos.
- destruct s; [reflexivity | contradiction].
- destruct s as [| n s]; [contradiction |]. destruct Hs as [Hl Fl].
  inversion Hpos as [| ? ? Hn Hpos']; subst.
  cbn [shape]. f_equal.
  destruct l as [| t0 l]; [cbn in Hn; lia |].
  inversion IH; inversion Fl; subst. auto.
Qed.

Lemma vector_of_scalars (n : nat) (u : tensor A) :
  has_shape [n] u -> exists xs, u = Dim (map Sc xs) /\ length xs = n.
Proof.
destruct u as [| l]; [contradiction |]. intros [Hl Fl].
exists (flat_map tflatten l). subst n. split.
- f_equal. induction Fl as [| t l Ht _ IH]; [reflexivity |].
  destruct t; [| contradiction]. cbn. now rewrite <- IH.
- induction Fl as [| t l Ht _ IH]; [reflexivity |].
  destruct t; [| contradiction]. cbn. now rewrite IH.
Qed.

Lemma has_shape_scalars (xs : list A) : has_shape [length xs] (Dim (map Sc xs)).
Proof.
cbn. split; [now rewrite length_map |].
apply Forall_map. apply Forall_forall. intros; exact I.
Qed.

Lemma drop_last_scalars (xs : list A) :
  drop_last (Dim (map Sc xs)) = Dim (map Sc (removelast xs)).
Proof. cbn. now rewrite removelast_map. Qed.

Lemma pad_end_scalars (a : A) (xs : list A) :
  pad_end (Sc a) (Dim (map Sc xs)) = Dim (map Sc (xs ++ [a])).
Proof. cbn. now rewrite map_app. Qed.

Lemma removelast_length (xs : list A) :
  length (removelast xs) = (length xs - 1)%nat.
Proof.
induction xs as [| x xs IH]; [reflexivity |].
destruct xs as [| y xs]; [reflexivity |].
cbn [removelast length] in *. rewrite IH. lia.
Qed.

Lemma has_shape_drop_last (n : nat) (u : tensor A) :
  has_shape [S n] u -> has_shape [n] (drop_last u).
Proof.
intros H. destruct (vector_of_scalars _ _ H) as (xs & -> & Hl).
rewrite drop_last_scalars.
replace n with (length (removelast xs)) by (rewrite removelast_length; lia).
apply has_shape_scalars.
Qed.

Lemma has_shape_pad_end (n : nat) (a : A) (u : tensor A) :
  has_shape [n] u -> has_shape [S n] (pad_end (Sc a) u).
Proof.
intros H. destruct (vector_of_scalars _ _ H) as (xs & -> & Hl).
rewrite pad_end_scalars.
replace (S n) with (length (xs ++ [a])) by (rewrite length_app; cbn; lia).
apply has_shape_scalars.
Qed.
End ShapeFacts.

Lemma tmap_scalars {A B : Type} (g : A -> B) (xs : list A) :
  tmap g (Dim (map Sc xs)) = Dim (map Sc (map g xs)).
Proof. cbn. now rewrite !map_map. Qed.

Lemma tzip_scalars {A B C : Type} (f : A -> B -> C) (xs : list A) :
  forall ys, tzip f (Dim (map Sc xs)) (Dim (map Sc ys))
             = Dim (map Sc (zipWith f xs ys)).
Proof.
intros ys. cbn [tzip]. f_equal. revert ys.
induction xs as [| x xs IH]; intros [| y ys]; try reflexivity.
cbn. now rewrite IH.
Qed.

Lemma zipWith_app {X Y W : Type} (g : X -> Y -> W) (l1 : list X) :
  forall (m1 : list Y) (l2 : list X) (m2 : list Y),
    length l1 = length m1 ->
    zipWith g (l1 ++ l2) (m1 ++ m2) = zipWith g l1 m1 ++ zipWith g l2 m2.
Proof.
induction l1 as [| x l1 IH]; intros [| y m1] l2 m2 H; try discriminate;
  [reflexivity |].
cbn. rewrite IH; [reflexivity | now injection H].
Qed.

Section StackFacts.
Context {X : Type}.

Lemma expand_dims_total (d : nat) (s : list nat) (a : tensor X) :
  length s = d -> has_shape s a ->
  expand_dims d a = Some (map_depth d (fun u => Dim [u]) a).
Proof.
intros Hl Hs. unfold expand_dims.
apply (at_depth_total d _ _ s []); auto. now rewrite app_nil_r.
Qed.

(** Two tensors of one shape can be stacked on a new last axis. *)
Lemma stacked_defined (d : nat) :
  forall (s : list nat) (a b : tensor X),
    length s = d -> has_shape s a -> has_shape s b ->
    exists sp,
      (let? a4 := expand_dims d a in
       let? b4 := expand_dims d b in
       concat_axis d a4 b4) = Some sp /\
      has_shape (s ++ [2%nat]) sp.
Proof.
induction d as [| d IH]; intros s a b Hl Ha Hb.
- destruct s; [| discriminate].
  destruct a as [x |]; [| contradiction]. destruct b as [y |]; [| contradiction].
  exists (Dim [Sc x; Sc y]). split; [reflexivity |].
  cbn. repeat (split || constructor).
- destruct s as [| n s]; [discriminate |]. injection Hl as Hl.
  rewrite (expand_dims_total (S d) (n :: s) a) by (cbn; auto).
  rewrite (expand_dims_total (S d) (n :: s) b) by (cbn; auto).
  destruct a as [| la]; [contradiction |]. destruct b as [| lb]; [contradiction |].
  destruct Ha as [Hla Fa], Hb as [Hlb Fb].
  cbn [map_depth rows concat_axis].
  assert (H : exists ws,
             zipM (concat_axis d) (map (map_depth d (fun u => Dim [u])) la)
               (map (map_depth d (fun u => Dim [u])) lb) = Some ws /\
             Forall (has_shape (s ++ [2%nat])) ws /\ length ws = length la).
  { assert (Hlen : length la = length lb) by congruence.
    clear Hla Hlb. revert lb Fb Hlen.
    induction Fa as [| a la Ha _ IHl]; intros [| b lb] Fb Hlen; try discriminate.
    - exists []. repeat split. constructor.
    - apply Forall_cons_iff in Fb as [Hb Fb'].
      destruct (IH s a b Hl Ha Hb) as (sp & Hsp & Hshape).
      rewrite (expand_dims_total d s a Hl Ha) in Hsp.
      rewrite (expand_dims_total d s b Hl Hb) in Hsp.
      destruct (IHl lb Fb' (eq_add_S _ _ Hlen)) as (ws & Hws & Fws & Lws).
      exists (sp :: ws). cbn [map zipM]. rewrite Hsp, Hws.
      repeat split; [constructor; assumption | cbn; congruence]. }
  destruct H as (ws & Hws & Fws & Lws).
  exists (Dim ws). rewrite Hws. split; [reflexivity |].
  cbn. split; [congruence | exact Fws].
Qed.
End StackFacts.

Section RoundTrip.
Import Spectral.
Local Open Scope R_scope.
Context {L : SignalLib}.

Lemma mel_or_id_off (mel : option Z) (lo hi : R) (t : tensor R) :
  truthy_int mel = false -> mel_or_id mel lo hi t = Some t.
Proof.
intros H. unfold mel_or_id. destruct mel as [n |]; [| reflexivity].
now rewrite H.
Qed.

Lemma linear_or_id_off (mel : option Z) (fl : Z) (lo hi : R) (t : tensor R) :
  truthy_int mel = false -> linear_or_id mel fl lo hi t = Some t.
Proof. intros H. unfold linear_or_id. now rewrite H. Qed.

Lemma drop_last_axis_total {A : Type} (b t n : nat) (x : tensor A) :
  has_shape [b; t; n] x ->
  drop_last_axis 2 x = Some (map_depth 2 drop_last x).
Proof.
intros H. unfold drop_last_axis.
apply (at_depth_total 2 _ _ [b; t] [n]); auto.
intros u Hu. destruct u; [contradiction | reflexivity].
Qed.

Lemma pad_end_axis_total {A : Type} (b t n : nat) (z : A) (x : tensor A) :
  has_shape [b; t; n] x ->
  pad_end_axis 2 (Sc z) x = Some (map_depth 2 (pad_end (Sc z)) x).
Proof.
intros H. unfold pad_end_axis.
apply (at_depth_total 2 _ _ [b; t] [n]); auto.
intros u Hu. destruct u; [contradiction | reflexivity].
Qed.

Lemma has_shape_dropped {A : Type} (b t n : nat) (x : tensor A) :
  has_shape [b; t; S n] x -> has_shape [b; t; n] (map_depth 2 drop_last x).
Proof.
intros H. apply (has_shape_map_depth 2 drop_last [S n] [n] [b; t]); auto.
intros u. apply has_shape_drop_last.
Qed.

Lemma has_shape_padded {A : Type} (b t n : nat) (z : A) (x : tensor A) :
  has_shape [b; t; n] x ->
  has_shape [b; t; S n] (map_depth 2 (pad_end (Sc z)) x).
Proof.
intros H. apply (has_shape_map_depth 2 (pad_end (Sc z)) [n] [S n] [b; t]); auto.
intros u. apply has_shape_pad_end.
Qed.

Lemma stack_channels_defined (b t n : nat) (x y : tensor R) :
  has_shape [b; t; n] x -> has_shape [b; t; n] y ->
  exists sp, stack_channels x y = Some sp /\ has_shape [b; t; n; 2%nat] sp.
Proof.
intros Hx Hy. apply (stacked_defined 3 [b; t; n] x y); auto.
Qed.

Lemma add_batch_axis_full {A : Type} (r : nat) (s : list nat) (x : tensor A) :
  has_shape s x -> Forall (fun n => (0 < n)%nat) s -> length s <> r ->
  add_batch_axis r x = x.
Proof.
intros Hx Hpos Hr. unfold add_batch_axis, rank.
rewrite (shape_of_has_shape x s Hx Hpos).
destruct (Nat.eqb_spec (length s) r); [contradiction | reflexivity].
Qed.

Lemma unzip_zip (zs : list C) :
  zipWith (fun re im => (re, im)) (map fst zs) (map snd zs) = zs.
Proof.
rewrite zipWith_map_same. rewrite <- (map_id zs) at 2.
apply map_ext. now intros [re im].
Qed.

(** One frame: the real and the imaginary parts without their last bin,
    each with a zero at its end, paired again. *)
Lemma frame_round_trip (n : nat) (u : tensor C) :
  has_shape [S n] u ->
  tzip (fun re im => (re, im))
    (pad_end (Sc 0) (drop_last (tmap fst u)))
    (pad_end (Sc 0) (drop_last (tmap snd u)))
  = pad_end (Sc (0, 0)) (drop_last u).
Proof.
intros H. destruct (vector_of_scalars _ _ H) as (zs & -> & Hl).
rewrite !tmap_scalars, !drop_last_scalars, !pad_end_scalars, tzip_scalars.
do 2 f_equal.
rewrite zipWith_app by (now rewrite !removelast_length, !length_map).
rewrite !removelast_map, unzip_zip. reflexivity.
Qed.

(** X13.  The round trip through the STFT domain, exactly.  Without a mel
    conversion, for a waveform whose spectrum has [b] examples, [t] frames
    and [f + 1] bins: [waveform_2_stft] returns a tensor of shape
    [(b, t, f, 2)], and [stft_2_waveform] of that tensor is the inverse
    transform of the spectrum with the last bin of every frame, the Nyquist
    frequency, set to zero.  All the round trip loses, before the inverse
    transform, is that one bin. *)
Theorem stft_round_trip_zeroes_nyquist (waveform : tensor R) (fl fs : Z)
    (mel : option Z) (lo hi : R) (st : tensor C) (b t f : nat) :
  truthy_int mel = false ->
  signal_stft (add_batch_axis 1 waveform) fl fs = Some st ->
  has_shape [b; t; S f] st ->
  (0 < b)%nat -> (0 < t)%nat -> (0 < f)%nat ->
  exists enc,
    waveform_2_stft waveform fl fs mel lo hi = Some enc /\
    has_shape [b; t; f; 2%nat] enc /\
    stft_2_waveform enc fl fs mel lo hi
    = signal_inverse_stft (zero_nyquist st) fl fs.
Proof.
intros Hmel Hst Hs Hb Ht Hf.
pose proof (has_shape_tmap fst st _ Hs) as Hre.
pose proof (has_shape_tmap snd st _ Hs) as Him.
pose proof (has_shape_dropped b t f _ Hre) as Hre'.
pose proof (has_shape_dropped b t f _ Him) as Him'.
destruct (stack_channels_defined b t f _ _ Hre' Him') as (enc & Henc & Hshape).
exists enc. split; [| split; [exact Hshape |]].
- unfold waveform_2_stft. rewrite Hst.
  rewrite (drop_last_axis_total b t (S f) _ Hre).
  rewrite (drop_last_axis_total b t (S f) _ Him).
  rewrite !mel_or_id_off by exact Hmel. exact Henc.
- unfold stft_2_waveform.
  rewrite (add_batch_axis_full 3 [b; t; f; 2%nat] enc Hshape)
    by (try discriminate; repeat (apply Forall_cons; [lia |]); apply Forall_nil).
  destruct (stack_channels_index _ _ _ Henc) as [-> ->].
  rewrite !linear_or_id_off by exact Hmel.
  rewrite (pad_end_axis_total b t f 0 _ Hre').
  rewrite (pad_end_axis_total b t f 0 _ Him').
  f_equal.
  rewrite (tmap_map_depth fst 2 [b; t] [S f] st) by auto.
  rewrite (tmap_map_depth snd 2 [b; t] [S f] st) by auto.
  rewrite !map_depth_map_depth, tzip_map_depth. unfold zero_nyquist.
  apply (map_depth_ext (fun _ => True) 2 _ _ [S f] [b; t]); auto.
  + apply Forall_forall. intros; exact I.
  + intros u Hu _. apply (frame_round_trip f u Hu).
Qed.
End RoundTrip.

(** ** Frame differences, wrapping, moduli and phases *)

Section DiffFacts.
Import Spectral.
Local Open Scope R_scope.

Lemma tzip_plus_minus (a : tensor R) :
  forall (s : list nat) (f : tensor R),
    has_shape s a -> has_shape s f ->
    tzip Rplus a (tzip Rminus f a) = f.
Proof.
induction a as [u | la IH] using tensor_ind'; intros s f Ha Hf.
- destruct s; [| contradiction]. destruct f as [v |]; [| contradiction].
  cbn. f_equal. ring.
- destruct s as [| n s]; [contradiction |].
  destruct f as [| lf]; [contradiction |].
  destruct Ha as [Hla Fa], Hf as [Hlf Ff]. cbn [tzip]. f_equal.
  assert (Hlen : length la = length lf) by congruence.
  clear Hla Hlf. revert lf Ff Hlen.
  induction IH as [| a la Ha' _ IHl]; intros [| f lf] Ff Hlen;
    try discriminate; [reflexivity |].
  inversion Fa; inversion Ff; subst. cbn. f_equal; eauto.
Qed.

Lemma running_frame_diffs (s : list nat) (rest : list (tensor R)) :
  forall f0 : tensor R,
    has_shape s f0 -> Forall (has_shape s) rest ->
    running (Some f0) (frame_diffs f0 rest) = rest.
Proof.
induction rest as [| f rest IH]; intros f0 H0 Hrest; [reflexivity |].
inversion Hrest as [| ? ? Hf Hrest']; subst.
cbn [frame_diffs running].
rewrite (tzip_plus_minus f0 s f H0 Hf). f_equal. now apply IH.
Qed.

Lemma has_shape_frame_diffs (s : list nat) (rest : list (tensor R)) :
  forall f0 : tensor R,
    has_shape s f0 -> Forall (has_shape s) rest ->
    Forall (has_shape s) (frame_diffs f0 rest).
Proof.
induction rest as [| f rest IH]; intros f0 H0 Hrest; [constructor |].
inversion Hrest as [| ? ? Hf Hrest']; subst.
cbn [frame_diffs]. constructor; [| now apply IH].
now apply (has_shape_tzip Rminus f s f0).
Qed.


Lemma first_and_diffs_total (p : tensor R) (b t : nat) (s : list nat) :
  has_shape (b :: S t :: s) p ->
  first_and_diffs p = Some (map_depth 1 diffs_of p) /\
  has_shape (b :: S t :: s) (map_depth 1 diffs_of p) /\
  cumsum 1 (map_depth 1 diffs_of p) = Some p.
Proof.
intros Hp.
assert (Hex : forall e : tensor R, has_shape (S t :: s) e ->
                exists f0 rest, e = Dim (f0 :: rest) /\ has_shape s f0 /\
                                Forall (has_shape s) rest /\ length rest = t).
{ intros e He. destruct e as [| [| f0 rest]]; try contradiction.
  - destruct He as [He _]. discriminate.
  - destruct He as [Hl Fl]. inversion Fl; subst.
    exists f0, rest. repeat split; auto. }
assert (Hd : has_shape (b :: S t :: s) (map_depth 1 diffs_of p)).
{ apply (has_shape_map_depth 1 diffs_of (S t :: s) (S t :: s) [b]); auto.
  intros e He. destruct (Hex e He) as (f0 & rest & -> & H0 & Hr & Hl).
  unfold diffs_of. cbn [rows has_shape]. split.
  - cbn. f_equal. rewrite <- Hl. clear. revert f0.
    induction rest as [| f rest IH]; intros f0; [reflexivity |].
    cbn. now rewrite IH.
  - constructor; [exact H0 |]. now apply has_shape_frame_diffs. }
split; [| split; [exact Hd |]].
- unfold first_and_diffs.
  apply (at_depth_total 1 _ diffs_of [b] (S t :: s)); auto.
  intros e He. destruct (Hex e He) as (f0 & rest & -> & _). reflexivity.
- unfold cumsum.
  rewrite (at_depth_total 1 _ (fun u => Dim (running None (rows u)))
             [b] (S t :: s) _ eq_refl Hd).
  + rewrite map_depth_map_depth. f_equal.
    transitivity (map_depth 1 (fun u => u) p).
    * apply (map_depth_ext (fun _ => True) 1 _ _ (S t :: s) [b]); auto.
      { apply Forall_forall. intros; exact I. }
      intros e He _. destruct (Hex e He) as (f0 & rest & -> & H0 & Hr & _).
      unfold diffs_of. cbn [rows running].
      now rewrite (running_frame_diffs s rest f0 H0 Hr).
    * destruct p as [| l]; [contradiction |]. cbn. now rewrite map_id.
  + intros u Hu. destruct u; [contradiction | reflexivity].
Qed.
End DiffFacts.

Section WrapFacts.
Import Spectral.
Local Open Scope R_scope.

Lemma cos_sin_turned (p : R) (k : Z) :
  cos (turned p k) = cos p /\ sin (turned p k) = sin p.
Proof.
unfold turned. destruct (Z.le_gt_cases 0 k) as [Hk | Hk].
- replace (p + 2 * PI * IZR k) with (p + 2 * INR (Z.to_nat k) * PI).
  + split; [apply cos_period | apply sin_period].
  + rewrite INR_IZR_INZ, Z2Nat.id by exact Hk. ring.
- set (q := p + 2 * PI * IZR k).
  replace p with (q + 2 * INR (Z.to_nat (- k)) * PI).
  + split; symmetry; [apply cos_period | apply sin_period].
  + unfold q. rewrite INR_IZR_INZ, Z2Nat.id, opp_IZR by lia. ring.
Qed.

Lemma cos_sin_wrap_phase (p : R) :
  cos (wrap_phase p) = cos p /\ sin (wrap_phase p) = sin p.
Proof.
destruct (wrap_phase_congruent p) as [k Hk]. rewrite Hk.
apply (cos_sin_turned p k).
Qed.

Lemma wrap_phase_fixed (p : R) : - PI <= p < PI -> wrap_phase p = p.
Proof.
intros [Hlo Hhi]. unfold wrap_phase, floor_mod.
pose proof PI_RGT_0 as Hpi.
assert (H0 : Int_part ((p + PI) / (2 * PI)) = 0%Z).
{ symmetry. apply Int_part_spec. cbn [IZR]. split.
  - assert ((p + PI) / (2 * PI) < 1); [| lra].
    apply Rmult_lt_reg_r with (2 * PI); [lra |].
    unfold Rdiv. rewrite Rmult_assoc, Rinv_l by lra. lra.
  - apply Rmult_le_reg_r with (2 * PI); [lra |].
    unfold Rdiv. rewrite Rmult_assoc, Rinv_l by lra. lra. }
rewrite H0. cbn [IZR]. ring.
Qed.

(** X16.  The wrapping [(phase + pi) % (2 * pi) - pi] changes no cosine and
    no sine, so that it leaves the real and imaginary parts computed from
    the phase as they are; it is the identity on [[-pi, pi)] and applying it
    twice is applying it once. *)
Theorem wrap_phase_keeps_the_angle (p : R) :
  cos (wrap_phase p) = cos p /\ sin (wrap_phase p) = sin p /\
  (- PI <= p < PI -> wrap_phase p = p) /\
  wrap_phase (wrap_phase p) = wrap_phase p.
Proof.
destruct (cos_sin_wrap_phase p) as [Hc Hs].
split; [exact Hc |]. split; [exact Hs |]. split.
- apply wrap_phase_fixed.
- apply wrap_phase_fixed. apply wrap_phase_range.
Qed.
End WrapFacts.

Section DepthMore.
Lemma map_depth_ext_all {A B : Type} (d : nat) (h1 h2 : tensor A -> tensor B) :
  (forall u, h1 u = h2 u) ->
  forall t, map_depth d h1 t = map_depth d h2 t.
Proof.
intros H. induction d as [| d IH]; intros t; [apply H |].
cbn [map_depth]. f_equal. apply map_ext. intros u. apply IH.
Qed.

Lemma tmap_drop_last {A B : Type} (g : A -> B) (u : tensor A) :
  tmap g (drop_last u) = drop_last (tmap g u).
Proof. destruct u as [x | l]; [reflexivity |]. cbn. now rewrite removelast_map. Qed.

Lemma tmap_pad_end {A B : Type} (g : A -> B) (z : A) (u : tensor A) :
  tmap g (pad_end (Sc z) u) = pad_end (Sc (g z)) (tmap g u).
Proof. destruct u as [x | l]; [reflexivity |]. cbn. now rewrite map_app. Qed.

Lemma tmap_dropped {A B : Type} (g : A -> B) (b t n : nat) (T : tensor A) :
  has_shape [b; t; S n] T ->
  tmap g (map_depth 2 drop_last T) = map_depth 2 drop_last (tmap g T).
Proof.
intros H.
rewrite (tmap_map_depth g 2 [b; t] [n] (map_depth 2 drop_last T))
  by (auto; now apply has_shape_dropped).
rewrite (tmap_map_depth g 2 [b; t] [S n] T) by auto.
rewrite !map_depth_map_depth. apply map_depth_ext_all.
intros u. apply tmap_drop_last.
Qed.

Lemma tmap_padded {A B : Type} (g : A -> B) (z : A) (b t n : nat) (T : tensor A) :
  has_shape [b; t; n] T ->
  tmap g (map_depth 2 (pad_end (Sc z)) T)
  = map_depth 2 (pad_end (Sc (g z))) (tmap g T).
Proof.
intros H.
rewrite (tmap_map_depth g 2 [b; t] [S n] (map_depth 2 (pad_end (Sc z)) T))
  by (auto; now apply has_shape_padded).
rewrite (tmap_map_depth g 2 [b; t] [n] T) by auto.
rewrite !map_depth_map_depth. apply map_depth_ext_all.
intros u. apply tmap_pad_end.
Qed.

Lemma tmap_tzip_l {A B X : Type} (g : A -> X) (h : A -> B -> A) (x : tensor A) :
  (forall u v, g (h u v) = g u) ->
  forall (s : list nat) (y : tensor B),
    has_shape s x -> has_shape s y -> tmap g (tzip h x y) = tmap g x.
Proof.
intros Hh. induction x as [u | lx IH] using tensor_ind'; intros s y Hx Hy.
- destruct s; [| contradiction]. destruct y; [| contradiction].
  cbn. now rewrite Hh.
- destruct s as [| n s]; [contradiction |].
  destruct y as [| ly]; [contradiction |].
  destruct Hx as [Hlx Fx], Hy as [Hly Fy]. cbn [tzip tmap]. f_equal.
  assert (Hlen : length lx = length ly) by congruence.
  clear Hlx Hly. revert ly Fy Hlen.
  induction IH as [| x lx Hx' _ IHl]; intros [| y ly] Fy Hlen;
    try discriminate; [reflexivity |].
  inversion Fx; inversion Fy; subst. cbn. f_equal; eauto.
Qed.

Lemma removelast_incl {X : Type} (l : list X) : incl (removelast l) l.
Proof.
induction l as [| x l IH]; [intros y [] |].
destruct l as [| x' l]; [intros y [] |].
intros y [<- | Hy]; [now left | right; now apply IH].
Qed.
End DepthMore.

Section SpectrogramRoundTrip.
Import Spectral.
Local Open Scope R_scope.
Context {L : SignalLib}.

Lemma tmul_same_shape (s : list nat) (x y : tensor R) :
  has_shape s x -> has_shape s y -> Forall (fun n => (0 < n)%nat) s ->
  tmul x y = Some (tzip Rmult x y).
Proof.
intros Hx Hy Hpos. unfold tmul, broadcast, rank.
rewrite (shape_of_has_shape x s Hx Hpos), (shape_of_has_shape y s Hy Hpos).
rewrite Nat.sub_diag. cbn [nest].
apply (broadcast_same_zip Rmult x s y Hx Hy).
Qed.

Lemma cabs_nonneg (z : C) : 0 <= cabs z.
Proof. unfold cabs. apply sqrt_pos. Qed.

Lemma exp_ln_cabs (z : C) : exp (ln (cabs z + _EPSILON)) - _EPSILON = cabs z.
Proof.
pose proof (cabs_nonneg z) as H.
rewrite exp_ln; [ring |]. unfold _EPSILON. lra.
Qed.

Lemma has_shape_kept_magnitude (b t n : nat) (st : tensor C) :
  has_shape [b; t; S n] st -> has_shape [b; t; n] (kept_magnitude st).
Proof. intros H. apply has_shape_dropped. now apply has_shape_tmap. Qed.

Lemma has_shape_kept_phase (b t n : nat) (st : tensor C) :
  has_shape [b; t; S n] st -> has_shape [b; t; n] (kept_phase st).
Proof. intros H. apply has_shape_dropped. now apply has_shape_tmap. Qed.

(** Taking the logarithm and undoing it leaves the moduli. *)
Lemma magnitude_decoded (b t n : nat) (st : tensor C) :
  has_shape [b; t; S n] st ->
  tmap (fun m => exp m - _EPSILON)
    (tmap (fun m => ln (m + _EPSILON)) (kept_magnitude st))
  = kept_magnitude st.
Proof.
intros H. unfold kept_magnitude.
rewrite tmap_tmap.
rewrite (tmap_dropped _ b t n (tmap cabs st)) by (now apply has_shape_tmap).
rewrite tmap_tmap. f_equal. apply tmap_ext. intros z. apply exp_ln_cabs.
Qed.

(** One frame: moduli and phases without their last bin, each padded, put
    together again. *)
Lemma frame_polar (n : nat) (u : tensor C) :
  has_shape [S n] u -> Forall polar (tflatten u) ->
  tzip (fun re im => (re, im))
    (tzip Rmult (pad_end (Sc 0) (drop_last (tmap cabs u)))
       (pad_end (Sc (cos 0)) (drop_last (tmap (fun z => cos (angle z)) u))))
    (tzip Rmult (pad_end (Sc 0) (drop_last (tmap cabs u)))
       (pad_end (Sc (sin 0)) (drop_last (tmap (fun z => sin (angle z)) u))))
  = pad_end (Sc (0, 0)) (drop_last u).
Proof.
intros H Hpol. destruct (vector_of_scalars _ _ H) as (zs & -> & Hl).
assert (Hzs : Forall polar zs).
{ cbn [tflatten] in Hpol. rewrite flat_map_concat_map, map_map in Hpol.
  cbn [tflatten] in Hpol. rewrite <- flat_map_concat_map in Hpol.
  clear - Hpol. induction zs as [| z zs IH]; [constructor |].
  cbn in Hpol. inversion Hpol; subst. constructor; auto. }
rewrite !tmap_scalars, !drop_last_scalars, !pad_end_scalars, !tzip_scalars.
do 2 f_equal.
rewrite !zipWith_app by (now rewrite !removelast_length, !length_map).
rewrite !removelast_map, !zipWith_map_same.
rewrite zipWith_app by (now rewrite !length_map).
rewrite zipWith_map_same. cbn [zipWith]. f_equal.
- rewrite <- (map_id (removelast zs)) at 2. apply map_ext_in.
  intros z Hz. apply removelast_incl in Hz.
  rewrite Forall_forall in Hzs. destruct (Hzs z Hz) as [-> ->].
  now destruct z.
- do 2 f_equal; ring.
Qed.
End SpectrogramRoundTrip.

Section SpectrogramRoundTrip2.
Import Spectral.
Local Open Scope R_scope.
Context {L : SignalLib}.

(** The phase channel written by [waveform_2_spectogram] and read back by
    [spectogram_2_waveform]: whatever the flag, the phase recovered has the
    cosines and sines of the phase of the spectrum. *)
Lemma phase_recovered (fq : bool) (mel : option Z) (lo hi : R)
    (st : tensor C) (b t f : nat) :
  truthy_int mel = false ->
  has_shape [b; S t; S f] st -> (0 < b)%nat -> (0 < f)%nat ->
  (fq = true ->
   exists ks : tensor Z,
     has_shape [b; S t; f] ks /\
     np_unwrap (kept_phase st) = tzip turned (kept_phase st) ks) ->
  exists channel recovered,
    spectogram_phase st fq mel lo hi = Some channel /\
    has_shape [b; S t; f] channel /\
    recover_phase fq channel = Some recovered /\
    has_shape [b; S t; f] recovered /\
    tmap cos recovered = tmap cos (kept_phase st) /\
    tmap sin recovered = tmap sin (kept_phase st).
Proof.
intros Hmel Hs Hb Hf Hun.
pose proof (has_shape_kept_phase b (S t) f st Hs) as HP.
assert (Hchan : spectogram_phase st fq mel lo hi
                = if fq then first_and_diffs (np_unwrap (kept_phase st))
                  else Some (kept_phase st)).
{ unfold spectogram_phase.
  rewrite (drop_last_axis_total b (S t) (S f) (tmap angle st))
    by (now apply has_shape_tmap).
  now rewrite mel_or_id_off by exact Hmel. }
rewrite Hchan. destruct fq.
- destruct (Hun eq_refl) as (ks & Hks & Eun). rewrite Eun.
  set (U := tzip turned (kept_phase st) ks).
  assert (HU : has_shape [b; S t; f] U)
    by (apply (has_shape_tzip turned (kept_phase st) _ ks HP Hks)).
  destruct (first_and_diffs_total U b t [f] HU) as (Efd & Hd & Ecum).
  exists (map_depth 1 diffs_of U), (tmap wrap_phase U).
  split; [exact Efd |]. split; [exact Hd |]. split; [| split; [| split]].
  + unfold recover_phase, rank.
    rewrite (shape_of_has_shape _ _ Hd) by (repeat (apply Forall_cons; [lia |]); apply Forall_nil).
    cbn [length Nat.leb Nat.sub]. now rewrite Ecum.
  + now apply has_shape_tmap.
  + rewrite tmap_tmap.
    rewrite (tmap_ext (fun x => cos (wrap_phase x)) cos)
      by (intros x; apply cos_sin_wrap_phase).
    apply (tmap_tzip_l cos turned (kept_phase st)) with (s := [b; S t; f]); auto.
    intros u v. apply cos_sin_turned.
  + rewrite tmap_tmap.
    rewrite (tmap_ext (fun x => sin (wrap_phase x)) sin)
      by (intros x; apply cos_sin_wrap_phase).
    apply (tmap_tzip_l sin turned (kept_phase st)) with (s := [b; S t; f]); auto.
    intros u v. apply cos_sin_turned.
- exists (kept_phase st), (kept_phase st).
  split; [reflexivity |]. split; [exact HP |]. split; [reflexivity |].
  split; [exact HP |]. split; reflexivity.
Qed.

(** X14.  The round trip through the spectrogram domain, exactly.  Under
    the premises of X13, with the same [log_magnitude] and
    [instantaneous_frequency] flags on both sides, an [angle] that is an
    argument of every entry of the spectrum and, for instantaneous
    frequencies, an [np.unwrap] that moves each phase by whole turns:
    [spectogram_2_waveform] of [waveform_2_spectogram] hands the inverse
    transform the very tensor the STFT round trip hands it, the spectrum with
    its Nyquist bin set to zero. *)
Theorem spectogram_round_trip (waveform : tensor R) (fl fs : Z)
    (lm fq : bool) (mel : option Z) (lo hi : R) (st : tensor C) (b t f : nat) :
  truthy_int mel = false ->
  signal_stft (add_batch_axis 1 waveform) fl fs = Some st ->
  has_shape [b; t; S f] st ->
  (0 < b)%nat -> (0 < t)%nat -> (0 < f)%nat ->
  Forall polar (tflatten st) ->
  (fq = true ->
   exists ks : tensor Z,
     has_shape [b; t; f] ks /\
     np_unwrap (kept_phase st) = tzip turned (kept_phase st) ks) ->
  exists enc,
    waveform_2_spectogram waveform fl fs lm fq mel lo hi = Some enc /\
    has_shape [b; t; f; 2%nat] enc /\
    spectogram_2_waveform enc fl fs lm fq mel lo hi
    = signal_inverse_stft (zero_nyquist st) fl fs.
Proof.
intros Hmel Hst Hs Hb Ht Hf Hpol Hun.
destruct t as [| t]; [lia |].
pose proof (has_shape_kept_magnitude b (S t) f st Hs) as HM.
pose proof (has_shape_kept_phase b (S t) f st Hs) as HP.
set (M' := if lm then tmap (fun m => ln (m + _EPSILON)) (kept_magnitude st)
           else kept_magnitude st).
assert (HM' : has_shape [b; S t; f] M').
{ unfold M'. destruct lm; [now apply has_shape_tmap | exact HM]. }
assert (Emag : spectogram_magnitude st lm mel lo hi = Some M').
{ unfold spectogram_magnitude.
  rewrite (drop_last_axis_total b (S t) (S f) (tmap cabs st))
    by (now apply has_shape_tmap).
  now rewrite mel_or_id_off by exact Hmel. }
destruct (phase_recovered fq mel lo hi st b t f Hmel Hs Hb Hf Hun)
  as (channel & V & Echan & Hchan & Erec & HV & Hcos & Hsin).
destruct (stack_channels_defined b (S t) f M' channel HM' Hchan)
  as (enc & Henc & Hshape).
exists enc. split; [| split; [exact Hshape |]].
- unfold waveform_2_spectogram. rewrite Hst, Emag, Echan. exact Henc.
- unfold spectogram_2_waveform.
  rewrite (add_batch_axis_full 3 [b; S t; f; 2%nat] enc Hshape)
    by (try discriminate; repeat (apply Forall_cons; [lia |]); apply Forall_nil).
  destruct (stack_channels_index _ _ _ Henc) as [-> ->].
  rewrite !linear_or_id_off by exact Hmel.
  assert (Hdec : (if lm then tmap (fun m => exp m - _EPSILON) M' else M')
                 = kept_magnitude st).
  { unfold M'. destruct lm; [| reflexivity].
    apply (magnitude_decoded b (S t) f st Hs). }
  rewrite Hdec, Erec.
  rewrite (pad_end_axis_total b (S t) f 0 _ HM).
  rewrite (pad_end_axis_total b (S t) f 0 _ HV).
  assert (Hpos : Forall (fun n => (0 < n)%nat) [b; S t; S f])
    by (repeat (apply Forall_cons; [lia |]); apply Forall_nil).
  rewrite (tmul_same_shape [b; S t; S f]); auto;
    try (apply has_shape_padded; assumption);
    try (apply has_shape_tmap, has_shape_padded; assumption).
  rewrite (tmul_same_shape [b; S t; S f]); auto;
    try (apply has_shape_padded; assumption);
    try (apply has_shape_tmap, has_shape_padded; assumption).
  f_equal.
  rewrite !(tmap_padded _ 0 b (S t) f V HV), Hcos, Hsin.
  unfold kept_phase, kept_magnitude.
  rewrite !(tmap_dropped _ b (S t) f (tmap angle st))
    by (now apply has_shape_tmap).
  rewrite !tmap_tmap.
  rewrite (tmap_map_depth cabs 2 [b; S t] [S f] st) by auto.
  rewrite (tmap_map_depth (fun z => cos (angle z)) 2 [b; S t] [S f] st) by auto.
  rewrite (tmap_map_depth (fun z => sin (angle z)) 2 [b; S t] [S f] st) by auto.
  rewrite !map_depth_map_depth, !tzip_map_depth. unfold zero_nyquist.
  apply (map_depth_ext polar 2 _ _ [S f] [b; S t]); auto.
  intros u Hu Hpu. apply (frame_polar f u Hu Hpu).
Qed.
End SpectrogramRoundTrip2.

(** ** What the transforms guarantee *)

Section IFRoundTrip.
Import Spectral.
Local Open Scope R_scope.

(** X15.  The instantaneous frequencies written by [waveform_2_spectogram]
    (the first frame, then the difference of every frame with the one
    before) are undone by the cumulative sum along the time axis that
    [spectogram_2_waveform] takes: on a phase tensor with at least one frame
    the sum of the differences is the tensor itself.  On a tensor without a
    frame, taking the first frame fails. *)
Theorem instantaneous_frequency_round_trip (p : tensor R) (b t k : nat) :
  has_shape [b; S t; k] p ->
  (exists d,
     first_and_diffs p = Some d /\ has_shape [b; S t; k] d /\
     cumsum 1 d = Some p) /\
  (forall q : tensor R,
     (0 < b)%nat -> has_shape [b; 0%nat; k] q -> first_and_diffs q = None).
Proof.
intros Hp. split.
- exists (map_depth 1 diffs_of p). apply (first_and_diffs_total p b t [k] Hp).
- intros q Hb Hq. destruct q as [| l]; [contradiction |].
  destruct Hq as [Hl Fl]. unfold first_and_diffs. cbn [at_depth].
  destruct l as [| e l]; [cbn in Hl; lia |].
  inversion Fl as [| ? ? He _]; subst.
  destruct e as [| frames]; [contradiction |]. destruct He as [He _].
  destruct frames; [| discriminate]. reflexivity.
Qed.

(** One example of three frames and one bin. *)
Lemma instantaneous_frequency_round_trip_witness :
  exists d,
    first_and_diffs (Dim [Dim [Dim [Sc 1]; Dim [Sc 4]; Dim [Sc 2]]]) = Some d /\
    cumsum 1 d = Some (Dim [Dim [Dim [Sc 1]; Dim [Sc 4]; Dim [Sc 2]]]).
Proof.
destruct (instantaneous_frequency_round_trip
            (Dim [Dim [Dim [Sc 1]; Dim [Sc 4]; Dim [Sc 2]]]) 1 2 1)
  as [(d & H1 & _ & H2) _].
- cbn; repeat (split || constructor).
- exists d. split; assumption.
Defined.
End IFRoundTrip.

Section LogFloor.
Import Spectral.
Local Open Scope R_scope.
Context {L : SignalLib}.




End LogFloor.

Section MagnitudeRoundTrip.
Import Spectral.
Local Open Scope R_scope.
Context {L : SignalLib}.

Lemma cabs_zero : cabs (0, 0) = 0.
Proof. unfold cabs. cbn [fst snd]. replace (0 * 0 + 0 * 0) with 0 by ring. apply sqrt_0. Qed.

Lemma cabs_zero_nyquist (b t f : nat) (st : tensor C) :
  has_shape [b; t; S f] st ->
  tmap cabs (zero_nyquist st)
  = map_depth 2 (pad_end (Sc 0)) (kept_magnitude st).
Proof.
intros Hs. unfold zero_nyquist, kept_magnitude.
rewrite <- (map_depth_map_depth 2 drop_last (pad_end (Sc (0, 0))) st).
rewrite (tmap_padded cabs (0, 0) b t f) by (now apply has_shape_dropped).
rewrite cabs_zero. f_equal. exact (tmap_dropped cabs b t f st Hs).
Qed.

(** X18.  From magnitudes back to a waveform.  Under the premises of X13,
    with an [np.unwrap] that keeps the shape and the same [log_magnitude]
    flag on both sides, [magnitude_2_waveform] of [waveform_2_magnitude]
    runs Griffin-Lim once per example, in order, on the transposed moduli of
    the spectrum with the Nyquist bin set to zero. *)
Theorem magnitude_round_trip (waveform : tensor R) (n_iter fl fs : Z)
    (lm : bool) (mel : option Z) (lo hi : R) (st : tensor C) (b t f : nat)
    (g : np_random_state) :
  truthy_int mel = false ->
  signal_stft (add_batch_axis 1 waveform) fl fs = Some st ->
  has_shape [b; t; S f] st ->
  (0 < b)%nat -> (0 < t)%nat -> (0 < f)%nat ->
  has_shape [b; t; f] (np_unwrap (kept_phase st)) ->
  exists mag,
    waveform_2_magnitude waveform fl fs lm mel lo hi = Some mag /\
    has_shape [b; t; f] mag /\
    magnitude_2_waveform mag n_iter fl fs lm mel lo hi g
    = (let (ws, g') :=
         griffinlim_each n_iter fl fs
           (map transpose (rows (tmap cabs (zero_nyquist st)))) g in
       (option_map Dim ws, g')).
Proof.
intros Hmel Hst Hs Hb Ht Hf Hun.
destruct t as [| t]; [lia |].
pose proof (has_shape_kept_magnitude b (S t) f st Hs) as HM.
set (M' := if lm then tmap (fun m => ln (m + _EPSILON)) (kept_magnitude st)
           else kept_magnitude st).
assert (HM' : has_shape [b; S t; f] M').
{ unfold M'. destruct lm; [now apply has_shape_tmap | exact HM]. }
assert (Emag : spectogram_magnitude st lm mel lo hi = Some M').
{ unfold spectogram_magnitude.
  rewrite (drop_last_axis_total b (S t) (S f) (tmap cabs st))
    by (now apply has_shape_tmap).
  now rewrite mel_or_id_off by exact Hmel. }
destruct (first_and_diffs_total _ b t [f] Hun) as (Efd & Hd & _).
assert (Echan : spectogram_phase st true mel lo hi
                = Some (map_depth 1 diffs_of (np_unwrap (kept_phase st)))).
{ unfold spectogram_phase.
  rewrite (drop_last_axis_total b (S t) (S f) (tmap angle st))
    by (now apply has_shape_tmap).
  rewrite mel_or_id_off by exact Hmel. exact Efd. }
destruct (stack_channels_defined b (S t) f M' _ HM' Hd) as (enc & Henc & _).
exists M'. split; [| split; [exact HM' |]].
- unfold waveform_2_magnitude, waveform_2_spectogram.
  rewrite Hst, Emag, Echan, Henc.
  now destruct (stack_channels_index _ _ _ Henc) as [-> _].
- unfold magnitude_2_waveform.
  rewrite (add_batch_axis_full 2 [b; S t; f] M' HM')
    by (try discriminate; repeat (apply Forall_cons; [lia |]); apply Forall_nil).
  assert (Hdec : (if lm then tmap (fun m => exp m - _EPSILON) M' else M')
                 = kept_magnitude st).
  { unfold M'. destruct lm; [| reflexivity].
    apply (magnitude_decoded b (S t) f st Hs). }
  rewrite Hdec, linear_or_id_off by exact Hmel.
  rewrite (pad_end_axis_total b (S t) f 0 _ HM).
  now rewrite (cabs_zero_nyquist b (S t) f st Hs).
Qed.
End MagnitudeRoundTrip.

Section BatchAxis.
Import Spectral.
Local Open Scope R_scope.
Context {L : SignalLib}.

Lemma rank_dim_singleton {A : Type} (t : tensor A) : rank (Dim [t]) = S (rank t).
Proof. reflexivity. Qed.

Lemma add_batch_axis_single {A : Type} (r : nat) (t : tensor A) :
  rank t = r ->
  add_batch_axis r t = Dim [t] /\ add_batch_axis r (Dim [t]) = Dim [t].
Proof.
intros H. unfold add_batch_axis. rewrite rank_dim_singleton, H, Nat.eqb_refl.
split; [reflexivity |].
destruct (Nat.eqb_spec (S r) r); [lia | reflexivity].
Qed.

(** X19.  Each of the six transforms takes a single example for a batch of
    one: an argument one axis short of the batched shape gives what the same
    argument with a leading axis of extent one gives. *)
Theorem single_example_is_a_batch_of_one :
  (forall w fl fs mel lo hi, rank w = 1%nat ->
     waveform_2_stft w fl fs mel lo hi
     = waveform_2_stft (Dim [w]) fl fs mel lo hi) /\
  (forall t fl fs mel lo hi, rank t = 3%nat ->
     stft_2_waveform t fl fs mel lo hi
     = stft_2_waveform (Dim [t]) fl fs mel lo hi) /\
  (forall w fl fs lm fq mel lo hi, rank w = 1%nat ->
     waveform_2_spectogram w fl fs lm fq mel lo hi
     = waveform_2_spectogram (Dim [w]) fl fs lm fq mel lo hi) /\
  (forall t fl fs lm fq mel lo hi, rank t = 3%nat ->
     spectogram_2_waveform t fl fs lm fq mel lo hi
     = spectogram_2_waveform (Dim [t]) fl fs lm fq mel lo hi) /\
  (forall w fl fs lm mel lo hi, rank w = 1%nat ->
     waveform_2_magnitude w fl fs lm mel lo hi
     = waveform_2_magnitude (Dim [w]) fl fs lm mel lo hi) /\
  (forall m n_iter fl fs lm mel lo hi g, rank m = 2%nat ->
     magnitude_2_waveform m n_iter fl fs lm mel lo hi g
     = magnitude_2_waveform (Dim [m]) n_iter fl fs lm mel lo hi g).
Proof.
repeat split; intros.
- unfold waveform_2_stft.
  now destruct (add_batch_axis_single 1 w) as [-> ->].
- unfold stft_2_waveform.
  now destruct (add_batch_axis_single 3 t) as [-> ->].
- unfold waveform_2_spectogram.
  now destruct (add_batch_axis_single 1 w) as [-> ->].
- unfold spectogram_2_waveform.
  now destruct (add_batch_axis_single 3 t) as [-> ->].
- unfold waveform_2_magnitude, waveform_2_spectogram.
  now destruct (add_batch_axis_single 1 w) as [-> ->].
- unfold magnitude_2_waveform.
  now destruct (add_batch_axis_single 2 m) as [-> ->].
Qed.
End BatchAxis.

Section MelShapes.
Import Spectral.
Local Open Scope R_scope.
Context {L : SignalLib}.

Lemma last_app_one {X : Type} (l : list X) (x d : X) : last (l ++ [x]) d = x.
Proof.
induction l as [| y l IH]; [reflexivity |].
cbn [app]. destruct (l ++ [x]) eqn:E; [destruct l; discriminate |].
cbn [last]. exact IH.
Qed.

(** [tf.tensordot(t, m, 1)] replaces the last extent of [t], which must be
    the number of rows of [m], by the number of columns of [m]. *)
Lemma tensordot1_shape (pre : list nat) (k w : nat) (t m : tensor R) :
  has_shape (pre ++ [k]) t -> Forall (fun n => (0 < n)%nat) (pre ++ [k]) ->
  has_shape [k; w] m -> (0 < w)%nat ->
  exists y, tensordot1 t m = Some y /\ has_shape (pre ++ [w]) y.
Proof.
intros Ht Hpos Hm Hw.
assert (Hk : (0 < k)%nat).
{ apply Forall_app in Hpos as [_ Hk]. now inversion Hk. }
unfold tensordot1, rank.
rewrite (shape_of_has_shape m [k; w] Hm)
  by (repeat (apply Forall_cons; [lia |]); apply Forall_nil).
rewrite (shape_of_has_shape t _ Ht Hpos).
rewrite length_app. cbn [length]. replace (length pre + 1 - 1)%nat with (length pre) by lia.
set (h := fun row : tensor R =>
            Dim (map (fun j => Sc (dot (entries row) (column m j))) (seq 0 w))).
exists (map_depth (length pre) h t). split.
- apply (at_depth_total (length pre) _ h pre [k]); auto.
  intros row Hrow. destruct row as [| l]; [contradiction |].
  destruct m as [| lm]; [contradiction |].
  destruct Hrow as [Hl _], Hm as [Hlm _]. cbn [rows].
  rewrite Hl, Hlm, Nat.eqb_refl. reflexivity.
- apply (has_shape_map_depth (length pre) h [k] [w] pre); auto.
  intros row _. unfold h. cbn [has_shape]. split.
  + now rewrite length_map, length_seq.
  + apply Forall_map. apply Forall_forall. intros; exact I.
Qed.

(** X20.  The mel conversions change the last extent and nothing else.  With
    a filterbank of shape [(k, m)] for [k] bins and a pseudo-inverse of shape
    [(m, k)], [_linear_to_mel_scale] takes a tensor of shape [(..., k)] to one
    of shape [(..., m)], and [_mel_to_linear_scale] with [n_stft_bins = k]
    takes that one back to shape [(..., k)]. *)
Theorem mel_scale_changes_only_the_last_extent (x : tensor R)
    (pre : list nat) (k m : nat) (n_mel_bins : Z) (lo hi : R) :
  has_shape (pre ++ [k]) x -> Forall (fun n => (0 < n)%nat) (pre ++ [k]) ->
  (0 < m)%nat ->
  has_shape [k; m]
    (linear_to_mel_weight_matrix n_mel_bins k _SAMPLE_RATE lo hi) ->
  has_shape [m; k]
    (pinv (linear_to_mel_weight_matrix (Z.of_nat m) k _SAMPLE_RATE lo hi)) ->
  exists y x',
    _linear_to_mel_scale x n_mel_bins lo hi = Some y /\
    has_shape (pre ++ [m]) y /\
    _mel_to_linear_scale y (Z.of_nat k) lo hi = Some x' /\
    has_shape (pre ++ [k]) x'.
Proof.
intros Hx Hpos Hm Hmat Hinv.
assert (Hk : (0 < k)%nat).
{ apply Forall_app in Hpos as [_ Hk]. now inversion Hk. }
assert (Hpos' : Forall (fun n => (0 < n)%nat) (pre ++ [m])).
{ apply Forall_app in Hpos as [Hpre _]. apply Forall_app. split; [exact Hpre |].
  constructor; [exact Hm | constructor]. }
unfold _linear_to_mel_scale.
rewrite (shape_of_has_shape x _ Hx Hpos), last_app_one.
destruct (tensordot1_shape pre k m x _ Hx Hpos Hmat Hm) as (y & Ey & Hy).
exists y. rewrite Ey.
unfold _mel_to_linear_scale.
rewrite (shape_of_has_shape y _ Hy Hpos'), last_app_one, Nat2Z.id.
destruct (tensordot1_shape pre m k y _ Hy Hpos' Hinv Hk) as (x' & Ex' & Hx').
exists x'. repeat split; assumption.
Qed.
End MelShapes.

Section SpectralWitnesses.
Import Spectral.
Local Open Scope R_scope.

(** On the library with one spectrum [((2, 0), (0, 0))]. *)
Lemma stft_round_trip_zeroes_nyquist_witness :
  exists enc,
    @waveform_2_stft Sample.polar_signal_lib (Dim [Sc 1; Sc 2]) 2 1 None 0 8000
    = Some enc /\
    @stft_2_waveform Sample.polar_signal_lib enc 2 1 None 0 8000
    = Some (Dim [Dim [Dim [Sc 2; Sc 0]]]).
Proof.
destruct (@stft_round_trip_zeroes_nyquist Sample.polar_signal_lib
            (Dim [Sc 1; Sc 2]) 2 1 None 0 8000
            (Dim [Dim [Dim [Sc (2, 0); Sc (0, 0)]]]) 1 1 1)
  as (enc & E1 & _ & E2); try reflexivity; try lia.
- cbn; repeat (split || constructor).
- exists enc. split; [exact E1 |]. rewrite E2. reflexivity.
Defined.

Lemma sample_polar : Forall (@polar Sample.polar_signal_lib) [(2, 0); (0, 0)].
Proof.
constructor; [| constructor; [| constructor]];
  unfold polar, cabs; cbn [fst snd angle Sample.polar_signal_lib];
  rewrite cos_0, sin_0.
- replace (2 * 2 + 0 * 0) with (2 * 2) by ring.
  rewrite sqrt_square by lra. split; ring.
- replace (0 * 0 + 0 * 0) with 0 by ring. rewrite sqrt_0. split; ring.
Qed.

(** Log-magnitudes and instantaneous frequencies of the same spectrum. *)
Lemma spectogram_round_trip_witness :
  exists enc,
    @waveform_2_spectogram Sample.polar_signal_lib (Dim [Sc 1; Sc 2]) 2 1
      true true None 0 8000 = Some enc /\
    @spectogram_2_waveform Sample.polar_signal_lib enc 2 1 true true None 0 8000
    = Some (Dim [Dim [Dim [Sc 2; Sc 0]]]).
Proof.
destruct (@spectogram_round_trip Sample.polar_signal_lib
            (Dim [Sc 1; Sc 2]) 2 1 true true None 0 8000
            (Dim [Dim [Dim [Sc (2, 0); Sc (0, 0)]]]) 1 1 1)
  as (enc & E1 & _ & E2); try reflexivity; try lia.
- cbn; repeat (split || constructor).
- exact sample_polar.
- intros _. exists (Dim [Dim [Dim [Sc 0%Z]]]). split.
  + cbn; repeat (split || constructor).
  + cbn. unfold turned. repeat f_equal. cbn. ring.
- exists enc. split; [exact E1 |]. rewrite E2. reflexivity.
Defined.


(** Griffin-Lim of the sample library hands its argument back. *)
Lemma magnitude_round_trip_witness :
  exists mag,
    @waveform_2_magnitude Sample.polar_signal_lib (Dim [Sc 1; Sc 2]) 2 1 true
      None 0 8000 = Some mag /\
    @magnitude_2_waveform Sample.polar_signal_lib mag 16 2 1 true None 0 8000
      0%nat
    = (Some (Dim [Dim [Dim [Sc (sqrt (2 * 2 + 0 * 0))];
                       Dim [Sc (sqrt (0 * 0 + 0 * 0))]]]), 0%nat).
Proof.
destruct (@magnitude_round_trip Sample.polar_signal_lib
            (Dim [Sc 1; Sc 2]) 16 2 1 true None 0 8000
            (Dim [Dim [Dim [Sc (2, 0); Sc (0, 0)]]]) 1 1 1 0%nat)
  as (mag & E1 & _ & E2); try reflexivity; try lia.
- cbn; repeat (split || constructor).
- cbn; repeat (split || constructor).
- exists mag. split; [exact E1 |]. rewrite E2. reflexivity.
Defined.

(** Two rows of one bin, a filterbank of one band. *)
Lemma mel_scale_changes_only_the_last_extent_witness :
  exists y x',
    @_linear_to_mel_scale Sample.signal_lib (Dim [Dim [Sc 5]; Dim [Sc 7]]) 1 0 8000
    = Some y /\
    has_shape [2; 1]%nat y /\
    @_mel_to_linear_scale Sample.signal_lib y 1 0 8000 = Some x' /\
    has_shape [2; 1]%nat x'.
Proof.
apply (@mel_scale_changes_only_the_last_extent Sample.signal_lib
         (Dim [Dim [Sc 5]; Dim [Sc 7]]) [2%nat] 1 1 1 0 8000).
- cbn; repeat (split || constructor).
- repeat (apply Forall_cons; [lia |]); apply Forall_nil.
- lia.
- cbn; repeat (split || constructor).
- cbn; repeat (split || constructor).
Defined.
End SpectralWitnesses.

(* ================================================================== *)
(** * The dataset, the training script and the preprocessing *)

(** ** The NSynth dataset *)

Section NSynthFacts.
Import NSynthDataset.
Local Open Scope Z_scope.

Lemma fixed_len_int64_length (n : Z) (name : string) (r : record) (v : list Z) :
  fixed_len_int64 n name r = Some v -> Z.of_nat (List.length v) = n.
Proof.
unfold fixed_len_int64. destruct (get_feature name r) as [[v' | v' | v'] |];
  try discriminate.
destruct (Z.eqb_spec (Z.of_nat (List.length v')) n); [| discriminate].
now intros [= <-].
Qed.

Lemma fixed_len_float32_length (n : Z) (name : string) (r : record) (v : list R) :
  fixed_len_float32 n name r = Some v -> Z.of_nat (List.length v) = n.
Proof.
unfold fixed_len_float32. destruct (get_feature name r) as [[v' | v' | v'] |];
  try discriminate.
destruct (Z.eqb_spec (Z.of_nat (List.length v')) n); [| discriminate].
now intros [= <-].
Qed.

Lemma some_inj {X : Type} (a b : X) : Some a = Some b -> a = b.
Proof. congruence. Qed.

Lemma one_value {X : Type} (v : list X) :
  Z.of_nat (List.length v) = 1 -> exists x, v = [x].
Proof.
destruct v as [| x [| y v]]; cbn [List.length]; intros H; try lia.
now exists x.
Qed.

(** What every parsed example looks like. *)
Lemma parsed_form (r : record) (e : example) :
  _parse_nsynth r = Some e ->
  Z.of_nat (List.length (wave e)) = 64000 /\
  exists p s f,
    label e = [p] /\ instrument_source e = [s] /\ instrument_family e = [f] /\
    one_hot_label e = one_hot (index_of p pitches) (List.length pitches).
Proof.
unfold _parse_nsynth.
destruct (fixed_len_int64 1 "pitch" r) as [pitch |] eqn:Ep; [| discriminate].
destruct (fixed_len_float32 length "audio" r) as [audio |] eqn:Ea;
  [| discriminate].
destruct (fixed_len_int64 10 "qualities" r) as [q |]; [| discriminate].
destruct (fixed_len_int64 1 "instrument_source" r) as [s |] eqn:Es;
  [| discriminate].
destruct (fixed_len_int64 1 "instrument_family" r) as [f |] eqn:Ef;
  [| discriminate].
intros [= <-]. cbn [wave label instrument_source instrument_family one_hot_label].
apply fixed_len_float32_length in Ea.
apply fixed_len_int64_length, one_value in Ep as [p ->].
apply fixed_len_int64_length, one_value in Es as [s0 ->].
apply fixed_len_int64_length, one_value in Ef as [f0 ->].
split; [exact Ea |]. exists p, s0, f0. repeat split.
Qed.

Lemma parse_all_forall (records : list record) (es : list example) :
  parse_all records = Some es ->
  Forall2 (fun r e => _parse_nsynth r = Some e) records es.
Proof.
revert es. induction records as [| r records IH]; intros es; cbn [parse_all].
- intros [= <-]. constructor.
- destruct (_parse_nsynth r) as [e |] eqn:Er; [| discriminate].
  destruct (parse_all records) as [es' |]; [| discriminate].
  intros [= <-]. constructor; [exact Er | now apply IH].
Qed.

Lemma filter_filter {X : Type} (p q : X -> bool) (l : list X) :
  filter q (filter p l) = filter (fun x => p x && q x) l.
Proof.
induction l as [| x l IH]; [reflexivity |].
cbn [filter]. destruct (p x); cbn [filter andb]; [| exact IH].
destruct (q x); now rewrite IH.
Qed.

Lemma pitches_range : pitches = map (fun i => 24 + Z.of_nat i) (seq 0 61).
Proof. vm_compute. reflexivity. Qed.

Lemma index_of_range (a k : Z) (n s : nat) :
  index_of k (map (fun i => a + Z.of_nat i) (seq s n))
  = if (a + Z.of_nat s <=? k) && (k <? a + Z.of_nat s + Z.of_nat n)
    then Z.to_nat (k - a - Z.of_nat s) else n.
Proof.
revert s. induction n as [| n IH]; intros s.
- cbn [seq map index_of].
  destruct (Z.leb_spec (a + Z.of_nat s) k), (Z.ltb_spec k (a + Z.of_nat s + Z.of_nat 0));
    cbn [andb]; try reflexivity. lia.
- cbn [seq map index_of]. rewrite IH.
  destruct (Z.eqb_spec (a + Z.of_nat s) k) as [E | E].
  + subst k.
    replace ((a + Z.of_nat s <=? a + Z.of_nat s)
             && (a + Z.of_nat s <? a + Z.of_nat s + Z.of_nat (S n))) with true
      by (symmetry; apply andb_true_iff; split;
          [apply Z.leb_le | apply Z.ltb_lt]; lia).
    f_equal. replace (a + Z.of_nat s - a - Z.of_nat s) with 0 by lia. reflexivity.
  + destruct (Z.leb_spec (a + Z.of_nat (S s)) k) as [L1 | L1];
    destruct (Z.ltb_spec k (a + Z.of_nat (S s) + Z.of_nat n)) as [L2 | L2];
    destruct (Z.leb_spec (a + Z.of_nat s) k) as [L3 | L3];
    destruct (Z.ltb_spec k (a + Z.of_nat s + Z.of_nat (S n))) as [L4 | L4];
    cbn [andb]; try lia.
Qed.

(** X21.  The label of a parsed record.  A record that [_parse_nsynth]
    accepts has exactly one pitch [p], and its one-hot label has 61 entries:
    for [24 <= p <= 84] a single one at position [p - 24], for every other
    pitch (the out-of-vocabulary bucket of the lookup table) zeros only.
    The pitches the filters of [provide_dataset] keep are exactly the pitches
    with a proper label. *)
Theorem parsed_label (r : record) (e : example) :
  _parse_nsynth r = Some e ->
  exists p : Z,
    label e = [p] /\
    one_hot_label e
    = if (24 <=? p) && (p <=? 84)
      then one_hot (Z.to_nat (p - 24)) 61
      else repeat 0%R 61.
Proof.
intros H. destruct (parsed_form r e H) as (_ & p & s & f & Hp & _ & _ & Hl).
exists p. split; [exact Hp |]. rewrite Hl, pitches_range.
rewrite index_of_range, length_map, length_seq.
change (Z.of_nat 0) with 0. change (Z.of_nat 61) with 61.
replace (p <? 24 + 0 + 61) with (p <=? 84) by
  (destruct (Z.leb_spec p 84), (Z.ltb_spec p (24 + 0 + 61)); lia).
replace (24 + 0 <=? p) with (24 <=? p) by (f_equal; lia).
destruct ((24 <=? p) && (p <=? 84)).
- do 2 f_equal. lia.
- vm_compute. reflexivity.
Qed.

(** X22.  What [provide_dataset] yields.  When the reading goes through,
    every record has been parsed, and the waveforms yielded are, in the order
    of the file, those of the records whose instrument source is 0
    (acoustic), whose instrument family is 3 (guitar) and whose pitch lies in
    24..84: the four filters in a row are one filter on the conjunction.
    Each waveform yielded has [2^16] samples: the 64000 of the record
    followed by 1536 zeros. *)
Theorem provide_dataset_keeps_acoustic_guitars
    (records : list record) (ws : list (list R)) :
  provide_dataset records = Some ws ->
  exists es : list example,
    Forall2 (fun r e => _parse_nsynth r = Some e) records es /\
    ws = map (fun e => wave e ++ repeat 0%R (Z.to_nat 1536))
           (filter (fun e =>
                      match instrument_source e, instrument_family e, label e with
                      | [s], [f], [p] =>
                          (s =? 0) && (f =? 3) && (24 <=? p) && (p <=? 84)
                      | _, _, _ => false
                      end) es) /\
    Forall (fun w => Z.of_nat (List.length w) = 2 ^ 16
                     /\ skipn (Z.to_nat 64000) w = repeat 0%R (Z.to_nat 1536)) ws.
Proof.
unfold provide_dataset.
destruct (parse_all records) as [es |] eqn:Ep; [| discriminate].
intros H. apply some_inj in H. subst ws. exists es.
pose proof (parse_all_forall records es Ep) as Hall.
assert (Hform : Forall (fun e => exists r, _parse_nsynth r = Some e) es).
{ clear Ep. induction Hall as [| r e rs es' Hr _ IH]; constructor; eauto. }
split; [exact Hall |]. rewrite !filter_filter. split.
- f_equal. apply filter_ext_in. intros e He.
  rewrite Forall_forall in Hform. destruct (Hform e He) as [r Hr].
  destruct (parsed_form r e Hr) as (_ & p & s & f & -> & -> & -> & _).
  unfold first. cbn [map nth]. now rewrite !andb_assoc.
- rewrite Forall_map, Forall_forall. intros e He.
  apply filter_In in He as [He _].
  rewrite Forall_forall in Hform. destruct (Hform e He) as [r Hr].
  destruct (parsed_form r e Hr) as (Hw & _).
  cbv beta. split.
  + rewrite length_app, repeat_length. change (2 ^ 16) with 65536. lia.
  + rewrite skipn_app.
    replace (Z.to_nat 64000 - List.length (wave e))%nat with 0%nat by lia.
    rewrite skipn_all2 by lia. reflexivity.
Qed.
End NSynthFacts.

Section NSynthErrors.
Import NSynthDataset.
Local Open Scope Z_scope.
Local Open Scope string_scope.

Lemma parse_all_none (records : list record) (r : record) :
  In r records -> _parse_nsynth r = None -> parse_all records = None.
Proof.
induction records as [| r0 records IH]; [contradiction |].
intros [-> | Hin] Hr; cbn [parse_all].
- now rewrite Hr.
- rewrite (IH Hin Hr). now destruct (_parse_nsynth r0).
Qed.

(** X23.  A malformed record aborts the reading.  If any record of the file
    lacks one of the five features [_parse_nsynth] asks for, or carries an
    [audio] feature that has not exactly 64000 values, the dataset cannot be
    read to its end, whether or not the filters would have dropped that
    record: the parsing is mapped over the file before any filter. *)
Theorem malformed_record_aborts (records : list record) (r : record) :
  In r records ->
  (exists name,
     In name ["pitch"; "audio"; "qualities"; "instrument_source";
              "instrument_family"] /\ get_feature name r = None) \/
  (exists v, get_feature "audio" r = Some (FloatList v)
             /\ Z.of_nat (List.length v) <> 64000) ->
  provide_dataset records = None.
Proof.
intros Hin Hbad. unfold provide_dataset.
rewrite (parse_all_none records r Hin); [reflexivity |].
unfold _parse_nsynth, fixed_len_int64, fixed_len_float32.
destruct Hbad as [(name & Hname & Hnone) | (v & Hv & Hlen)].
- cbn [In] in Hname.
  destruct Hname as [<- | [<- | [<- | [<- | [<- | []]]]]]; rewrite Hnone;
    repeat match goal with
           | |- context [match ?x with _ => _ end] => destruct x
           end; reflexivity.
- rewrite Hv. change length with 64000.
  destruct (Z.eqb_spec (Z.of_nat (List.length v)) 64000) as [E | _];
    [contradiction |].
  repeat match goal with
         | |- context [match ?x with _ => _ end] => destruct x
         end; reflexivity.
Qed.
End NSynthErrors.

Section NSynthErrorWitness.
Import NSynthDataset.
Local Open Scope string_scope.

(** An electronic instrument without a [qualities] feature: the filters
    would drop it, the parser refuses it first. *)
Lemma malformed_record_aborts_witness :
  let r := [("pitch", Int64List [60%Z]);
            ("audio", FloatList (repeat 0%R (Z.to_nat 64000)));
            ("instrument_source", Int64List [1%Z]);
            ("instrument_family", Int64List [3%Z])] in
  provide_dataset [Sample.note 60 0 3; r] = None.
Proof.
intros r.
apply (malformed_record_aborts [Sample.note 60 0 3; r] r).
- right. now left.
- left. exists "qualities". split; [| reflexivity].
  right. right. now left.
Defined.
End NSynthErrorWitness.

Section PitchSamples.
Import NSynthDataset.
Context {random_state : Type}.
Variable randint : random_state -> nat -> nat * random_state.
Local Open Scope Z_scope.

Lemma counter_add_spec (k : Z) (c : list (Z * nat)) :
  NoDup (map fst c) ->
  NoDup (map fst (counter_add k c)) /\
  total (counter_add k c) = S (total c) /\
  (forall x, In x (map fst (counter_add k c)) <-> x = k \/ In x (map fst c)) /\
  (Forall (fun kc => (0 < snd kc)%nat) c ->
   Forall (fun kc => (0 < snd kc)%nat) (counter_add k c)).
Proof.
induction c as [| [k' n] c IH]; intros Hn.
- cbn. repeat split; try tauto.
  + constructor; [tauto | constructor].
  + intros [H | []]; now left.
  + intros [H | []]; now left.
  + intros _. repeat constructor.
- cbn [counter_add]. inversion Hn as [| ? ? Hk' Hn']; subst.
  destruct (Z.eqb_spec k' k) as [-> | Hne].
  + unfold total. cbn [map fst fold_right snd]. repeat split; try assumption.
    * intros [H | H]; [now left | right; now right].
    * intros [H | [H | H]]; [now left | now left | now right].
    * intros H. inversion H; subst. constructor; [cbn; lia | assumption].
  + destruct (IH Hn') as (I1 & I2 & I3 & I4).
    unfold total in *. cbn [map fst fold_right snd] in *. repeat split.
    * constructor; [| exact I1]. intros H. apply I3 in H as [H | H]; [| tauto].
      now apply Hne.
    * rewrite I2. lia.
    * intros [H | H]; [right; now left |].
      apply I3 in H as [H | H]; [now left | right; now right].
    * intros [H | [H | H]]; [right; apply I3; now left | now left |
                             right; apply I3; now right].
    * intros H. inversion H; subst. constructor; [assumption | now apply I4].
Qed.

Lemma Counter_spec (l : list Z) :
  NoDup (map fst (Counter l)) /\
  total (Counter l) = List.length l /\
  (forall x, In x (map fst (Counter l)) <-> In x l) /\
  Forall (fun kc => (0 < snd kc)%nat) (Counter l).
Proof.
unfold Counter.
assert (G : forall c,
  NoDup (map fst c) -> Forall (fun kc => (0 < snd kc)%nat) c ->
  let r := fold_left (fun c k => counter_add k c) l c in
  NoDup (map fst r) /\ total r = (total c + List.length l)%nat /\
  (forall x, In x (map fst r) <-> In x (map fst c) \/ In x l) /\
  Forall (fun kc => (0 < snd kc)%nat) r).
{ induction l as [| k l IH]; intros c Hn Hp; cbn [fold_left].
  - cbn [List.length In]. repeat split; try assumption; try tauto. lia.
  - destruct (counter_add_spec k c Hn) as (A1 & A2 & A3 & A4).
    destruct (IH (counter_add k c) A1 (A4 Hp)) as (B1 & B2 & B3 & B4).
    cbv zeta in *. repeat split; try assumption.
    + rewrite B2, A2. cbn [List.length]. lia.
    + intros H. apply B3 in H as [H | H]; [| right; now right].
      apply A3 in H as [H | H]; [right; left; now symmetry | now left].
    + intros [H | [H | H]]; apply B3.
      * left. apply A3. now right.
      * left. apply A3. left. now symmetry.
      * now right. }
destruct (G [] ltac:(constructor) ltac:(constructor)) as (G1 & G2 & G3 & G4).
cbv zeta in *. repeat split; try assumption.
- intros H. apply G3 in H as [[] | H]. exact H.
- intros H. apply G3. now right.
Qed.

Lemma draws_spec (n : nat) (a : list Z) (a0 : Z) :
  a <> [] ->
  forall g, List.length (fst (draws randint n a a0 g)) = n /\
            incl (fst (draws randint n a a0 g)) a.
Proof.
intros Ha. induction n as [| n IH]; intros g; cbn [draws].
- split; [reflexivity | intros x []].
- destruct (randint g (List.length a)) as [i g1].
  specialize (IH g1). destruct (draws randint n a a0 g1) as [rest g2].
  cbn [fst] in *. destruct IH as [IH1 IH2]. split; [cbn; now rewrite IH1 |].
  intros x [<- | Hx]; [| now apply IH2].
  apply nth_In. apply Nat.mod_upper_bound. destruct a; [contradiction | discriminate].
Qed.

Lemma all_pitches_in (table : list (Z * Z)) (x : Z) :
  In x (flat_map (fun kv => repeat (fst kv) (Z.to_nat (snd kv))) table)
  <-> exists v, In (x, v) table /\ 0 < v.
Proof.
rewrite in_flat_map. split.
- intros ([k v] & Hin & Hx). cbn [fst snd] in Hx.
  pose proof (repeat_spec _ _ _ Hx) as ->.
  exists v. split; [exact Hin |].
  destruct (Z.to_nat v) eqn:E; [contradiction | lia].
- intros (v & Hin & Hv). exists (x, v). split; [exact Hin |].
  cbn [fst snd]. destruct (Z.to_nat v) eqn:E; [lia | now left].
Qed.

(** X28.  The counter of sampled pitches.  [get_pitches] fails exactly when
    [num_samples] is negative, or positive with no pitch of a positive count
    in the table to draw from.  Otherwise, whatever the generator draws, the
    counter it returns lists each pitch once, its counts are positive and
    add up to [num_samples], and every pitch in it has a positive count in
    the table. *)
Theorem get_pitches_counts (table : list (Z * Z)) (num_samples : Z)
    (g : random_state) :
  (get_pitches randint table num_samples g = None
   <-> num_samples < 0
       \/ (0 < num_samples /\ Forall (fun kv => snd kv <= 0) table)) /\
  (forall c g',
     get_pitches randint table num_samples g = Some (c, g') ->
     NoDup (map fst c) /\
     Z.of_nat (total c) = num_samples /\
     Forall (fun kc => (0 < snd kc)%nat
                       /\ exists v, In (fst kc, v) table /\ 0 < v) c).
Proof.
unfold get_pitches, np_random_choice.
set (all_pitches := flat_map _ table).
assert (Hempty : all_pitches = [] <-> Forall (fun kv => snd kv <= 0) table).
{ split.
  - intros He. rewrite Forall_forall. intros [k v] Hin. cbn [snd].
    destruct (Z.leb_spec v 0) as [L | L]; [exact L |]. exfalso.
    assert (In k all_pitches) by (apply all_pitches_in; eauto).
    rewrite He in H. contradiction.
  - intros Hf. destruct all_pitches as [| x rest] eqn:E; [reflexivity |].
    assert (Hx : In x all_pitches) by (rewrite E; now left).
    apply all_pitches_in in Hx as (v & Hin & Hv).
    rewrite Forall_forall in Hf. specialize (Hf _ Hin). cbn in Hf. lia. }
split.
- destruct (Z.ltb_spec num_samples 0) as [Hneg | Hpos].
  + split; [intros _; now left | reflexivity].
  + destruct all_pitches as [| a0 rest] eqn:E.
    * destruct (Z.eqb_spec num_samples 0) as [H0 | H0].
      -- split; [discriminate | intros [H | [H _]]; lia].
      -- split; [intros _; right; split; [lia | now apply Hempty] | reflexivity].
    * destruct (draws _ _ _ _ _) as [s g1]. split; [discriminate |].
      intros [H | [_ H]]; [lia |]. apply Hempty in H. discriminate H.
- intros c g'.
  destruct (Z.ltb_spec num_samples 0) as [Hneg | Hpos]; [discriminate |].
  assert (Hres : forall s,
            List.length s = Z.to_nat num_samples -> incl s all_pitches ->
            NoDup (map fst (Counter s)) /\
            Z.of_nat (total (Counter s)) = num_samples /\
            Forall (fun kc => (0 < snd kc)%nat
                              /\ exists v, In (fst kc, v) table /\ 0 < v)
              (Counter s)).
  { intros s Hl Hi. destruct (Counter_spec s) as (C1 & C2 & C3 & C4).
    split; [exact C1 |]. split; [rewrite C2, Hl; lia |].
    rewrite Forall_forall in *. intros kc Hkc. split; [now apply C4 |].
    apply all_pitches_in, Hi, C3, in_map, Hkc. }
  destruct all_pitches as [| a0 rest] eqn:E.
  + destruct (Z.eqb_spec num_samples 0) as [H0 | H0]; [| discriminate].
    intros [= <- <-]. apply (Hres []); [rewrite H0; reflexivity | intros x []].
  + pose proof (draws_spec (Z.to_nat num_samples) (a0 :: rest) a0
                  ltac:(discriminate) g) as [D1 D2].
    destruct (draws _ _ _ _ _) as [s g1]. cbn [fst] in *.
    intros [= <- <-]. now apply Hres.
Qed.
End PitchSamples.

Section NSynthWitnesses.
Import NSynthDataset.
Local Open Scope Z_scope.

Lemma parse_note (p s f : Z) :
  _parse_nsynth (Sample.note p s f)
  = Some {| wave := repeat 0%R (Z.to_nat 64000);
            one_hot_label := one_hot (index_of p pitches) (List.length pitches);
            label := [p];
            instrument_source := [s];
            instrument_family := [f] |}.
Proof.
unfold _parse_nsynth, fixed_len_int64, fixed_len_float32, Sample.note.
cbn [get_feature String.eqb Ascii.eqb Bool.eqb andb].
rewrite repeat_length. reflexivity.
Qed.

Lemma parsed_label_witness :
  let e := {| wave := repeat 0%R (Z.to_nat 64000);
              one_hot_label := one_hot 36 61;
              label := [60];
              instrument_source := [0];
              instrument_family := [3] |} in
  _parse_nsynth (Sample.note 60 0 3) = Some e /\
  exists p : Z, label e = [p] /\
    one_hot_label e = if (24 <=? p) && (p <=? 84)
                      then one_hot (Z.to_nat (p - 24)) 61
                      else repeat 0%R 61.
Proof.
intros e.
assert (H : _parse_nsynth (Sample.note 60 0 3) = Some e) by apply parse_note.
split; [exact H |]. exact (parsed_label (Sample.note 60 0 3) e H).
Defined.

Lemma provide_notes :
  provide_dataset [Sample.note 60 0 3; Sample.note 60 1 3; Sample.note 90 0 3]
  = Some [repeat 0%R (Z.to_nat 64000) ++ repeat 0%R (Z.to_nat 1536)].
Proof.
unfold provide_dataset. cbn [parse_all]. rewrite !parse_note. reflexivity.
Qed.

(** Three records: an acoustic guitar at pitch 60, an electronic one, and an
    acoustic one at pitch 90.  Only the first is kept. *)
Lemma provide_dataset_witness :
  let records :=
    [Sample.note 60 0 3; Sample.note 60 1 3; Sample.note 90 0 3] in
  let ws := [repeat 0%R (Z.to_nat 64000) ++ repeat 0%R (Z.to_nat 1536)] in
  provide_dataset records = Some ws /\
  exists es : list example,
    Forall2 (fun r e => _parse_nsynth r = Some e) records es /\
    ws = map (fun e => wave e ++ repeat 0%R (Z.to_nat 1536))
           (filter (fun e =>
                      match instrument_source e, instrument_family e, label e with
                      | [s], [f], [p] =>
                          (s =? 0) && (f =? 3) && (24 <=? p) && (p <=? 84)
                      | _, _, _ => false
                      end) es) /\
    Forall (fun w => Z.of_nat (List.length w) = 2 ^ 16
                     /\ skipn (Z.to_nat 64000) w = repeat 0%R (Z.to_nat 1536)) ws.
Proof.
intros records ws. split; [exact provide_notes |].
exact (provide_dataset_keeps_acoustic_guitars records ws provide_notes).
Defined.
End NSynthWitnesses.

(** ** The training script *)

Section FileNames.
Import Train_WaveGAN_RWD.
Local Open Scope string_scope.

Lemma string_length_append (a b : string) :
  String.length (a ++ b) = (String.length a + String.length b)%nat.
Proof. induction a as [| c a IH]; cbn; [reflexivity | now rewrite IH]. Qed.

Lemma append_cancel_r (a b s : string) : a ++ s = b ++ s -> a = b.
Proof.
revert b. induction a as [| c a IH]; intros [| d b] H; cbn in H.
- reflexivity.
- apply (f_equal String.length) in H. cbn in H.
  rewrite string_length_append in H. lia.
- apply (f_equal String.length) in H. cbn in H.
  rewrite string_length_append in H. lia.
- injection H as -> H. f_equal. now apply IH.
Qed.

Lemma to_int_not_nil (n : Z) :
  Z.to_int n <> Decimal.Pos Decimal.Nil /\ Z.to_int n <> Decimal.Neg Decimal.Nil.
Proof.
destruct n as [| p | p]; cbn; split; try discriminate;
  intros [= H]; now apply (DecimalPos.Unsigned.to_uint_nonnil p).
Qed.

(** [str] gives different integers different texts. *)
Lemma str_inj (a b : Z) : str a = str b -> a = b.
Proof.
unfold str. intros H.
apply (f_equal DecimalString.NilZero.int_of_string) in H.
destruct (to_int_not_nil a) as [A1 A2], (to_int_not_nil b) as [B1 B2].
rewrite !DecimalString.NilZero.isi in H by assumption.
injection H as H. now apply DecimalZ.to_int_inj.
Qed.


Lemma real_file_inj (a b : Z) :
  "_results/WaveGANRWD/audio/real_" ++ str a ++ ".wav"
  = "_results/WaveGANRWD/audio/real_" ++ str b ++ ".wav" -> a = b.
Proof.
cbn [append]. intros H. injection H as H.
now apply str_inj, (append_cancel_r _ _ ".wav").
Qed.

Lemma gen_file_inj (a b : Z) :
  "_results/WaveGANRWD/audio/gen_" ++ str a ++ ".wav"
  = "_results/WaveGANRWD/audio/gen_" ++ str b ++ ".wav" -> a = b.
Proof.
cbn [append]. intros H. injection H as H.
now apply str_inj, (append_cancel_r _ _ ".wav").
Qed.

Lemma real_file_not_gen (a b : Z) :
  "_results/WaveGANRWD/audio/real_" ++ str a ++ ".wav"
  <> "_results/WaveGANRWD/audio/gen_" ++ str b ++ ".wav".
Proof. cbn [append]. intros H. discriminate H. Qed.

(** The names written for a list of epoch tags without repetition. *)
Lemma NoDup_file_names (tags : list Z) :
  NoDup tags ->
  NoDup (flat_map (fun epoch =>
                     [ "_results/WaveGANRWD/audio/real_" ++ str epoch ++ ".wav";
                       "_results/WaveGANRWD/audio/gen_" ++ str epoch ++ ".wav" ])
           tags).
Proof.
induction 1 as [| k tags Hk Hn IH]; [constructor |].
cbn [flat_map app]. constructor; [| constructor].
- intros [H | H].
  + now apply (real_file_not_gen k k).
  + apply in_flat_map in H as (j & Hj & [H | [H | []]]).
    * apply real_file_inj in H. now subst.
    * now apply (real_file_not_gen k j).
- intros H. apply in_flat_map in H as (j & Hj & [H | [H | []]]).
  + now apply (real_file_not_gen j k).
  + apply gen_file_inj in H. now subst.
- exact IH.
Qed.
End FileNames.

Section ScriptRuns.
Import WGAN Train_WaveGAN_RWD.
Context {F : Framework} {B : AbstractModel}.
Local Open Scope string_scope.

Lemma written_files (evs : list event) :
  map file (written evs)
  = flat_map (fun epoch =>
                [ "_results/WaveGANRWD/audio/real_" ++ str epoch ++ ".wav";
                  "_results/WaveGANRWD/audio/gen_" ++ str epoch ++ ".wav" ])
      (export_epochs evs).
Proof.
unfold written. induction evs as [| e evs IH]; [reflexivity |].
destruct e; cbn [flat_map export_epochs export_epoch app]; try exact IH.
rewrite map_app, IH. reflexivity.
Qed.

(** The tags of the export calls of a whole run with a callback. *)
Lemma run_calls_exported (self : WGAN.WGAN) (v : option string) (name : string) :
  fn_save_examples self = Some name ->
  exported (run_calls self v)
  = map Z.of_nat (seq 0 (S (Z.to_nat (epochs self)))).
Proof.
intros Hcb. unfold run_calls. rewrite exported_app.
unfold export_calls at 1. rewrite Hcb. cbn [exported flat_map app seq map].
f_equal. rewrite <- seq_shift, map_map.
generalize (seq 0 (Z.to_nat (epochs self))). intros l.
induction l as [| i l IH]; [reflexivity |].
cbn [flat_map map]. fold (exported (epoch_calls self v (Z.of_nat i))).
rewrite exported_app, exported_epoch_calls. unfold callback_epochs.
rewrite Hcb. cbn [app]. rewrite IH. f_equal. lia.
Qed.

(** X24.  The files of a run with the callback of the script.  When
    [train] runs through (the premises of X4) on a model whose callback is
    [save_examples], the callback has written [2 * (epochs + 1)] files:
    [real_<e>.wav] and [gen_<e>.wav] for [e = 0, 1, ..., epochs], in this
    order; the names are pairwise different, so no export of the run
    overwrites another. *)
Theorem exports_never_overwrite
    (raw : list (tensor R)) (ds dins : list Z) (zd ratio size ep : Z)
    (dir : option string) (eps : Z) (loss : loss_fn) (name : string)
    (self : WGAN.WGAN) (w : world) (v : option string) :
  __init__ raw ds dins zd ratio size ep dir eps loss (Some name) = Ok self ->
  steps_succeed self ->
  (0 < ratio)%Z -> raw <> [] ->
  class_checkpoint_dir = Some v ->
  (truthy_str v = true -> truthy_str dir = true /\ eps <> 0%Z) ->
  let files := map file (written (new_events (train self) w)) in
  files = flat_map (fun epoch =>
                      [ "_results/WaveGANRWD/audio/real_" ++ str epoch ++ ".wav";
                        "_results/WaveGANRWD/audio/gen_" ++ str epoch ++ ".wav" ])
            (map Z.of_nat (seq 0 (S (Z.to_nat ep)))) /\
  List.length files = (2 * (Z.to_nat ep + 1))%nat /\
  NoDup files.
Proof.
intros Hinit Hs Hr Hne Hv Hcan files.
destruct (init_well_configured _ _ _ _ _ _ _ _ _ _ _ _ Hinit Hr) as [Hc Hn].
destruct (train_calls self v w Hc Hs (Hn Hne) Hv
            (init_can_save _ _ _ _ _ _ _ _ _ _ _ _ v Hinit Hcan)) as [_ Hcalls].
destruct (init_view _ _ _ _ _ _ _ _ _ _ _ _ Hinit)
  as (_ & _ & _ & _ & _ & Hep & _ & Hcb & _).
assert (Htags : export_epochs (new_events (train self) w)
                = map Z.of_nat (seq 0 (S (Z.to_nat ep)))).
{ rewrite export_epochs_via_calls, Hcalls, (run_calls_exported self v name Hcb).
  now rewrite Hep. }
assert (Hfiles : files = flat_map (fun epoch =>
                      [ "_results/WaveGANRWD/audio/real_" ++ str epoch ++ ".wav";
                        "_results/WaveGANRWD/audio/gen_" ++ str epoch ++ ".wav" ])
            (map Z.of_nat (seq 0 (S (Z.to_nat ep))))).
{ unfold files. now rewrite written_files, Htags. }
split; [exact Hfiles |]. rewrite Hfiles. split.
- assert (Hl : List.length (map Z.of_nat (seq 0 (S (Z.to_nat ep))))
               = (Z.to_nat ep + 1)%nat) by (rewrite length_map, length_seq; lia).
  rewrite <- Hl. generalize (map Z.of_nat (seq 0 (S (Z.to_nat ep)))). intros l.
  induction l as [| k l IH]; [reflexivity |].
  cbn [flat_map app List.length]. rewrite IH. lia.
- apply NoDup_file_names.
  generalize (seq_NoDup (S (Z.to_nat ep)) 0). generalize (seq 0 (S (Z.to_nat ep))).
  induction 1 as [| i l Hi Hl IH]; cbn [map]; constructor; [| exact IH].
  intros H. apply in_map_iff in H as (j & E & Hj).
  apply Nat2Z.inj in E. now subst.
Qed.
End ScriptRuns.

Section BuildFacts.
Context {X : Type}.

Lemma pieces_concat (n size : nat) :
  forall data : list X,
    length data = (n * size)%nat -> concat (pieces n size data) = data.
Proof.
induction n as [| n IH]; intros data H.
- destruct data; [reflexivity | discriminate].
- cbn [pieces concat]. rewrite IH.
  + apply firstn_skipn.
  + rewrite length_skipn. lia.
Qed.

Lemma pieces_sizes (n size : nat) :
  forall data : list X,
    length data = (n * size)%nat ->
    Forall (fun c => length c = size) (pieces n size data).
Proof.
induction n as [| n IH]; intros data H; cbn [pieces]; constructor.
- rewrite length_firstn. lia.
- apply IH. rewrite length_skipn. lia.
Qed.

(** A tensor built over as many entries as its extents ask for holds these
    entries, in row-major order. *)
Lemma tflatten_build (d : X) (s : list nat) :
  forall data : list X,
    length data = prod_dims s -> tflatten (build d s data) = data.
Proof.
induction s as [| n s IH]; intros data H.
- destruct data as [| x [| y data]]; try discriminate. reflexivity.
- cbn [build tflatten]. cbn [prod_dims fold_right] in H.
  fold (prod_dims s) in H.
  rewrite <- (pieces_concat n (prod_dims s) data H) at 2.
  pose proof (pieces_sizes n (prod_dims s) data H) as Hs.
  induction Hs as [| c cs Hc _ IHc]; [reflexivity |].
  cbn [map flat_map concat]. now rewrite IH, IHc.
Qed.
End BuildFacts.

Section ScriptData.
Import WGAN Train_WaveGAN_RWD.
Context {F : Framework} {B : AbstractModel}.
Local Open Scope Z_scope.

(** [tf.reshape(t, [-1, a, 1])] over a whole number of rows of [a]
    entries. *)
Lemma reshape_rows (t : tensor R) (a : Z) (k : nat) :
  0 < a ->
  length (tflatten t) = (k * Z.to_nat a)%nat ->
  reshape t [-1; a; 1] = Ok (build 0%R [k; Z.to_nat a; 1%nat] (tflatten t)).
Proof.
intros Ha Hl. unfold reshape.
cbn [existsb filter fold_right count_occ map].
change (-1 <? -1) with false. change (1 <? -1) with false.
change (-1 =? -1) with true. change (1 =? -1) with false.
replace (a <? -1) with false by (symmetry; apply Z.ltb_ge; lia).
replace (a =? -1) with false by (symmetry; apply Z.eqb_neq; lia).
cbn [orb negb].
destruct (Z.eq_dec (-1) (-1)) as [_ | N]; [| now contradiction N].
destruct (Z.eq_dec a (-1)) as [E | _]; [lia |].
destruct (Z.eq_dec 1 (-1)) as [E | _]; [discriminate E |].
cbn [fold_right]. rewrite !Z.mul_1_r, Hl.
replace (0 <? a) with true by (symmetry; apply Z.ltb_lt; lia).
assert (Hn : Z.of_nat (k * Z.to_nat a) = Z.of_nat k * a) by lia.
rewrite Hn, Z.mod_mul by lia. cbn [andb Z.eqb].
rewrite Z.div_mul by lia. rewrite Nat2Z.id. reflexivity.
Qed.

Lemma tflatten_scalars (w : list R) : tflatten (Dim (map Sc w)) = w.
Proof.
cbn [tflatten]. induction w as [| x w IH]; [reflexivity |].
cbn [map flat_map tflatten app]. now rewrite IH.
Qed.

Lemma provide_dataset_lengths (records : list NSynthDataset.record)
    (ws : list (list R)) :
  NSynthDataset.provide_dataset records = Some ws ->
  Forall (fun w => length w = Z.to_nat (2 ^ 16)) ws.
Proof.
unfold NSynthDataset.provide_dataset.
destruct (NSynthDataset.parse_all records) as [es |] eqn:Ep; [| discriminate].
intros H. apply some_inj in H. subst ws.
pose proof (parse_all_forall records es Ep) as Hall.
rewrite Forall_map, Forall_forall. intros e He.
do 4 (apply filter_In in He as [He _]).
assert (Hr : exists r, NSynthDataset._parse_nsynth r = Some e).
{ clear Ep. induction Hall as [| r e' rs es' Hr _ IH]; [contradiction |].
  destruct He as [-> | He]; eauto. }
destruct Hr as [r Hr]. destruct (parsed_form r e Hr) as [Hw _].
rewrite length_app, repeat_length. change (2 ^ 16) with 65536. lia.
Qed.

(** X25.  The data of the script fits the shape of the script.  With
    [raw_nsynth] read by [provide_dataset] and the model constructed as on
    line 79, the reshape that opens [_train_step] succeeds on every batch
    [X] of the dataset: the result has the extents [(k, 2^16, 1)] for a
    batch of [k] waveforms and holds the samples of [X] in the same
    order. *)
Theorem script_batches_fit_the_discriminator
    (records : list NSynthDataset.record) (raw : list (tensor R))
    (self : WGAN.WGAN) (X : tensor R) :
  raw_nsynth records = Some raw ->
  WaveGAN raw = Ok self ->
  batch_of self X ->
  exists X1 : tensor R,
    reshape X (d_in_data_shape self) = Ok X1 /\
    has_shape [length (rows X); Z.to_nat (2 ^ 16); 1%nat] X1 /\
    tflatten X1 = tflatten X.
Proof.
unfold raw_nsynth. intros Hraw Hinit (l & -> & Hne & Hincl).
destruct (NSynthDataset.provide_dataset records) as [ws |] eqn:Hws;
  [| discriminate].
cbn [option_map] in Hraw. apply some_inj in Hraw.
pose proof (provide_dataset_lengths records ws Hws) as Hlen.
destruct (init_fields _ _ _ _ _ _ _ _ _ _ _ _ Hinit)
  as (Hr & Hd & _).
rewrite Hr, <- Hraw in Hincl. rewrite Hd. cbn [rows].
assert (Hl : length (tflatten (Dim l)) = (length l * Z.to_nat (2 ^ 16))%nat).
{ cbn [tflatten]. clear Hne. induction l as [| x l IH]; [reflexivity |].
  cbn [flat_map length]. rewrite length_app, IH
    by (intros y Hy; apply Hincl; now right).
  assert (Hx : In x (map (fun w => Dim (map Sc w)) ws))
    by (apply Hincl; now left).
  apply in_map_iff in Hx as (w0 & <- & Hw0).
  rewrite tflatten_scalars. rewrite Forall_forall in Hlen.
  rewrite (Hlen w0 Hw0). generalize (Z.to_nat (2 ^ 16)). intros K. lia. }
exists (build 0%R [length l; Z.to_nat (2 ^ 16); 1%nat] (tflatten (Dim l))).
split; [apply reshape_rows; [reflexivity | exact Hl] |].
split; [apply has_shape_build |].
apply tflatten_build. rewrite Hl. cbn [prod_dims fold_right]. lia.
Qed.
End ScriptData.

Section ScriptWitnesses.
Import WGAN Train_WaveGAN_RWD.
Local Open Scope string_scope.

Lemma script_batches_witness :
  let records := [Sample.note 60 0 3; Sample.note 60 1 3] in
  let x := Dim (map Sc (repeat 0%R (Z.to_nat 64000) ++ repeat 0%R (Z.to_nat 1536))) in
  let self : WGAN.WGAN :=
    {| raw_dataset := [x];
       data_shape := [-1; 2 ^ 16]%Z;
       d_in_data_shape := [-1; 2 ^ 16; 1]%Z;
       z_dim := 32;
       generator_training_ratio := 5;
       batch_size := 16;
       buffer_size := 1000;
       epochs := 100;
       epochs_per_save := 10;
       fn_compute_loss := @_compute_losses Sample.framework;
       fn_save_examples := Some "save_examples";
       checkpoint_prefix := None;
       checkpoint := false |} in
  raw_nsynth records = Some [x] /\
  @WaveGAN Sample.framework [x] = Ok self /\
  batch_of self (Dim [x; x]) /\
  exists X1 : tensor R,
    reshape (Dim [x; x]) (d_in_data_shape self) = Ok X1 /\
    has_shape [length (rows (Dim [x; x])); Z.to_nat (2 ^ 16); 1%nat] X1 /\
    tflatten X1 = tflatten (Dim [x; x]).
Proof.
intros records x self.
assert (H1 : raw_nsynth records = Some [x]).
{ unfold raw_nsynth, records, NSynthDataset.provide_dataset.
  cbn [NSynthDataset.parse_all]. rewrite !parse_note. reflexivity. }
assert (H2 : @WaveGAN Sample.framework [x] = Ok self) by reflexivity.
assert (H3 : batch_of self (Dim [x; x])).
{ exists [x; x]. split; [reflexivity |]. split; [discriminate |].
  intros y [<- | [<- | []]]; now left. }
split; [exact H1 |]. split; [exact H2 |]. split; [exact H3 |].
exact (@script_batches_fit_the_discriminator Sample.framework
         records [x] self (Dim [x; x]) H1 H2 H3).
Defined.

Lemma exports_never_overwrite_witness :
  let self := @Sample.model Sample.framework 4 2 2 2 None 10 (Some "save_examples") in
  let w := (@Sample.initial_world Sample.framework 0 0 0 0 0)%nat in
  let files :=
    map file (written (new_events
                (@train Sample.framework (Sample.base_attribute None) self) w)) in
  files = [ "_results/WaveGANRWD/audio/real_0.wav";
            "_results/WaveGANRWD/audio/gen_0.wav";
            "_results/WaveGANRWD/audio/real_1.wav";
            "_results/WaveGANRWD/audio/gen_1.wav";
            "_results/WaveGANRWD/audio/real_2.wav";
            "_results/WaveGANRWD/audio/gen_2.wav" ] /\
  length files = 6%nat /\ NoDup files.
Proof.
intros self w files.
destruct (@exports_never_overwrite Sample.framework (Sample.base_attribute None)
            (repeat (Sc 0%R) 4) [(-1)%Z] [(-1)%Z] 1 2 2 2 None 10
            (@_compute_losses Sample.framework) "save_examples" self w None)
  as (Hf & Hl & Hn).
- reflexivity.
- apply sample_steps_succeed.
- lia.
- discriminate.
- reflexivity.
- discriminate.
- fold files in Hf, Hl, Hn. split; [| split; assumption].
  rewrite Hf. reflexivity.
Defined.
End ScriptWitnesses.

(** ** The MAESTRO preprocessing *)

Section MaestroFacts.
Import preprocess_maestro_dataset.
Import QArith_base Qround Qfield.
Local Open Scope Z_scope.

(** The ceiling of a quotient of integers. *)
Lemma ceiling_div (n m : Z) :
  0 < m -> Qceiling (inject_Z n / inject_Z m) = - ((- n) / m).
Proof.
intros Hm. unfold Qceiling. f_equal. rewrite Zdiv_Qdiv.
apply Qfloor_comp. rewrite inject_Z_opp. field.
intros H. apply (inject_Z_injective m 0) in H. lia.
Qed.

Lemma padded_wav_length_bounds (wav : list R) :
  len wav <= padded_wav_length wav < len wav + DATA_POINT_LENGTH /\
  padded_wav_length wav
  = DATA_POINT_LENGTH * ((len wav + DATA_POINT_LENGTH - 1) / DATA_POINT_LENGTH).
Proof.
unfold padded_wav_length. change DATA_POINT_LENGTH with 16384.
rewrite ceiling_div by lia. generalize (len wav). intros n.
pose proof (Z.div_mod (- n) 16384 ltac:(lia)) as H1.
pose proof (Z.mod_pos_bound (- n) 16384 ltac:(lia)) as H2.
pose proof (Z.div_mod (n + 16384 - 1) 16384 ltac:(lia)) as H3.
pose proof (Z.mod_pos_bound (n + 16384 - 1) 16384 ltac:(lia)) as H4.
lia.
Qed.

Lemma chunks_of_pieces (wav : list R) :
  let c := (len wav + DATA_POINT_LENGTH - 1) / DATA_POINT_LENGTH in
  let k := Z.to_nat (DATA_POINT_LENGTH * c - len wav) in
  chunks_of wav
  = Some (pieces (Z.to_nat c) (Z.to_nat DATA_POINT_LENGTH) (wav ++ repeat 0%R k))
  /\ length (wav ++ repeat 0%R k) = (Z.to_nat c * Z.to_nat DATA_POINT_LENGTH)%nat
  /\ Z.of_nat k < DATA_POINT_LENGTH /\ 0 <= c.
Proof.
intros c k.
destruct (padded_wav_length_bounds wav) as [[Hlo Hhi] Hp]. fold c in Hp.
assert (Hc : 0 <= c) by (apply Z.div_pos; unfold len; change DATA_POINT_LENGTH with 16384; lia).
assert (Hlen : length (wav ++ repeat 0%R k)
               = (Z.to_nat c * Z.to_nat DATA_POINT_LENGTH)%nat).
{ rewrite length_app, repeat_length. unfold k. unfold len in *.
  revert Hlo Hhi Hp Hc. change DATA_POINT_LENGTH with 16384.
  generalize (padded_wav_length wav). intros p. nia. }
split; [| split; [exact Hlen | split; [| exact Hc]]].
- unfold chunks_of, np_pad. rewrite Hp. fold k.
  replace (DATA_POINT_LENGTH * c - len wav <? 0) with false
    by (symmetry; apply Z.ltb_ge; lia).
  unfold np_reshape_rows, len. rewrite Hlen.
  replace (Z.of_nat (Z.to_nat c * Z.to_nat DATA_POINT_LENGTH))
    with (c * DATA_POINT_LENGTH)
    by (change DATA_POINT_LENGTH with 16384; lia).
  rewrite Z.mod_mul, Z.div_mul by (change DATA_POINT_LENGTH with 16384; lia).
  reflexivity.
- unfold k. rewrite <- Hp. unfold len in *. lia.
Qed.

Lemma chunks_of_a_file_ok (wav : list R) : exists cs, chunks_of wav = Some cs.
Proof. destruct (chunks_of_pieces wav) as [H _]. eauto. Qed.

(** X26.  The chunks of one file.  Padding and reshaping never fail: every
    waveform, the empty one included, is cut into
    [ceil (len / 2^14)] chunks of exactly [2^14] samples each, which laid
    end to end are the waveform followed by fewer than [2^14] zeros. *)
Theorem chunks_of_a_file (wav : list R) :
  exists (chunks : list (list R)) (k : nat),
    chunks_of wav = Some chunks /\
    Forall (fun c => len c = 2 ^ 14) chunks /\
    concat chunks = wav ++ repeat 0%R k /\
    Z.of_nat k < 2 ^ 14 /\
    len (concat chunks) = 2 ^ 14 * Z.of_nat (length chunks) /\
    Z.of_nat (length chunks) = (len wav + 2 ^ 14 - 1) / 2 ^ 14.
Proof.
destruct (chunks_of_pieces wav) as (Hch & Hlen & Hk & Hc).
cbv zeta in Hch, Hlen, Hk, Hc.
set (c := (len wav + DATA_POINT_LENGTH - 1) / DATA_POINT_LENGTH) in *.
set (k := Z.to_nat (DATA_POINT_LENGTH * c - len wav)) in *.
exists (pieces (Z.to_nat c) (Z.to_nat DATA_POINT_LENGTH) (wav ++ repeat 0%R k)), k.
split; [exact Hch |]. split; [| split; [| split; [exact Hk | split]]].
- eapply Forall_impl; [| apply pieces_sizes; exact Hlen].
  intros ch H. unfold len. rewrite H.
  change DATA_POINT_LENGTH with 16384%Z. change (2 ^ 14)%Z with 16384%Z. lia.
- apply pieces_concat. exact Hlen.
- rewrite pieces_concat by exact Hlen. unfold len.
  rewrite Hlen, pieces_length. change DATA_POINT_LENGTH with (2 ^ 14). lia.
- rewrite pieces_length. fold DATA_POINT_LENGTH. fold c. lia.
Qed.

Lemma hours_step (h : Q) (N n : Z) :
  (h == inject_Z N / inject_Z 57600000)%Q ->
  (h + inject_Z n / inject_Z SAMPLE_RATE / 60 / 60
   == inject_Z (N + n) / inject_Z 57600000)%Q.
Proof.
intros H. rewrite H, inject_Z_plus. change SAMPLE_RATE with 16000.
change (inject_Z 16000) with 16000%Q. change (inject_Z 57600000) with 57600000%Q.
field.
Qed.

Lemma hours_reached (h : Q) (N : Z) :
  (h == inject_Z N / inject_Z 57600000)%Q ->
  Qle_bool (inject_Z APPROX_TOTAL_HOURS) h = true <-> 345600000 <= N.
Proof.
intros H. rewrite Qle_bool_iff, H, <- (Qmake_Qdiv N 57600000).
unfold Qle. cbn [Qnum Qden inject_Z]. change APPROX_TOTAL_HOURS with 6. lia.
Qed.

Lemma load_spec (audio : list (list R)) :
  forall (h : Q) (data : list (list R)) (N : Z),
    (h == inject_Z N / inject_Z 57600000)%Q ->
    N <= 345600000 ->
    exists (k : nat) (chunks : list (list (list R))),
      (k <= length audio)%nat /\
      Forall2 (fun wav cs => chunks_of wav = Some cs) (firstn k audio) chunks /\
      load audio h data = Some (data ++ concat chunks) /\
      N + len (concat (firstn k audio)) <= 345600000 /\
      ((k < length audio)%nat ->
       345600000 <= N + len (concat (firstn (S k) audio))).
Proof.
induction audio as [| wav audio IH]; intros h data N Hh HN.
- exists 0%nat, []. cbn [firstn concat load length]. rewrite app_nil_r.
  split; [lia |]. split; [constructor |]. split; [reflexivity |].
  unfold len. cbn [length]. split; lia.
- cbn [load].
  pose proof (hours_step h N (len wav) Hh) as Hh'.
  pose proof (hours_reached _ _ Hh') as Hr.
  destruct (Qle_bool _ _) eqn:Eb.
  + exists 0%nat, []. cbn [firstn concat]. rewrite !app_nil_r.
    pose proof (proj1 Hr eq_refl) as Hreached.
    split; [cbn [length]; lia |]. split; [constructor |].
    split; [reflexivity |].
    unfold len in *. cbn [length]. split; [lia |]. intros _. lia.
  + assert (Hlt : N + len wav < 345600000).
    { destruct (Z.lt_ge_cases (N + len wav) 345600000) as [L | G]; [exact L |].
      apply Hr in G. discriminate G. }
    destruct (chunks_of_a_file_ok wav) as [cs Hcs]. rewrite Hcs.
    destruct (IH (h + inject_Z (len wav) / inject_Z SAMPLE_RATE / 60 / 60)%Q
                (data ++ cs) (N + len wav) Hh' ltac:(lia))
      as (k & chunks & Hk & Hall & Hload & Hle & Hge).
    exists (S k), (cs :: chunks). cbn [firstn concat length].
    split; [lia |]. split; [constructor; assumption |].
    split; [now rewrite Hload, <- app_assoc |].
    unfold len in *. rewrite !length_app. split; [lia |].
    intros Hk'. rewrite Nat2Z.inj_add. specialize (Hge ltac:(lia)).
    cbn [firstn] in Hge. lia.
Qed.

(** X27.  The loop over the files.  For every list of waveforms the loop
    ends with a dataset: the chunks, in order, of the first [k] files, for
    some [k]; every row of it has [2^14] samples.  These [k] files hold at
    most six hours of audio at 16 kHz, and if a file is left, the first one
    left out would have brought the total to six hours or more: that file
    and all the files after it are dropped, however short they are.  Both
    bounds are on whole numbers of samples. *)
Theorem main_loads_a_prefix (audio : list (list R)) :
  exists (k : nat) (chunks : list (list (list R))),
    (k <= length audio)%nat /\
    Forall2 (fun wav cs => chunks_of wav = Some cs) (firstn k audio) chunks /\
    main audio = Some (concat chunks) /\
    Forall (fun c => len c = 2 ^ 14) (concat chunks) /\
    len (concat (firstn k audio)) <= 6 * 60 * 60 * 16000 /\
    ((k < length audio)%nat ->
     6 * 60 * 60 * 16000 <= len (concat (firstn (S k) audio))).
Proof.
destruct (load_spec audio 0%Q [] 0 ltac:(reflexivity) ltac:(lia))
  as (k & chunks & Hk & Hall & Hload & Hle & Hge).
exists k, chunks. split; [exact Hk |]. split; [exact Hall |].
split; [exact Hload |]. split; [| split; [lia | intros H; specialize (Hge H); lia]].
clear Hload Hle Hge Hk. induction Hall as [| wav cs ws css Hcs _ IH].
- constructor.
- cbn [concat]. apply Forall_app. split; [| exact IH].
  destruct (chunks_of_pieces wav) as (Hch & Hlen & _). cbv zeta in Hch, Hlen.
  rewrite Hch in Hcs. apply some_inj in Hcs. subst cs.
  eapply Forall_impl; [| apply pieces_sizes; exact Hlen].
  intros ch H. unfold len. rewrite H.
  change DATA_POINT_LENGTH with 16384%Z. change (2 ^ 14)%Z with 16384%Z. lia.
Qed.
End MaestroFacts.

(** ** The SpecGAN networks *)

Section LayerShapes.
Import spec_gan.

Lemma length_tflatten {A : Type} (t : tensor A) :
  forall s, has_shape s t -> length (tflatten t) = prod_dims s.
Proof.
induction t as [x | l IH] using tensor_ind'; intros s Hs.
- destruct s; [reflexivity | contradiction].
- destruct s as [| n s]; [contradiction |]. destruct Hs as [Hl Fl].
  cbn [tflatten prod_dims fold_right]. fold (prod_dims s). subst n.
  induction l as [| t l IHl]; [reflexivity |].
  inversion IH as [| ? ? Ht IH']; subst. inversion Fl as [| ? ? Ft Fl']; subst.
  cbn [flat_map length]. rewrite length_app, (Ht s Ft), (IHl IH' Fl'). lia.
Qed.

Lemma always_shape (f : tensor R -> tensor R) (s' : list nat) (x : tensor R) :
  has_shape s' (f x) ->
  exists y, always f x = Some y /\ has_shape s' y.
Proof. intros H. exists (f x). split; [reflexivity | exact H]. Qed.

Lemma ReLU_shape (s : list nat) (x : tensor R) :
  has_shape s x -> exists y, ReLU x = Some y /\ has_shape s y.
Proof. intros H. eexists. split; [reflexivity |]. now apply has_shape_tmap. Qed.

Lemma LeakyReLU_shape (alpha : R) (s : list nat) (x : tensor R) :
  has_shape s x -> exists y, LeakyReLU alpha x = Some y /\ has_shape s y.
Proof. intros H. eexists. split; [reflexivity |]. now apply has_shape_tmap. Qed.

Lemma Reshape_shape (target s : list nat) (b : nat) (x : tensor R) :
  has_shape (b :: s) x -> prod_dims s = prod_dims target ->
  exists y, Reshape target x = Some y /\ has_shape (b :: target) y.
Proof.
destruct x as [? | l]; [contradiction |]. intros [Hl Fl] Hp. unfold Reshape.
replace (forallb _ l) with true.
- eexists. split; [reflexivity |]. split; [now rewrite length_map |].
  apply Forall_map, Forall_forall. intros e _. apply has_shape_build.
- symmetry. apply forallb_forall. intros e He. apply Nat.eqb_eq.
  rewrite Forall_forall in Fl. rewrite (length_tflatten e s (Fl e He)). exact Hp.
Qed.

Lemma Flatten_shape (s : list nat) (b : nat) (x : tensor R) :
  has_shape (b :: s) x ->
  exists y, Flatten x = Some y /\ has_shape [b; prod_dims s] y.
Proof.
destruct x as [? | l]; [contradiction |]. intros [Hl Fl].
eexists. split; [reflexivity |]. split; [now rewrite length_map |].
apply Forall_map. rewrite Forall_forall in *. intros e He.
rewrite <- (length_tflatten e s (Fl e He)). apply has_shape_scalars.
Qed.

Lemma has_shape_build_dims (s s' : list nat) (data : list R) :
  s = s' -> has_shape s' (build 0%R s data).
Proof. intros <-. apply has_shape_build. Qed.

Lemma Sequential_cons (l : layer) (ls : list layer) (x y : tensor R) :
  l x = Some y -> Sequential (l :: ls) x = Sequential ls y.
Proof. intros H. unfold Sequential. cbn [fold_left]. now rewrite H. Qed.
End LayerShapes.

Section NetworkShapes.
Import spec_gan.
Context {K : Keras}.

Ltac next_layer H y Hy :=
  match goal with
  | |- exists _, Sequential (_ :: _) ?x = Some _ /\ _ =>
      let E := fresh "E" in
      destruct H as (y & E & Hy);
      rewrite (Sequential_cons _ _ x y E); clear E
  end.

(** X29.  The shape of the generations.  With layers that map shapes as
    Keras documents, and an activation that keeps the shape (the default
    [linear] does), the generator maps a batch of [b] latent vectors of any
    length to a tensor of shape [(b, 128, 128, channels)]: the dense layer
    gives the [4 * 4 * 1024] entries the [Reshape] asks for, so it never
    fails, and the five transposed convolutions double 4 to 128. *)
Theorem Generator_output_shape (v : variables) (channels : nat)
    (activation : tensor R -> tensor R) (z_in : tensor R) (b d : nat) :
  keras_shapes ->
  (forall s x, has_shape s x -> has_shape s (activation x)) ->
  (0 < b)%nat -> (0 < d)%nat ->
  has_shape [b; d] z_in ->
  exists y, Generator_call v channels activation z_in = Some y /\
            has_shape [b; 128; 128; channels]%nat y.
Proof.
intros (HD & _ & HT) Hact Hb Hd Hz. unfold Generator_call.
assert (H : exists y, Sequential (Generator_layers v channels) z_in = Some y
                      /\ has_shape [b; 128; 128; channels]%nat y).
{ unfold Generator_layers.
  next_layer (always_shape (Dense v 0 (4 * 4 * 1024)) _ z_in
                (HD v 0%nat _ z_in b d Hb Hd Hz)) y0 H0.
  next_layer (Reshape_shape [4; 4; 1024]%nat _ b y0 H0 eq_refl) y1 H1.
  next_layer (ReLU_shape _ y1 H1) y2 H2.
  next_layer (always_shape _ _ y2
                (HT v 3%nat 512%nat (6, 6)%nat y2 b 4 4 1024%nat Hb
                   ltac:(lia) ltac:(lia) ltac:(lia) H2)) y3 H3.
  next_layer (ReLU_shape _ y3 H3) y4 H4.
  next_layer (always_shape _ _ y4
                (HT v 5%nat 256%nat (6, 6)%nat y4 b (2 * 4) (2 * 4) 512%nat Hb
                   ltac:(lia) ltac:(lia) ltac:(lia) H4)) y5 H5.
  next_layer (ReLU_shape _ y5 H5) y6 H6.
  next_layer (always_shape _ _ y6
                (HT v 7%nat 128%nat (6, 6)%nat y6 b (2 * (2 * 4)) (2 * (2 * 4)) 256%nat Hb
                   ltac:(lia) ltac:(lia) ltac:(lia) H6)) y7 H7.
  next_layer (ReLU_shape _ y7 H7) y8 H8.
  next_layer (always_shape _ _ y8
                (HT v 9%nat 64%nat (6, 6)%nat y8 b (2 * (2 * (2 * 4))) (2 * (2 * (2 * 4))) 128%nat Hb
                   ltac:(lia) ltac:(lia) ltac:(lia) H8)) y9 H9.
  next_layer (ReLU_shape _ y9 H9) y10 H10.
  destruct (always_shape _ _ y10
                (HT v 11%nat channels (6, 6)%nat y10 b (2 * (2 * (2 * (2 * 4)))) (2 * (2 * (2 * (2 * 4)))) 64%nat Hb
                   ltac:(lia) ltac:(lia) ltac:(lia) H10)) as (y11 & E & H11).
  exists y11. split; [| exact H11].
  unfold Sequential. cbn [fold_left]. exact E. }
destruct H as (y & -> & Hy). exists (activation y).
split; [reflexivity | now apply Hact].
Qed.

Lemma half_pos (n : nat) : (0 < n -> 0 < (n + 1) / 2)%nat.
Proof. intros H. apply Nat.div_str_pos. lia. Qed.

(** X30.  The shape of the scores.  With layers that map shapes as Keras
    documents, the discriminator maps a batch of [b] images of any height,
    width and number of channels to a tensor of shape [(b, 1)]: one score
    per image.  Its output passes the assertion
    [d_real.shape[-1] == 1] of [_train_step]. *)
Theorem Discriminator_output_shape (v : variables) (x_in : tensor R)
    (b h w c : nat) :
  keras_shapes ->
  (0 < b)%nat -> (0 < h)%nat -> (0 < w)%nat -> (0 < c)%nat ->
  has_shape [b; h; w; c] x_in ->
  exists y, Discriminator_call v x_in = Some y /\
            has_shape [b; 1%nat] y /\
            WGAN.assert_last_dim_1 y = WGAN.Ok tt.
Proof.
intros (HD & HC & _) Hb Hh Hw Hc Hx. unfold Discriminator_call.
assert (H : exists y, Sequential (Discriminator_layers v) x_in = Some y
                      /\ has_shape [b; 1%nat] y).
{ unfold Discriminator_layers.
  set (h1 := ((h + 1) / 2)%nat). set (w1 := ((w + 1) / 2)%nat).
  set (h2 := ((h1 + 1) / 2)%nat). set (w2 := ((w1 + 1) / 2)%nat).
  set (h3 := ((h2 + 1) / 2)%nat). set (w3 := ((w2 + 1) / 2)%nat).
  set (h4 := ((h3 + 1) / 2)%nat). set (w4 := ((w3 + 1) / 2)%nat).
  set (h5 := ((h4 + 1) / 2)%nat). set (w5 := ((w4 + 1) / 2)%nat).
  pose proof (half_pos h Hh) as Hh1. pose proof (half_pos w Hw) as Hw1.
  pose proof (half_pos h1 Hh1) as Hh2. pose proof (half_pos w1 Hw1) as Hw2.
  pose proof (half_pos h2 Hh2) as Hh3. pose proof (half_pos w2 Hw2) as Hw3.
  pose proof (half_pos h3 Hh3) as Hh4. pose proof (half_pos w3 Hw3) as Hw4.
  pose proof (half_pos h4 Hh4) as Hh5. pose proof (half_pos w4 Hw4) as Hw5.
  next_layer (always_shape _ _ x_in
                (HC v 0%nat 64%nat (6, 6)%nat x_in b h w c Hb Hh Hw Hc Hx)) y0 H0.
  next_layer (LeakyReLU_shape 0.2 _ y0 H0) y1 H1.
  next_layer (always_shape _ _ y1
                (HC v 2%nat 128%nat (6, 6)%nat y1 b h1 w1 64%nat Hb Hh1 Hw1
                   ltac:(lia) H1)) y2 H2.
  next_layer (LeakyReLU_shape 0.2 _ y2 H2) y3 H3.
  next_layer (always_shape _ _ y3
                (HC v 4%nat 256%nat (6, 6)%nat y3 b h2 w2 128%nat Hb Hh2 Hw2
                   ltac:(lia) H3)) y4 H4.
  next_layer (LeakyReLU_shape 0.2 _ y4 H4) y5 H5.
  next_layer (always_shape _ _ y5
                (HC v 6%nat 512%nat (6, 6)%nat y5 b h3 w3 256%nat Hb Hh3 Hw3
                   ltac:(lia) H5)) y6 H6.
  next_layer (LeakyReLU_shape 0.2 _ y6 H6) y7 H7.
  next_layer (always_shape _ _ y7
                (HC v 8%nat 1024%nat (6, 6)%nat y7 b h4 w4 512%nat Hb Hh4 Hw4
                   ltac:(lia) H7)) y8 H8.
  next_layer (LeakyReLU_shape 0.2 _ y8 H8) y9 H9.
  next_layer (Flatten_shape _ b y9 H9) y10 H10.
  assert (Hn : (0 < prod_dims [h5; w5; 1024])%nat).
  { cbn [prod_dims fold_right]. apply Nat.mul_pos_pos; [exact Hh5 |].
    apply Nat.mul_pos_pos; [exact Hw5 | lia]. }
  destruct (always_shape _ _ y10
              (HD v 11%nat 1%nat y10 b _ Hb Hn H10)) as (y11 & E & H11).
  exists y11. split; [| exact H11].
  unfold Sequential. cbn [fold_left]. exact E. }
destruct H as (y & Hy & Hs). exists y. split; [exact Hy |]. split; [exact Hs |].
unfold WGAN.assert_last_dim_1, last_dim.
rewrite (shape_of_has_shape y [b; 1%nat] Hs)
  by (repeat (apply Forall_cons; [lia |]); apply Forall_nil).
reflexivity.
Qed.
End NetworkShapes.

Section NetworkWitnesses.
Import spec_gan.

Lemma sample_keras_shapes : @keras_shapes Sample.keras.
Proof.
unfold keras_shapes. split; [| split].
- intros v name units x b n Hb Hn Hx. cbn [Dense Sample.keras].
  apply has_shape_build_dims.
  destruct x as [? | l]; [contradiction |]. destruct Hx as [Hl _]. cbn [rows].
  now rewrite Hl.
- intros v name filters kernel x b h w c Hb Hh Hw Hc Hx.
  cbn [Conv2D Sample.keras].
  rewrite (shape_of_has_shape x [b; h; w; c] Hx)
    by (repeat (apply Forall_cons; [lia |]); apply Forall_nil).
  apply has_shape_build.
- intros v name filters kernel x b h w c Hb Hh Hw Hc Hx.
  cbn [Conv2DTranspose Sample.keras].
  rewrite (shape_of_has_shape x [b; h; w; c] Hx)
    by (repeat (apply Forall_cons; [lia |]); apply Forall_nil).
  apply has_shape_build.
Qed.

(** A batch of one latent vector of one entry, one channel, the default
    activation. *)
Lemma Generator_output_shape_witness :
  exists y,
    @Generator_call Sample.keras tt 1 linear (Dim [Dim [Sc 0%R]]) = Some y /\
    has_shape [1; 128; 128; 1]%nat y.
Proof.
apply (@Generator_output_shape Sample.keras tt 1%nat linear
         (Dim [Dim [Sc 0%R]]) 1%nat 1%nat).
- exact sample_keras_shapes.
- intros s x H. exact H.
- lia.
- lia.
- cbn. repeat constructor.
Defined.

(** One image of 3 by 5 pixels with one channel. *)
Lemma Discriminator_output_shape_witness :
  exists y,
    @Discriminator_call Sample.keras tt (build 0%R [1; 3; 5; 1]%nat []) = Some y /\
    has_shape [1; 1]%nat y /\
    WGAN.assert_last_dim_1 y = WGAN.Ok tt.
Proof.
apply (@Discriminator_output_shape Sample.keras tt
         (build 0%R [1; 3; 5; 1]%nat []) 1%nat 3%nat 5%nat 1%nat).
- exact sample_keras_shapes.
- lia.
- lia.
- lia.
- lia.
- apply has_shape_build.
Defined.
End NetworkWitnesses.
